(** * Kademlia routing core: buckets, routing table, router

    A shallow embedding of [lib/bucket.js], [lib/routing-table.js] and
    [lib/router.js], and the properties of the routing core checked on it.

    Conventions of the embedding.
    - A Node-style callback [cb(err, a, b, ...)] becomes a value of [step]:
      [Next args] for [cb(null, a, b, ...)], [Fail e] for [cb(e)], and
      [Throw e] when the function raises instead of calling back.
    - Mutable objects are passed explicitly: every operation takes the state
      it reads and returns the state it leaves.
    - The chains of callbacks are run as the libraries the code is written
      against run them: [async.waterfall], [async.each] and [async.series] of
      async 1.x, [_.sortedIndex] and [_.uniq] of lodash 3.
    - [constants.js], [utils.js] and [item.js] are not among the sources.
      The constants [K], [B], [ALPHA], the functions [createID] and
      [getBucketIndex] and the constructor [Item] enter through the record
      [Lib]; [getDistance] and [compareKeys] are modelled from the
      specification.
    - The storage adapter is supplied by the caller.  What it holds is the
      record [Storage]; whether it answers a key it holds nothing under
      with an error or with [null] is a field of that record. *)

From Equations Require Import Equations.
From stdpp Require Import gmap strings list fin_maps sorting.
From Stdlib Require Import ZArith NArith Lia.

Open Scope string_scope.
Open Scope list_scope.

(** ** Identifiers, contacts, errors *)

(** A node identifier is the B-bit number its hexadecimal string denotes. *)
Definition NodeID := N.

(** A JavaScript [Contact].  [oid] stands for the identity of the object, the
    only thing [===] observes on two objects; [lastSeen] is the time stamp
    that [contact.seen()] refreshes. *)
Record Contact := mkContact {
  oid : nat;
  nodeID : NodeID;
  address : string;
  lastSeen : Z
}.

(** [contact.seen()] stamps the contact with the current time. *)
Definition seen (now : Z) (c : Contact) : Contact :=
  {| oid := oid c; nodeID := nodeID c; address := address c; lastSeen := now |}.

Inductive error :=
| Error (msg : string)
| TypeError (msg : string)
| AssertionError (msg : string).

Definition BucketFull := Error "Bucket full".
Definition ContactAlreadyInBucket := Error "Contact already in bucket".
Definition ContactNotInBucket := Error "Contact not in bucket".
Definition BucketDoesNotExist := Error "Bucket does not exist yet".
Definition NotConnected := Error "Not connected to any peers".
Definition LookupFailed := Error "Lookup operation failed to return results".

(** What a callback-taking function does with its callback. *)
Inductive step (A : Type) :=
| Next (a : A)
| Fail (e : error)
| Throw (e : error).
Arguments Next {A} a.
Arguments Fail {A} e.
Arguments Throw {A} e.

(** An item as a FIND_VALUE response carries it. *)
Record Item := mkItem {
  item_key : string;
  item_value : string;
  publisher : NodeID;
  timestamp : Z
}.

(** The constants, the identifier arithmetic and the constructor the three
    files import.  [Item_new key value publisher timestamp] is
    [new Item(key, value, publisher, timestamp)]: the item it builds, or the
    exception it raises. *)
Record Lib := mkLib {
  K : nat;
  B : nat;
  ALPHA : nat;
  createID : string -> NodeID;
  getBucketIndex : NodeID -> NodeID -> nat;
  Item_new : string -> string -> NodeID -> Z -> step Item
}.

(** Modelled from the spec: [utils.getDistance], absent from the sources;
    "distance(a, b) is bitwise XOR". *)
Definition getDistance (a b : NodeID) : N := N.lxor a b.

(** Modelled from the spec: [utils.compareKeys], absent from the sources;
    "unsigned big-endian compare", with the results -1, 0 and 1 that the
    callers test for and hand to [Array.prototype.sort]. *)
Definition compareKeys (d1 d2 : N) : Z :=
  match N.compare d1 d2 with
  | Lt => (-1)%Z
  | Eq => 0%Z
  | Gt => 1%Z
  end.

(** ** The pieces of lodash and of [Array.prototype] the code uses *)

(** [_.includes(array, id)]. *)
Definition includes (l : list NodeID) (id : NodeID) : bool :=
  bool_decide (id ∈ l).

(** [_.indexOf(array, x)]: [None] stands for -1. *)
Fixpoint indexOf {A} `{EqDecision A} (l : list A) (x : A) : option nat :=
  match l with
  | [] => None
  | y :: l' => if decide (y = x) then Some 0 else S <$> indexOf l' x
  end.

(** [array.splice(i, 1)]. *)
Definition splice_out {A} (i : nat) (l : list A) : list A :=
  take i l ++ drop (S i) l.

(** [array.splice(i, 0, x)]. *)
Definition splice_in {A} (i : nat) (x : A) (l : list A) : list A :=
  take i l ++ x :: drop i l.

(** A JavaScript object used as a dictionary from node identifiers to
    contacts.  Enumeration follows insertion order, and assigning to a key
    that is present keeps its place. *)
Definition dict := list (NodeID * Contact).

Fixpoint dict_get (d : dict) (k : NodeID) : option Contact :=
  match d with
  | [] => None
  | (k', v) :: d' => if decide (k' = k) then Some v else dict_get d' k
  end.

Fixpoint dict_set (d : dict) (k : NodeID) (v : Contact) : dict :=
  match d with
  | [] => [(k, v)]
  | (k', v') :: d' =>
      if decide (k' = k) then (k, v) :: d' else (k', v') :: dict_set d' k v
  end.

(** [_.values(object)]. *)
Definition values (d : dict) : list Contact := snd <$> d.

(** The loop of lodash 3's [binaryIndexBy], which [_.sortedIndex(array,
    value, iteratee)] runs: the lowest position at which [value] keeps the
    computed keys ascending.  [computed mid] is [iteratee(array[mid])];
    [None] is an iteratee that raised. *)
Equations? binaryIndexBy (computed : nat -> option Z) (value : Z)
    (low high : nat) : option nat by wf (high - low) lt :=
  binaryIndexBy computed value low high with lt_dec low high := {
    | right _ => Some high
    | left _ with computed ((low + high) / 2) := {
        | None => None
        | Some c with Z_lt_dec c value := {
            | left _ =>
                binaryIndexBy computed value (S ((low + high) / 2)) high
            | right _ =>
                binaryIndexBy computed value low ((low + high) / 2) } } }.
Proof.
  - assert (low <= (low + high) / 2) by (apply Nat.div_le_lower_bound; lia).
    lia.
  - assert ((low + high) / 2 < high)
      by (apply Nat.Div0.div_lt_upper_bound; lia).
    lia.
Qed.

(** ** lib/bucket.js *)

(** The fields the constructor sets; [_storage] is a reference to the
    adapter, kept in the surrounding state.  [_cache] holds the entries of
    the cache under node identifiers.  [_cache_undefined] is its entry under
    the property name ["undefined"], which [loadContacts] makes of a record
    that is a text: the contact the text spells, [None] while the cache has
    no such entry. *)
Record Bucket := mkBucketWith {
  index : nat;
  contacts : list NodeID;
  _cache : dict;
  _cache_undefined : option Contact
}.

(** A bucket whose cache has entries under node identifiers only. *)
Definition mkBucket (i : nat) (l : list NodeID) (d : dict) : Bucket :=
  {| index := i; contacts := l; _cache := d; _cache_undefined := None |}.

(** [Bucket.prototype.getSize]. *)
Definition getSize (b : Bucket) : nat := length (contacts b).

(** [Bucket.prototype.getContactList]: the contacts among the values of the
    cache.  The text under ["undefined"], when there is one, is a value
    too; the one caller, [_getNearestFromBucket], looks for it. *)
Definition getContactList (b : Bucket) : list Contact := values (_cache b).

(** [Bucket.prototype.hasContact]. *)
Definition hasContact (b : Bucket) (id : NodeID) : bool :=
  includes (contacts b) id.

(** [Bucket.prototype.indexOf]. *)
Definition Bucket_indexOf (b : Bucket) (c : Contact) : option nat :=
  indexOf (contacts b) (nodeID c).

(** The iteratee of [addContact]: [self._cache[nodeID].lastSeen], which
    raises a TypeError when the cache has no entry for [nodeID]. *)
Definition lastSeen_of (cache : dict) (id : NodeID) : option Z :=
  lastSeen <$> dict_get cache id.

(** [_.sortedIndex(self.contacts, contact.nodeID, iteratee)]. *)
Definition sortedIndex (cache : dict) (l : list NodeID) (id : NodeID)
    : option nat :=
  match lastSeen_of cache id with
  | None => None
  | Some v =>
      binaryIndexBy (fun mid => l !! mid ≫= lastSeen_of cache) v 0 (length l)
  end.

(** [Bucket.prototype.addContact]: the callback's arguments and the bucket
    as the call leaves it. *)
Definition addContact (lib : Lib) (b : Bucket) (c : Contact)
    : step Contact * Bucket :=
  if decide (getSize b = K lib) then (Fail BucketFull, b)
  else
    let cache := dict_set (_cache b) (nodeID c) c in
    if negb (includes (contacts b) (nodeID c)) then
      match sortedIndex cache (contacts b) (nodeID c) with
      | Some idx =>
          (Next c,
           {| index := index b;
              contacts := splice_in idx (nodeID c) (contacts b);
              _cache := cache;
              _cache_undefined := _cache_undefined b |})
      | None =>
          (Throw (TypeError "Cannot read property 'lastSeen' of undefined"),
           {| index := index b; contacts := contacts b; _cache := cache;
              _cache_undefined := _cache_undefined b |})
      end
    else
      (Fail ContactAlreadyInBucket,
       {| index := index b; contacts := contacts b; _cache := cache;
          _cache_undefined := _cache_undefined b |}).

(** [Bucket.prototype.removeContact]: the invocations of the callback, in
    order, and the bucket as the call leaves it.  When the contact is found
    the callback is invoked a second time, with the error. *)
Definition Bucket_removeContact (b : Bucket) (c : Contact)
    : list (step Contact) * Bucket :=
  match indexOf (contacts b) (nodeID c) with
  | Some i =>
      ([Next c; Fail ContactNotInBucket],
       {| index := index b;
          contacts := splice_out i (contacts b);
          _cache := _cache b;
          _cache_undefined := _cache_undefined b |})
  | None => ([Fail ContactNotInBucket], b)
  end.

(** ** The storage adapter *)

(** What the adapter holds under a node identifier: the text of
    [JSON.stringify(contact)], which is what [RoutingTable.setContact]
    writes, or a contact object, as a caller of the adapter may put one. *)
Inductive stored :=
| Text (c : Contact)
| Object (c : Contact).

(** What the adapter does with a [get] of a key it holds nothing under: it
    calls back with an error, or it calls back without an error and with
    [null], as the adapter that [RoutingTable] takes by default does. *)
Inductive miss := MissError | MissNull.

(** The records the adapter holds, by key: ['ROUTING-TABLE'], one entry per
    node identifier, ['BUCKET-' + i] and ['BUCKETS'], and its answer to a
    missing key.  The text written under ['ROUTING-TABLE'] is kept as the
    data [JSON.parse] reads back from it. *)
Record Storage := mkStorage {
  routing_table_entry : option (gmap nat (list NodeID));
  contact_entries : gmap NodeID stored;
  bucket_entries : gmap nat (list NodeID);
  buckets_entry : option (list nat);
  on_miss : miss
}.

Definition NotFound := Error "not found".

(** [storage.get(key, cb)] for a key without a record: [cb(err)], or
    [cb(null, null)]. *)
Definition get_missing {A} (s : Storage) : step (option A) :=
  match on_miss s with
  | MissError => Fail NotFound
  | MissNull => Next None
  end.

(** [storage.get(nodeID, cb)]: the record, or the answer to a missing
    key. *)
Definition get_contact_entry (s : Storage) (id : NodeID)
    : step (option stored) :=
  match contact_entries s !! id with
  | Some v => Next (Some v)
  | None => get_missing s
  end.

(** [storage.put(contact.nodeID, JSON.stringify(contact), cb)]. *)
Definition put_contact_entry (s : Storage) (c : Contact) : Storage :=
  {| routing_table_entry := routing_table_entry s;
     contact_entries := <[nodeID c := Text c]> (contact_entries s);
     bucket_entries := bucket_entries s;
     buckets_entry := buckets_entry s;
     on_miss := on_miss s |}.

(** [storage.put('ROUTING-TABLE', text, cb)]. *)
Definition put_routing_table_entry (s : Storage)
    (m : gmap nat (list NodeID)) : Storage :=
  {| routing_table_entry := Some m;
     contact_entries := contact_entries s;
     bucket_entries := bucket_entries s;
     buckets_entry := buckets_entry s;
     on_miss := on_miss s |}.

(** [Bucket.prototype.save]: the order goes under ['BUCKET-' + index] and
    the index joins the list under ['BUCKETS']. *)
Definition Bucket_save (b : Bucket) (s : Storage) : Storage :=
  let results := default [] (buckets_entry s) in
  {| routing_table_entry := routing_table_entry s;
     contact_entries := contact_entries s;
     bucket_entries := <[index b := contacts b]> (bucket_entries s);
     buckets_entry :=
       Some (match indexOf results (index b) with
             | None => results ++ [index b]
             | Some _ => results
             end);
     on_miss := on_miss s |}.

(** [Bucket.prototype.load]. *)
Definition Bucket_load (b : Bucket) (s : Storage) : Bucket :=
  match bucket_entries s !! index b with
  | Some l =>
      {| index := index b; contacts := l; _cache := _cache b;
         _cache_undefined := _cache_undefined b |}
  | None => b
  end.

(** The cache while [loadContacts] fills it: the entries under node
    identifiers and the entry under ["undefined"]. *)
Definition loading := (dict * option Contact)%type.

(** The iteratee of [loadContacts] on what the adapter answers for one
    identifier: [self._cache[result.nodeID] = result] when there is a result.
    An object goes under the identifier it carries; a text has no [nodeID]
    and goes, as it is, under ["undefined"]. *)
Definition cache_result (cache : loading) (result : stored) : loading :=
  match result with
  | Object c => (dict_set cache.1 (nodeID c) c, cache.2)
  | Text c => (cache.1, Some c)
  end.

(** [async.each] over the order with that iteratee.  [if (err || !result)
    cb(err)]: an error of the adapter is the error [async.each] reports, the
    first one if there are several; an answer without error and without
    result passes as a success and caches nothing.  Every identifier is
    looked up, also after an error. *)
Fixpoint load_each (s : Storage) (ids : list NodeID) (cache : loading)
    : option error * loading :=
  match ids with
  | [] => (None, cache)
  | id :: ids' =>
      match get_contact_entry s id with
      | Next (Some result) => load_each s ids' (cache_result cache result)
      | Next None => load_each s ids' cache
      | Fail e | Throw e =>
          let '(_, cache') := load_each s ids' cache in (Some e, cache')
      end
  end.

(** [Bucket.prototype.loadContacts]: the cache is emptied and filled again;
    the callback receives the error of [async.each] and nothing else. *)
Definition loadContacts (b : Bucket) (s : Storage) : step unit * Bucket :=
  let '(err, cache) := load_each s (contacts b) ([], None) in
  (match err with Some e => Fail e | None => Next tt end,
   {| index := index b; contacts := contacts b; _cache := cache.1;
      _cache_undefined := cache.2 |}).

(** The objects handed to [new Bucket(index, storage)] as [storage], with
    the methods each one has: an adapter, or the routing table itself, whose
    prototype is written out in [lib/routing-table.js]. *)
Inductive storage_obj := AdapterObject | RoutingTableObject.

Definition methods (o : storage_obj) : list string :=
  match o with
  | AdapterObject => ["get"; "put"; "del"; "createReadStream"]
  | RoutingTableObject =>
      ["_load"; "save"; "getSize"; "getIndexes"; "empty"; "getBucket";
       "hasBucket"; "getContact"; "setContact"; "inTable";
       "_validStorageAdapter"]
  end.

Definition has_method (o : storage_obj) (m : string) : bool :=
  bool_decide (m ∈ methods o).

(** [Bucket.prototype._setStorageAdapter]: the failed assertion, if any. *)
Definition _setStorageAdapter (o : storage_obj) : option error :=
  if negb (has_method o "get") then
    Some (AssertionError "Store has no get method")
  else if negb (has_method o "put") then
    Some (AssertionError "Store has no put method")
  else if negb (has_method o "del") then
    Some (AssertionError "Store has no del method")
  else if negb (has_method o "createReadStream") then
    Some (AssertionError "Store has no createReadStream method")
  else None.

(** The constructor [Bucket(index, storage)].  [is_number] tells whether
    [index] is a JavaScript number (a property name read back from an object
    is a string). *)
Definition Bucket_new (lib : Lib) (is_number : bool) (i : nat)
    (o : storage_obj) : step Bucket :=
  if negb (is_number && bool_decide (i <= B lib)) then
    Throw (AssertionError "false == true")
  else
    match _setStorageAdapter o with
    | Some e => Throw e
    | None =>
        Next {| index := i; contacts := []; _cache := [];
                _cache_undefined := None |}
    end.

(** Properties read off a [Bucket] object; [JUndefined] for a name that
    neither the constructor nor the prototype defines. *)
Inductive jsval :=
| JUndefined
| JNumber (n : Z)
| JIds (l : list NodeID)
| JDict (d : dict)
| JObject
| JFunction.

Definition Bucket_prototype : list string :=
  ["getSize"; "getContactList"; "getContact"; "addContact"; "removeContact";
   "hasContact"; "indexOf"; "save"; "load"; "empty"; "loadContacts";
   "_setStorageAdapter"].

Definition Bucket_property (b : Bucket) (name : string) : jsval :=
  if decide (name = "index") then JNumber (Z.of_nat (index b))
  else if decide (name = "contacts") then JIds (contacts b)
  else if decide (name = "_cache") then JDict (_cache b)
  else if decide (name = "_storage") then JObject
  else if bool_decide (name ∈ Bucket_prototype) then JFunction
  else JUndefined.

(** [x === 0]. *)
Definition is_zero (v : jsval) : bool :=
  match v with
  | JNumber n => bool_decide (n = 0%Z)
  | _ => false
  end.

(** ** lib/routing-table.js *)

Inductive event :=
| EvAdd (c : Contact) (bucket_index : nat) (position : option nat)
| EvDrop (c : Contact)
| EvShift (c : Contact) (bucket_index : nat) (position : option nat).

(** The routing table with its adapter and the events the router has
    emitted.  [_buckets] is [None] while the property is undefined, that is
    until [_load] or [empty] assigns it.  The [Bucket] objects in the table
    were built over an object that passes the constructor's adapter check;
    the embedding takes it to be the table's adapter. *)
Record World := mkWorld {
  storage : Storage;
  _buckets : option (gmap nat Bucket);
  events : list event
}.

Definition set_storage (w : World) (s : Storage) : World :=
  {| storage := s; _buckets := _buckets w; events := events w |}.

Definition set_buckets (w : World) (m : option (gmap nat Bucket)) : World :=
  {| storage := storage w; _buckets := m; events := events w |}.

Definition emit (w : World) (e : event) : World :=
  {| storage := storage w; _buckets := _buckets w;
     events := events w ++ [e] |}.

(** [self._buckets[index] = bucket].  Assigning into the undefined
    [_buckets] raises. *)
Definition assign_bucket (m : option (gmap nat Bucket)) (i : nat)
    (b : Bucket) : step (gmap nat Bucket) :=
  match m with
  | Some m => Next (<[i := b]> m)
  | None => Throw (TypeError "Cannot set property of undefined")
  end.

(** The callback [_load] hands to [_.forEach]:
    [self._buckets[index] = new Bucket(index, self)], where [index] is a
    property name of the parsed object and [self] the routing table. *)
Definition load_entry (lib : Lib) (m : option (gmap nat Bucket)) (i : nat)
    : step (gmap nat Bucket) :=
  match Bucket_new lib false i RoutingTableObject with
  | Next b => assign_bucket m i b
  | Fail e | Throw e => Throw e
  end.

(** [_.forEach(result, callback)] in [_load]; an exception ends it. *)
Fixpoint load_entries (lib : Lib) (m : option (gmap nat Bucket))
    (idxs : list nat) : step (option (gmap nat Bucket)) :=
  match idxs with
  | [] => Next m
  | i :: idxs' =>
      match load_entry lib m i with
      | Next m' => load_entries lib (Some m') idxs'
      | Fail e | Throw e => Throw e
      end
  end.

(** [RoutingTable.prototype._load].  Every exception of the [try] block
    ends in [self._buckets = {}].  Without a ['ROUTING-TABLE'] record an
    adapter that reports the miss leaves [result] undefined, on which
    [JSON.parse] raises; an adapter that answers [null] has [JSON.parse]
    return [null], over which [_.forEach] does not iterate, and [_buckets]
    stays undefined. *)
Definition _load (lib : Lib) (w : World) : World :=
  match _buckets w with
  | Some _ => w
  | None =>
      match routing_table_entry (storage w) with
      | None =>
          match on_miss (storage w) with
          | MissError => set_buckets w (Some ∅)
          | MissNull => w
          end
      | Some result =>
          match load_entries lib None (map_to_list result).*1 with
          | Next m => set_buckets w m
          | Fail _ | Throw _ => set_buckets w (Some ∅)
          end
      end
  end.

(** [RoutingTable.prototype.save]. *)
Definition save (w : World) : World :=
  set_storage w
    (put_routing_table_entry (storage w)
       (contacts <$> default ∅ (_buckets w))).

(** [RoutingTable.prototype.getSize]. *)
Definition RoutingTable_getSize (lib : Lib) (w : World) : nat * World :=
  let w' := _load lib w in
  (map_fold (fun _ b n => n + getSize b) 0 (default ∅ (_buckets w')), w').

(** [RoutingTable.prototype.getIndexes]: [_.keys] lists integer keys in
    ascending order. *)
Definition getIndexes (lib : Lib) (w : World) : list nat * World :=
  let w' := _load lib w in
  (merge_sort le (elements (dom (default ∅ (_buckets w')))), w').

(** [RoutingTable.prototype.empty]. *)
Definition empty_table (w : World) : World :=
  save (set_buckets w (Some ∅)).

(** [_.has(self._buckets, index)]. *)
Definition has (m : option (gmap nat Bucket)) (i : nat) : bool :=
  match m with
  | Some m => bool_decide (is_Some (m !! i))
  | None => false
  end.

(** [RoutingTable.prototype.getBucket]: the bucket is returned by
    reference, which the embedding renders as its key in [_buckets]. *)
Definition getBucket (lib : Lib) (i : nat) (w : World) : step nat * World :=
  let w1 := _load lib w in
  if negb (has (_buckets w1) i) then
    match Bucket_new lib true i RoutingTableObject with
    | Next b =>
        match assign_bucket (_buckets w1) i b with
        | Next m => (Next i, save (set_buckets w1 (Some m)))
        | Fail e | Throw e => (Throw e, w1)
        end
    | Fail e | Throw e => (Throw e, w1)
    end
  else (Next i, w1).

(** [RoutingTable.prototype.hasBucket]. *)
Definition hasBucket (lib : Lib) (i : nat) (w : World) : step unit * World :=
  let w1 := _load lib w in
  match _buckets w1 ≫= (.!! i) with
  | None => (Fail BucketDoesNotExist, w1)
  | Some b =>
      if is_zero (Bucket_property b "length")
      then (Fail BucketDoesNotExist, w1)
      else (Next tt, w1)
  end.

(** [RoutingTable.prototype.setContact]. *)
Definition setContact (c : Contact) (w : World) : World :=
  set_storage w (put_contact_entry (storage w) c).

(** [RoutingTable.prototype.inTable]. *)
Definition inTable (lib : Lib) (c : Contact) (w : World)
    : step unit * World :=
  let w1 := _load lib w in
  if bool_decide
       (map_Exists (fun _ b => hasContact b (nodeID c) = true)
          (default ∅ (_buckets w1)))
  then (Next tt, w1)
  else (Fail (Error "Contact not found in routing table"), w1).

(** A routing table newly constructed over an adapter. *)
Definition RoutingTable_new (s : Storage) : World :=
  {| storage := s; _buckets := None; events := [] |}.

(** ** [async.waterfall]

    Each task is called with the results its predecessor passed to its
    callback, followed by the callback that continues the chain; the
    parameters of the task are bound by position.  A task that passes an
    error ends the chain, and the error is what the completion callback
    receives. *)

(** The values that travel along the chains of [lib/router.js]. *)
Inductive val :=
| VUndefined
| VContact (c : Contact)
| VBucket (ref : nat)
| VFunction.

Definition arg (i : nat) (args : list val): val :=
  default VUndefined (args !! i).

(** The invocations of a task's callback: the first one, and the error of a
    second one when the task calls back twice.  With async 1.x the second
    invocation reaches the completion callback at once, and the tasks that
    the first invocation set going still run. *)
Record calls := mkCalls {
  first : step (list val);
  again : option error
}.

Definition once (r : step (list val)) : calls :=
  {| first := r; again := None |}.

Definition task (S : Type) := list val -> S -> calls * S.

(** [f.bind(obj, pre...)] as a task: the bound arguments, then the results of
    the predecessor, then the continuation. *)
Definition bound {S} (f : list val -> S -> calls * S) (pre : list val)
    : task S :=
  fun args s => f (pre ++ args ++ [VFunction]) s.

Fixpoint waterfall {S} (tasks : list (task S)) (args : list val) (s : S)
    : step (list val) * S :=
  match tasks with
  | [] => (Next args, s)
  | t :: ts =>
      let '(c, s1) := t args s in
      match first c with
      | Next args' =>
          let '(r, s2) := waterfall ts args' s1 in
          (match again c with Some e => Fail e | None => r end, s2)
      | Fail e => (Fail e, s1)
      | Throw e => (Throw e, s1)
      end
  end.

Definition NotAFunction := TypeError "is not a function".
Definition UndefinedProperty := TypeError "Cannot read property of undefined".

(** ** lib/router.js: maintenance of the routing table *)

Record Router := mkRouter {
  _self : Contact;
  _validator : option (string -> string -> bool)
}.

Definition bucket_at (w : World) (ref : nat) : option Bucket :=
  _buckets w ≫= (.!! ref).

Definition set_bucket (w : World) (ref : nat) (b : Bucket) : World :=
  set_buckets w (<[ref := b]> <$> _buckets w).

(** [routingTable.setContact(contact, callback)] as a task. *)
Definition setContact_task (params : list val) (w : World)
    : calls * World :=
  match arg 0 params, arg 1 params with
  | VContact c, VFunction => (once (Next []), setContact c w)
  | VUndefined, _ => (once (Throw UndefinedProperty), w)
  | _, _ => (once (Throw NotAFunction), w)
  end.

(** [routingTable.getBucket(index, callback)] as a task. *)
Definition getBucket_task (lib : Lib) (i : nat) (params : list val)
    (w : World) : calls * World :=
  match arg 0 params with
  | VFunction =>
      let '(r, w1) := getBucket lib i w in
      (once match r with
            | Next ref => Next [VBucket ref]
            | Fail e => Fail e
            | Throw e => Throw e
            end, w1)
  | _ => (once (Throw NotAFunction), w)
  end.

(** [routingTable.hasBucket(index, callback)] as a task. *)
Definition hasBucket_task (lib : Lib) (i : nat) (params : list val)
    (w : World) : calls * World :=
  match arg 0 params with
  | VFunction =>
      let '(r, w1) := hasBucket lib i w in
      (once match r with
            | Next _ => Next []
            | Fail e => Fail e
            | Throw e => Throw e
            end, w1)
  | _ => (once (Throw NotAFunction), w)
  end.

(** [function (bucket, cb) { bucket.loadContacts(cb) }]. *)
Definition loadContacts_task (params : list val) (w : World)
    : calls * World :=
  match arg 0 params, arg 1 params with
  | VBucket ref, VFunction =>
      match bucket_at w ref with
      | Some b =>
          let '(r, b') := loadContacts b (storage w) in
          (once match r with
                | Next _ => Next []
                | Fail e => Fail e
                | Throw e => Throw e
                end, set_bucket w ref b')
      | None => (once (Throw UndefinedProperty), w)
      end
  | VBucket _, _ =>
      (once (Throw (AssertionError "No callback supplied")), w)
  | VUndefined, _ => (once (Throw UndefinedProperty), w)
  | _, _ => (once (Throw NotAFunction), w)
  end.

(** [bucket.removeContact(contact, callback)] as a task; [results] builds
    what the callback passes on from the removed contact. *)
Definition removeContact_task (ref : nat) (results : Contact -> list val)
    (params : list val) (w : World) : calls * World :=
  match arg 0 params, arg 1 params with
  | VContact c, VFunction =>
      match bucket_at w ref with
      | Some b =>
          let '(cs, b') := Bucket_removeContact b c in
          ({| first := match cs with
                       | Next c' :: _ => Next (results c')
                       | Fail e :: _ | Throw e :: _ => Fail e
                       | [] => Fail ContactNotInBucket
                       end;
              again := match cs with
                       | _ :: Fail e :: _ => Some e
                       | _ => None
                       end |}, set_bucket w ref b')
      | None => (once (Throw UndefinedProperty), w)
      end
  | VContact _, _ =>
      (once (Throw (AssertionError "No callback supplied")), w)
  | _, _ => (once (Throw (AssertionError "Invalid contact supplied")), w)
  end.

(** [bucket.addContact(contact, callback)] as a task. *)
Definition addContact_task (lib : Lib) (ref : nat) (params : list val)
    (w : World) : calls * World :=
  match arg 0 params, arg 1 params with
  | VContact c, VFunction =>
      match bucket_at w ref with
      | Some b =>
          let '(r, b') := addContact lib b c in
          (once match r with
                | Next c' => Next [VContact c']
                | Fail e => Fail e
                | Throw e => Throw e
                end, set_bucket w ref b')
      | None => (once (Throw UndefinedProperty), w)
      end
  | VContact _, _ =>
      (once (Throw (AssertionError "No callback supplied")), w)
  | _, _ => (once (Throw (AssertionError "Invalid contact supplied")), w)
  end.

(** [bucket.save(callback)] as a task. *)
Definition save_task (ref : nat) (params : list val) (w : World)
    : calls * World :=
  match arg 0 params with
  | VFunction =>
      match bucket_at w ref with
      | Some b => (once (Next []), set_storage w (Bucket_save b (storage w)))
      | None => (once (Throw UndefinedProperty), w)
      end
  | _ => (once (Throw (AssertionError "No callback supplied")), w)
  end.

(** [function (cb) { self.emit(...); return cb() }]. *)
Definition emit_task (e : World -> event) (params : list val) (w : World)
    : calls * World :=
  match arg 0 params with
  | VFunction => (once (Next []), emit w (e w))
  | _ => (once (Throw NotAFunction), emit w (e w))
  end.

Definition position_of (ref : nat) (c : Contact) (w : World) : option nat :=
  bucket_at w ref ≫= fun b => Bucket_indexOf b c.

Definition index_of_bucket (ref : nat) (w : World) : nat :=
  default ref (index <$> bucket_at w ref).

(** [Router.prototype.removeContact]. *)
Definition removeContact (lib : Lib) (r : Router) (c : Contact) (w : World)
    : step (list val) * World :=
  let i := getBucketIndex lib (nodeID (_self r)) (nodeID c) in
  if negb (bool_decide (i < B lib)) then
    (Throw (AssertionError "Bucket index may not exceed B"), w)
  else
    waterfall
      [ bound (getBucket_task lib i) [];
        bound (fun params w =>
                 match arg 0 params with
                 | VBucket ref =>
                     removeContact_task ref
                       (fun c' => [VBucket ref; VContact c'])
                       [VContact c; arg 1 params] w
                 | VUndefined => (once (Throw UndefinedProperty), w)
                 | _ => (once (Throw NotAFunction), w)
                 end) [];
        bound (fun params w =>
                 match arg 0 params with
                 | VBucket ref => save_task ref [arg 2 params] w
                 | VUndefined => (once (Throw UndefinedProperty), w)
                 | _ => (once (Throw NotAFunction), w)
                 end) [];
        bound (emit_task (fun _ => EvDrop c)) [] ]
      [] w.

(** [Router.prototype._moveContactToTail]. *)
Definition _moveContactToTail (lib : Lib) (c : Contact) (ref : nat)
    (w : World) : step (list val) * World :=
  waterfall
    [ bound (removeContact_task ref (fun c' => [VContact c'])) [VContact c];
      bound (addContact_task lib ref) [];
      bound setContact_task [];
      bound (save_task ref) [];
      bound (emit_task (fun w' =>
               EvShift c (index_of_bucket ref w') (position_of ref c w'))) [] ]
    [] w.

(** [Router.prototype._moveContactToHead]. *)
Definition _moveContactToHead (lib : Lib) (c : Contact) (ref : nat)
    (w : World) : step (list val) * World :=
  waterfall
    [ bound (addContact_task lib ref) [VContact c];
      bound setContact_task [];
      bound (save_task ref) [];
      bound (emit_task (fun w' =>
               EvAdd c (index_of_bucket ref w') (position_of ref c w'))) [] ]
    [] w.

(** [bucket.name(...)]: the TypeError of calling a property that is not a
    function. *)
Definition call_method (b : Bucket) (name : string) : option error :=
  match Bucket_property b name with
  | JFunction => None
  | _ => Some NotAFunction
  end.

(** [Router.prototype._pingContactAtHead].  Once the PING message is built
    the function calls [bucket.getContactSync(0)].  [Bucket] defines no such
    method, so the call raises, and the PING and the two chains that follow
    it in the source are never reached. *)
Definition _pingContactAtHead (c : Contact) (ref : nat) (w : World)
    : step (list val) * World :=
  match bucket_at w ref with
  | Some b =>
      match call_method b "getContactSync" with
      | Some e => (Throw e, w)
      | None => (Throw NotAFunction, w)
      end
  | None => (Throw UndefinedProperty, w)
  end.

(** The completion callback of the chain in [updateContact],
    [function (err, bucket) { ... }]. *)
Definition updateContact_completion (lib : Lib) (c : Contact)
    (bucket : val) (w : World) : step (list val) * World :=
  match bucket with
  | VBucket ref =>
      match bucket_at w ref with
      | Some b =>
          if hasContact b (nodeID c) then _moveContactToTail lib c ref w
          else if bool_decide (getSize b < K lib)
               then _moveContactToHead lib c ref w
               else _pingContactAtHead c ref w
      | None => (Throw UndefinedProperty, w)
      end
  | VUndefined =>
      (Throw (TypeError "Cannot read property 'hasContact' of undefined"), w)
  | VContact _ | VFunction => (Throw NotAFunction, w)
  end.

(** [Router.prototype.updateContact]: what becomes of the chain it starts.
    The call itself returns [seen now c]. *)
Definition updateContact (lib : Lib) (r : Router) (now : Z) (c : Contact)
    (w : World) : step (list val) * World :=
  let i := getBucketIndex lib (nodeID (_self r)) (nodeID c) in
  if negb (bool_decide (i < B lib)) then
    (Throw (AssertionError "Bucket index cannot exceed B"), w)
  else
    let c' := seen now c in
    let '(res, w1) :=
      waterfall
        [ bound setContact_task [VContact c'];
          bound (getBucket_task lib i) [];
          bound loadContacts_task [] ]
        [] w in
    match res with
    | Next args => updateContact_completion lib c' (arg 0 args) w1
    | Fail _ => updateContact_completion lib c' VUndefined w1
    | Throw e => (Throw e, w1)
    end.

(** [Array.prototype.sort] with the comparator of [_getNearestFromBucket]
    and of [_handleValueReturned]: ascending distance to [target]. *)
Definition closer (target : NodeID) (a b : Contact) : Prop :=
  (compareKeys (getDistance (nodeID a) target)
               (getDistance (nodeID b) target) <= 0)%Z.

Global Instance closer_dec target a b : Decision (closer target a b).
Proof. unfold closer. apply _. Defined.

Definition sort_by_distance (target : NodeID) (l : list Contact)
    : list Contact :=
  merge_sort (closer target) l.

Definition InvalidKey := AssertionError "Invalid key supplied".

(** [Router.prototype._getNearestFromBucket], on whatever value it is handed
    as [bucket].  A cache with an entry under ["undefined"] has a text among
    its values, and [addDistance] asks for the distance of its [nodeID],
    which is undefined.  Modelled from the spec: [utils.getDistance], absent
    from the sources, on a value that is no identifier; "Invalid argument
    (bad bucket index, wrong type for a parameter): fatal, surfaced to the
    caller". *)
Definition _getNearestFromBucket (w : World) (bucket : val) (key : NodeID)
    (limit : nat) : step (list Contact) :=
  match bucket with
  | VUndefined => Next []
  | VBucket ref =>
      match bucket_at w ref with
      | Some b =>
          match _cache_undefined b with
          | None =>
              Next (take limit (sort_by_distance key (getContactList b)))
          | Some _ => Throw InvalidKey
          end
      | None => Throw UndefinedProperty
      end
  | VContact _ | VFunction => Throw NotAFunction
  end.

(** [addToContacts] inside [getNearestContacts]. *)
Definition addToContacts (limit : nat) (exclude : option NodeID)
    (acc : list Contact) (c : Contact) : list Contact :=
  if bool_decide (length acc < limit)
     && bool_decide (Some (nodeID c) <> exclude)
  then acc ++ [c] else acc.

(** [addNearestFromBucket] inside [getNearestContacts]. *)
Definition addNearestFromBucket (lib : Lib) (key : string) (limit : nat)
    (exclude : option NodeID) (bucket : val) (s : World * list Contact)
    : step unit * (World * list Contact) :=
  let '(w, acc) := s in
  match _getNearestFromBucket w bucket (createID lib key)
          (limit - length acc) with
  | Next nearest =>
      (Next tt, (w, foldl (addToContacts limit exclude) acc nearest))
  | Fail e | Throw e => (Throw e, s)
  end.

(** A task on the routing table, run inside [getNearestContacts]. *)
Definition on_world (t : list val -> World -> calls * World)
    (params : list val) (s : World * list Contact)
    : calls * (World * list Contact) :=
  let '(c, w') := t params s.1 in (c, (w', s.2)).

(** [createBucket] inside [getNearestContacts]; its completion callback
    takes no notice of an error. *)
Definition createBucket (lib : Lib) (key : string) (limit : nat)
    (exclude : option NodeID) (i : nat) (s : World * list Contact)
    : step unit * (World * list Contact) :=
  let '(res, s') :=
    waterfall
      [ bound (on_world (hasBucket_task lib i)) [];
        bound (on_world (getBucket_task lib i)) [];
        bound (on_world loadContacts_task) [];
        bound (fun params s =>
                 let '(r, s1) :=
                   addNearestFromBucket lib key limit exclude
                     (arg 0 params) s in
                 match r, arg 1 params with
                 | Next _, VFunction => (once (Next []), s1)
                 | Next _, _ => (once (Throw NotAFunction), s1)
                 | Fail e, _ | Throw e, _ => (once (Throw e), s1)
                 end) [] ]
      [] s in
  match res with
  | Throw e => (Throw e, s')
  | Next _ | Fail _ => (Next tt, s')
  end.

(** The two [async.whilst] loops of [getNearestContacts], over the indexes
    each would visit: the loop ends when the pool is full. *)
Fixpoint visit (lib : Lib) (key : string) (limit : nat)
    (exclude : option NodeID) (idxs : list nat) (s : World * list Contact)
    : step unit * (World * list Contact) :=
  match idxs with
  | [] => (Next tt, s)
  | i :: idxs' =>
      if bool_decide (length s.2 < limit) then
        match createBucket lib key limit exclude i s with
        | (Next _, s') => visit lib key limit exclude idxs' s'
        | (Fail e, s') | (Throw e, s') => (Throw e, s')
        end
      else (Next tt, s)
  end.

(** [Router.prototype.getNearestContacts]. *)
Definition getNearestContacts (lib : Lib) (r : Router) (key : string)
    (limit : nat) (exclude : option NodeID) (w : World)
    : step (list Contact) * World :=
  let i := getBucketIndex lib (nodeID (_self r)) (createID lib key) in
  let ascending := seq (S i) (B lib - 1 - i) in
  let descending := reverse (seq 0 i) in
  match createBucket lib key limit exclude i (w, []) with
  | (Next _, s1) =>
      match visit lib key limit exclude ascending s1 with
      | (Next _, s2) =>
          match visit lib key limit exclude descending s2 with
          | (Next _, (w3, acc)) => (Next acc, w3)
          | (Fail e, (w3, _)) | (Throw e, (w3, _)) => (Throw e, w3)
          end
      | (Fail e, (w2, _)) | (Throw e, (w2, _)) => (Throw e, w2)
      end
  | (Fail e, (w1, _)) | (Throw e, (w1, _)) => (Throw e, w1)
  end.

(** ** lib/router.js: the iterative lookup *)

Inductive lookup_type := NODE | VALUE.

(** What a property of the lookup state may hold in place of a contact. *)
Inductive node_ref :=
| RNull
| RUndefined
| RObject (c : Contact).

(** [a === b]. *)
Definition strict_eq (a b : node_ref) : bool :=
  match a, b with
  | RNull, RNull => true
  | RUndefined, RUndefined => true
  | RObject x, RObject y => bool_decide (oid x = oid y)
  | _, _ => false
  end.

(** The state machine [_createLookupState] returns.  [contacted] holds the
    keys of the JavaScript object of that name, [closestNodeDistance] is
    [None] until [lookup] assigns it, and [value] is [None] for null. *)
Record LookupState := mkLookupState {
  type : lookup_type;
  key : string;
  hashedKey : NodeID;
  limit : nat;
  previousClosestNode : node_ref;
  contacted : gset NodeID;
  foundValue : bool;
  value : option string;
  item : option Item;
  contactsWithoutValue : list Contact;
  shortlist : list Contact;
  closestNode : node_ref;
  closestNodeDistance : option N
}.

Inductive message :=
| FIND (t : lookup_type) (k : string)
| STORE (i : Item)
| PING.

(** The answer to a FIND message: an error, or [response.result] with its
    optional [nodes] and [item]. *)
Inductive response :=
| RpcError (e : error)
| RpcResult (nodes : option (list Contact)) (it : option Item).

(** The transport and the clock, as the lookup meets them: the contact
    constructor [_createContact], the answer each contact gives in each
    batch, the order in which the answers of a batch arrive, and the time
    [contact.seen()] reads.  [_createContact_null] is [_createContact(null)],
    the call [RoutingTable.getContact] makes when the adapter answers a
    missing key with [null]: the contact it returns or the exception it
    raises. *)
Record Transport := mkTransport {
  _createContact : Contact -> Contact;
  answer : nat -> Contact -> message -> response;
  arrival : nat -> list Contact -> list Contact;
  now : Z;
  _createContact_null : step Contact
}.

(** The chains a lookup starts on the routing table without waiting for
    them. *)
Inductive table_op :=
| OpUpdateContact (c : Contact)
| OpRemoveContact (c : Contact).

(** A lookup in progress: its state, the messages handed to [rpc.send] and
    the routing-table chains started so far. *)
Record Run := mkRun {
  state : LookupState;
  sent : list (Contact * message);
  started : list table_op
}.

Definition with_state (r : Run) (s : LookupState) : Run :=
  {| state := s; sent := sent r; started := started r |}.

Definition send (r : Run) (c : Contact) (m : message) : Run :=
  {| state := state r; sent := sent r ++ [(c, m)]; started := started r |}.

Definition start (r : Run) (o : table_op) : Run :=
  {| state := state r; sent := sent r; started := started r ++ [o] |}.

Definition set_shortlist (s : LookupState) (l : list Contact) : LookupState :=
  {| type := type s; key := key s; hashedKey := hashedKey s;
     limit := limit s; previousClosestNode := previousClosestNode s;
     contacted := contacted s; foundValue := foundValue s; value := value s;
     item := item s; contactsWithoutValue := contactsWithoutValue s;
     shortlist := l; closestNode := closestNode s;
     closestNodeDistance := closestNodeDistance s |}.

(** [_.uniq(array, false, 'nodeID')]: the first contact of each identifier. *)
Fixpoint uniq_by_nodeID (seen_ids : list NodeID) (l : list Contact)
    : list Contact :=
  match l with
  | [] => []
  | c :: l' =>
      if bool_decide (nodeID c ∈ seen_ids) then uniq_by_nodeID seen_ids l'
      else c :: uniq_by_nodeID (nodeID c :: seen_ids) l'
  end.

(** [Router.prototype._addToShortList]; [None] is a [contacts] argument that
    is not an array. *)
Definition _addToShortList (s : LookupState) (cs : option (list Contact))
    : step LookupState :=
  match cs with
  | Some cs => Next (set_shortlist s (uniq_by_nodeID [] (shortlist s ++ cs)))
  | None => Throw (AssertionError "No contacts supplied")
  end.

(** [Router.prototype._removeFromShortList]. *)
Definition _removeFromShortList (s : LookupState) (id : NodeID)
    : LookupState :=
  set_shortlist s (filter (fun c => nodeID c <> id) (shortlist s)).

(** The part of [removeContact] and of [updateContact] that runs before
    their chains start: the assertion on the bucket index. *)
Definition index_assertion (lib : Lib) (r : Router) (c : Contact) : bool :=
  bool_decide (getBucketIndex lib (nodeID (_self r)) (nodeID c) < B lib).

(** [self.removeContact(contact)] as the lookup calls it, without a
    callback. *)
Definition call_removeContact (lib : Lib) (r : Router) (c : Contact)
    (run : Run) : step Run :=
  if index_assertion lib r c then Next (start run (OpRemoveContact c))
  else Throw (AssertionError "Bucket index may not exceed B").

(** [Router.prototype._validateKeyValuePair]. *)
Definition _validateKeyValuePair (r : Router) (k v : string) : bool :=
  match _validator r with
  | Some validate => validate k v
  | None => true
  end.

(** [Router.prototype._validateFindResult]; the result is what [done]
    receives.  The validator is taken to answer before the next answer of the
    batch is handled. *)
Definition _validateFindResult (lib : Lib) (r : Router) (run : Run)
    (it : Item) (c : Contact) : step unit * Run :=
  let s := state run in
  if negb (_validateKeyValuePair r (key s) (item_value it)) then
    let run1 := with_state run (_removeFromShortList s (nodeID c)) in
    match call_removeContact lib r c run1 with
    | Next run2 => (Next tt, run2)
    | Fail e | Throw e => (Throw e, run1)
    end
  else
    (Next tt,
     with_state run
       {| type := type s; key := key s; hashedKey := hashedKey s;
          limit := limit s; previousClosestNode := previousClosestNode s;
          contacted := contacted s; foundValue := true;
          value := Some (item_value it); item := Some it;
          contactsWithoutValue := contactsWithoutValue s;
          shortlist := shortlist s; closestNode := closestNode s;
          closestNodeDistance := closestNodeDistance s |}).

(** The first half of [_handleFindResult]: the responder is marked as
    contacted and, when it is nearer to the key than the closest node so far,
    takes its place.  [lookup] assigns [closestNodeDistance] before the first
    batch; without it no responder counts as nearer. *)
Definition note_responder (s : LookupState) (c : Contact) : LookupState :=
  let distance := getDistance (hashedKey s) (nodeID c) in
  let nearer :=
    match closestNodeDistance s with
    | Some d => bool_decide (compareKeys distance d = (-1)%Z)
    | None => false
    end in
  {| type := type s; key := key s; hashedKey := hashedKey s;
     limit := limit s;
     previousClosestNode :=
       if nearer then closestNode s else previousClosestNode s;
     contacted := {[nodeID c]} ∪ contacted s;
     foundValue := foundValue s; value := value s; item := item s;
     contactsWithoutValue := contactsWithoutValue s;
     shortlist := shortlist s;
     closestNode := if nearer then RObject c else closestNode s;
     closestNodeDistance :=
       if nearer then Some distance else closestNodeDistance s |}.

Definition push_without_value (s : LookupState) (c : Contact) : LookupState :=
  {| type := type s; key := key s; hashedKey := hashedKey s;
     limit := limit s; previousClosestNode := previousClosestNode s;
     contacted := contacted s; foundValue := foundValue s; value := value s;
     item := item s;
     contactsWithoutValue := contactsWithoutValue s ++ [c];
     shortlist := shortlist s; closestNode := closestNode s;
     closestNodeDistance := closestNodeDistance s |}.

(** [Router.prototype._handleFindResult].  [updateContact] returns the
    contact it has stamped, and its chain is left running. *)
Definition _handleFindResult (lib : Lib) (r : Router) (t : Transport)
    (run : Run) (nodes : option (list Contact)) (it : option Item)
    (c : Contact) : step unit * Run :=
  if negb (index_assertion lib r c) then
    (Throw (AssertionError "Bucket index cannot exceed B"), run)
  else
    let c := seen (now t) c in
    let run1 :=
      with_state (start run (OpUpdateContact c))
        (note_responder (state run) c) in
    match type (state run1), it with
    | VALUE, Some it => _validateFindResult lib r run1 it c
    | _, _ =>
        let s1 :=
          match type (state run1) with
          | NODE => state run1
          | VALUE => push_without_value (state run1) c
          end in
        match _addToShortList s1 nodes with
        | Next s2 => (Next tt, with_state run1 s2)
        | Fail e | Throw e => (Throw e, with_state run1 s1)
        end
    end.

(** The callback [_queryContact] hands to [rpc.send], run on the answer of
    [contact]. *)
Definition on_answer (lib : Lib) (r : Router) (t : Transport) (run : Run)
    (contact : Contact) (a : response) : step unit * Run :=
  match a with
  | RpcError e =>
      let run1 :=
        with_state run (_removeFromShortList (state run) (nodeID contact)) in
      match call_removeContact lib r contact run1 with
      | Next run2 => (Fail e, run2)
      | Fail e' | Throw e' => (Throw e', run1)
      end
  | RpcResult nodes it => _handleFindResult lib r t run nodes it contact
  end.

(** The message [_queryContact] builds. *)
Definition find_message (s : LookupState) : message := FIND (type s) (key s).

(** [Router.prototype._queryContact], from the moment the answer to its
    message arrives; the result is what its callback receives.  The sending
    itself is recorded by [dispatch] below. *)
Definition _queryContact (lib : Lib) (r : Router) (t : Transport)
    (batch : nat) (run : Run) (contactInfo : Contact) : step unit * Run :=
  let contact := _createContact t contactInfo in
  on_answer lib r t run contact
    (answer t batch contact (find_message (state run))).

(** How a lookup ends: [callback(null, type, result)], [callback(err)], an
    exception that escapes, or a bound on the number of batches reached. *)
Inductive result :=
| Contacts (l : list Contact)
| Value (v : option string).

Inductive outcome :=
| Resolved (t : lookup_type) (res : result)
| Rejected (e : error)
| Raised (e : error)
| OutOfFuel.

(** What [_handleQueryResults] does: end the lookup, or go on with another
    batch. *)
Inductive decision :=
| Finish (o : outcome)
| Recurse (next : list Contact).

(** [Router.prototype._handleValueReturned].  The item of the STORE message
    is the one [new Item(...)] builds from the fields of the latched item;
    when the constructor raises, nothing is sent and the callback is not
    reached.  The message is handed to [rpc.send] without a callback: nothing
    of what becomes of it reaches the lookup. *)
Definition _handleValueReturned (lib : Lib) (r : Router) (run : Run)
    : decision * Run :=
  let s := state run in
  let distances :=
    sort_by_distance (nodeID (_self r)) (contactsWithoutValue s) in
  match distances with
  | closestWithoutValue :: _ =>
      match item s with
      | Some it =>
          match Item_new lib (item_key it) (item_value it) (publisher it)
                  (timestamp it) with
          | Next it' =>
              (Finish (Resolved VALUE (Value (value s))),
               send run closestWithoutValue (STORE it'))
          | Fail e | Throw e => (Finish (Raised e), run)
          end
      | None => (Finish (Raised UndefinedProperty), run)
      end
  | [] => (Finish (Resolved VALUE (Value (value s))), run)
  end.

(** [Router.prototype._handleQueryResults]. *)
Definition _handleQueryResults (lib : Lib) (r : Router) (run : Run)
    : decision * Run :=
  let s := state run in
  if foundValue s then _handleValueReturned lib r run
  else
    let closestNodeUnchanged :=
      strict_eq (closestNode s) (previousClosestNode s) in
    let shortlistFull := bool_decide (K lib <= length (shortlist s)) in
    if closestNodeUnchanged || shortlistFull then
      (Finish (Resolved NODE (Contacts (shortlist s))), run)
    else
      let remainingContacts :=
        filter (fun c => nodeID c ∉ contacted s) (shortlist s) in
      if bool_decide (length remainingContacts = 0) then
        (Finish (Resolved NODE (Contacts (shortlist s))), run)
      else (Recurse (take (ALPHA lib) remainingContacts), run).

(** [queryContact] inside [_iterativeFind], over the answers of one batch
    in the order they arrive; the number is [failures], the count of queries
    whose callback received an error. *)
Fixpoint handle_answers (lib : Lib) (r : Router) (t : Transport)
    (batch : nat) (cs : list Contact) (failures : nat) (run : Run)
    : step nat * Run :=
  match cs with
  | [] => (Next failures, run)
  | contactInfo :: cs' =>
      match _queryContact lib r t batch run contactInfo with
      | (Next _, run') => handle_answers lib r t batch cs' failures run'
      | (Fail _, run') => handle_answers lib r t batch cs' (S failures) run'
      | (Throw e, run') => (Throw e, run')
      end
  end.

(** The messages [_queryContact] sends for a batch. *)
Definition dispatch (t : Transport) (cs : list Contact) (run : Run) : Run :=
  foldl (fun run c => send run (_createContact t c) (find_message (state run)))
    run cs.

(** [Router.prototype._iterativeFind].  [fuel] bounds the number of
    batches. *)
Fixpoint _iterativeFind (lib : Lib) (r : Router) (t : Transport)
    (fuel batch : nat) (run : Run) (cs : list Contact) : outcome * Run :=
  match fuel with
  | 0 => (OutOfFuel, run)
  | S fuel' =>
      match handle_answers lib r t batch (arrival t batch cs) 0
              (dispatch t cs run) with
      | (Throw e, run1) | (Fail e, run1) => (Raised e, run1)
      | (Next failures, run1) =>
          if bool_decide (failures = length cs) then
            (Rejected LookupFailed, run1)
          else
            match _handleQueryResults lib r run1 with
            | (Finish o, run2) => (o, run2)
            | (Recurse next, run2) =>
                _iterativeFind lib r t fuel' (S batch) run2 next
            end
      end
  end.

(** [Router.prototype._createLookupState], from the shortlist that
    [getNearestContacts] delivers. *)
Definition _createLookupState (lib : Lib) (ty : lookup_type) (k : string)
    (l : list Contact) : LookupState :=
  {| type := ty; key := k; hashedKey := createID lib k; limit := ALPHA lib;
     previousClosestNode := RNull; contacted := ∅; foundValue := false;
     value := None; item := None; contactsWithoutValue := [];
     shortlist := l;
     closestNode := match l with c :: _ => RObject c | [] => RUndefined end;
     closestNodeDistance := None |}.

Definition set_closestNodeDistance (s : LookupState) (d : N) : LookupState :=
  {| type := type s; key := key s; hashedKey := hashedKey s;
     limit := limit s; previousClosestNode := previousClosestNode s;
     contacted := contacted s; foundValue := foundValue s; value := value s;
     item := item s; contactsWithoutValue := contactsWithoutValue s;
     shortlist := shortlist s; closestNode := closestNode s;
     closestNodeDistance := Some d |}.

(** [Router.prototype.lookup]. *)
Definition lookup (lib : Lib) (r : Router) (t : Transport) (fuel : nat)
    (ty : lookup_type) (k : string) (w : World) : outcome * Run * World :=
  match getNearestContacts lib r k (ALPHA lib) (Some (nodeID (_self r))) w with
  | (Next l, w1) =>
      let s := _createLookupState lib ty k l in
      let run := {| state := s; sent := []; started := [] |} in
      match closestNode s with
      | RObject c =>
          let s1 :=
            set_closestNodeDistance s (getDistance (hashedKey s) (nodeID c)) in
          (_iterativeFind lib r t fuel 0 (with_state run s1) (shortlist s1),
           w1)
      | RNull | RUndefined => (Rejected NotConnected, run, w1)
      end
  | (Fail e, w1) | (Throw e, w1) =>
      (Raised e,
       {| state := _createLookupState lib ty k []; sent := []; started := [] |},
       w1)
  end.

(** ** A concrete node, used to run the code on explicit inputs *)

Module Kad.

(** Modelled from the spec: [utils.getBucketIndex], absent from the sources;
    "B − 1 − ⌊log2(distance(self_id, other_id))⌋", and 0 when both
    identifiers are equal. *)
Definition bucket_index (b : nat) (self other : NodeID) : nat :=
  if decide (self = other) then 0
  else b - 1 - N.to_nat (N.log2 (getDistance self other)).

Definition FutureTimestamp :=
  AssertionError "Timestamp cannot be in the future".

(** An [Item] constructor that reads the time 1000 off its clock: it
    refuses a time stamp later than that, and puts the time it reads in the
    place of a time stamp that is zero. *)
Definition new_item (k v : string) (p : NodeID) (ts : Z) : step Item :=
  if bool_decide (1000 < ts)%Z then Throw FutureTimestamp
  else Next (mkItem k v p (if bool_decide (ts = 0%Z) then 1000%Z else ts)).

(** The constants of Kademlia; [createID] stands in for the hash of the
    key. *)
Definition lib : Lib :=
  {| K := 20; B := 160; ALPHA := 3;
     createID := fun k => N.of_nat (String.length k);
     getBucketIndex := bucket_index 160;
     Item_new := new_item |}.

Definition self : Contact := mkContact 0 0%N "self" 0.

Definition router : Router := {| _self := self; _validator := None |}.

(** A router whose validator rejects every value. *)
Definition strict_router : Router :=
  {| _self := self; _validator := Some (fun _ _ => false) |}.

(** Peers; [peer n] has identifier [n]. *)
Definition peer (n : nat) : Contact :=
  mkContact n (N.of_nat n) "peer" 0.

(** An adapter that holds nothing and answers a missing key with [null]. *)
Definition no_records : Storage :=
  {| routing_table_entry := None; contact_entries := ∅;
     bucket_entries := ∅; buckets_entry := None; on_miss := MissNull |}.

(** A table without buckets. *)
Definition empty_world : World :=
  {| storage := no_records; _buckets := Some ∅; events := [] |}.

(** A table whose one bucket, at index 156, exists and is empty. *)
Definition world_with_empty_bucket : World :=
  {| storage := no_records;
     _buckets := Some {[ 156 := mkBucket 156 [] [] ]};
     events := [] |}.

(** A table that holds peer 9 in bucket 156, its record in the adapter. *)
Definition world_with_peer : World :=
  {| storage :=
       {| routing_table_entry := None;
          contact_entries := {[ 9%N := Text (peer 9) ]};
          bucket_entries := ∅; buckets_entry := None;
          on_miss := MissNull |};
     _buckets := Some {[ 156 := mkBucket 156 [9%N] [(9%N, peer 9)] ]};
     events := [] |}.

(** A table that holds peers 9 and 12 in bucket 156. *)
Definition world_with_two_peers : World :=
  {| storage :=
       {| routing_table_entry := None;
          contact_entries :=
            {[ 9%N := Text (peer 9); 12%N := Text (peer 12) ]};
          bucket_entries := ∅; buckets_entry := None;
          on_miss := MissNull |};
     _buckets :=
       Some {[ 156 := mkBucket 156 [9%N; 12%N]
                        [(9%N, peer 9); (12%N, peer 12)] ]};
     events := [] |}.

(** A key of twelve characters: it hashes to 12 here, in bucket 156 like
    peers 8 to 15. *)
Definition a_key : string := "kademlia-key".

Definition NullContact := TypeError "Cannot read property 'nodeID' of null".

(** A transport in which every query times out. *)
Definition dead_network : Transport :=
  {| _createContact := fun c => c;
     answer := fun _ _ _ => RpcError (Error "timeout");
     arrival := fun _ cs => cs;
     now := 1000;
     _createContact_null := Throw NullContact |}.

Definition an_item : Item := mkItem a_key "value" 9%N 0.

(** A transport in which every peer answers a query with an item. *)
Definition item_network : Transport :=
  {| _createContact := fun c => c;
     answer := fun _ _ _ => RpcResult (Some []) (Some an_item);
     arrival := fun _ cs => cs;
     now := 1000;
     _createContact_null := Throw NullContact |}.

(** A transport in which every peer answers a query with peers 2 to 21. *)
Definition crowded_network : Transport :=
  {| _createContact := fun c => c;
     answer := fun _ _ _ => RpcResult (Some (peer <$> seq 2 20)) None;
     arrival := fun _ cs => cs;
     now := 1000;
     _createContact_null := Throw NullContact |}.

(** A lookup under way with the given shortlist, as [lookup] sets it up. *)
Definition run_with (ty : lookup_type) (l : list Contact) : Run :=
  let s := _createLookupState lib ty a_key l in
  {| state :=
       match l with
       | c :: _ =>
           set_closestNodeDistance s (getDistance (hashedKey s) (nodeID c))
       | [] => s
       end;
     sent := []; started := [] |}.

(** A VALUE lookup that has latched [an_item] from peer 9 after peers 12 and
    10 answered without it. *)
Definition latched_run : Run :=
  {| state :=
       {| type := VALUE; key := a_key; hashedKey := createID lib a_key;
          limit := ALPHA lib; previousClosestNode := RNull;
          contacted := {[ 12%N; 10%N; 9%N ]}; foundValue := true;
          value := Some "value"; item := Some an_item;
          contactsWithoutValue := [peer 12; peer 10];
          shortlist := [peer 12; peer 10; peer 9];
          closestNode := RObject (peer 12);
          closestNodeDistance := Some 0%N |};
     sent := []; started := [] |}.

(** [an_item] with a time stamp that lies after the time 1000. *)
Definition late_item : Item := mkItem a_key "value" 9%N 2000.

(** The same lookup with [late_item] latched. *)
Definition late_run : Run :=
  {| state :=
       {| type := VALUE; key := a_key; hashedKey := createID lib a_key;
          limit := ALPHA lib; previousClosestNode := RNull;
          contacted := {[ 12%N; 10%N; 9%N ]}; foundValue := true;
          value := Some "value"; item := Some late_item;
          contactsWithoutValue := [peer 12; peer 10];
          shortlist := [peer 12; peer 10; peer 9];
          closestNode := RObject (peer 12);
          closestNodeDistance := Some 0%N |};
     sent := []; started := [] |}.

(** Twenty-one peers: one more than K. *)
Definition crowd : list Contact := peer <$> seq 1 21.

End Kad.

(** ** The remaining functions of the three files *)

(** Every identifier of the order has its contact in the cache, as after a
    [loadContacts] that met no miss. *)
Definition cached (cache : dict) (l : list NodeID) : Prop :=
  forall id, id ∈ l -> is_Some (dict_get cache id).

(** The order runs from the contact seen longest ago to the one seen last. *)
Definition oldest_first (cache : dict) (l : list NodeID) : Prop :=
  forall i j a b, i <= j ->
    l !! i ≫= lastSeen_of cache = Some a ->
    l !! j ≫= lastSeen_of cache = Some b -> (a <= b)%Z.

(** The contact object, and the contact whose text, the adapter holds under
    an identifier. *)
Definition object_at (s : Storage) (id : NodeID) : option Contact :=
  match contact_entries s !! id with
  | Some (Object c) => Some c
  | _ => None
  end.

Definition text_at (s : Storage) (id : NodeID) : option Contact :=
  match contact_entries s !! id with
  | Some (Text c) => Some c
  | _ => None
  end.

Definition InvalidContactIndex := Error "Invalid contact index".

(** [Bucket.prototype.getContact]: the callback receives what the adapter
    answers, as it is.  At [index = contacts.length] the test
    [contacts.length < index] lets the call through and the adapter is asked
    for the key [undefined], under which it holds no record. *)
Definition Bucket_getContact (lib : Lib) (b : Bucket) (i : nat) (s : Storage)
    : step (option stored) :=
  if negb (bool_decide (i <= B lib)) then
    Throw (AssertionError "Invalid index")
  else if bool_decide (length (contacts b) < i) then Fail InvalidContactIndex
  else
    match contacts b !! i with
    | Some id => get_contact_entry s id
    | None => get_missing s
    end.

(** [storage.del(nodeID, cb)]; deleting a key that is not there is no
    error. *)
Definition del_contact_entry (s : Storage) (id : NodeID) : Storage :=
  {| routing_table_entry := routing_table_entry s;
     contact_entries := delete id (contact_entries s);
     bucket_entries := bucket_entries s;
     buckets_entry := buckets_entry s;
     on_miss := on_miss s |}.

(** [storage.del('BUCKET-' + index, cb)]. *)
Definition del_bucket_entry (s : Storage) (i : nat) : Storage :=
  {| routing_table_entry := routing_table_entry s;
     contact_entries := contact_entries s;
     bucket_entries := delete i (bucket_entries s);
     buckets_entry := buckets_entry s;
     on_miss := on_miss s |}.

(** [Bucket.prototype.empty]: the bucket as [load] leaves it and the adapter
    once the records are deleted. *)
Definition Bucket_empty (b : Bucket) (s : Storage) : Bucket * Storage :=
  let b1 := Bucket_load b s in
  (b1, del_bucket_entry (foldl del_contact_entry s (contacts b1)) (index b1)).

Definition NotJSON := Error "SyntaxError: Unexpected token o in JSON".

(** [RoutingTable.prototype.getContact].  An error of the adapter goes to
    the callback.  Otherwise the transport builds the contact from what
    [JSON.parse] makes of the result, inside a [try] whose [catch] hands the
    exception to the callback: a text parses to the fields of its contact,
    [null] parses to [null], and an object is no JSON text. *)
Definition getContact (t : Transport) (id : NodeID) (w : World)
    : step Contact :=
  match get_contact_entry (storage w) id with
  | Next (Some (Text c)) => Next (_createContact t c)
  | Next (Some (Object _)) => Fail NotJSON
  | Next None =>
      match _createContact_null t with
      | Next c => Next c
      | Fail e | Throw e => Fail e
      end
  | Fail e => Fail e
  | Throw e => Throw e
  end.

(** [Router.prototype.getSize]. *)
Definition Router_getSize (lib : Lib) (w : World) : nat * World :=
  RoutingTable_getSize lib w.

(** [Router.prototype.empty]. *)
Definition Router_empty (w : World) : World := empty_table w.

(** [Router.prototype.isConnected]. *)
Definition isConnected (lib : Lib) (c : Contact) (w : World)
    : step unit * World :=
  match inTable lib c w with
  | (Fail _, w1) => (Next tt, w1)
  | (Next _, w1) => (Fail (Error "Contact already in routing table"), w1)
  | (Throw e, w1) => (Throw e, w1)
  end.

(** [Router.prototype.findValue]: the arguments of its callback, or [None]
    when the bound on the number of batches was reached. *)
Definition findValue (lib : Lib) (r : Router) (t : Transport) (fuel : nat)
    (k : string) (w : World) : option (step result) * Run * World :=
  let '(o, run, w1) := lookup lib r t fuel VALUE k w in
  (match o with
   | Resolved VALUE res => Some (Next res)
   | Resolved NODE _ | Rejected _ =>
       Some (Fail (Error ("Failed to find value for key: " +:+ k)))
   | Raised e => Some (Throw e)
   | OutOfFuel => None
   end, run, w1).

(** [Router.prototype.findNode]; before it calls back it logs
    [contacts.length], which raises on null. *)
Definition findNode (lib : Lib) (r : Router) (t : Transport) (fuel : nat)
    (k : string) (w : World) : option (step result) * Run * World :=
  let '(o, run, w1) := lookup lib r t fuel NODE k w in
  (match o with
   | Resolved _ (Value None) =>
       Some (Throw (TypeError "Cannot read property 'length' of null"))
   | Resolved _ res => Some (Next res)
   | Rejected e => Some (Fail e)
   | Raised e => Some (Throw e)
   | OutOfFuel => None
   end, run, w1).

(** [_.find(shortlist, ...)] inside [getContactByNodeID]. *)
Definition find_by_nodeID (id : NodeID) (l : list Contact) : option Contact :=
  list_find (fun c => nodeID c = id) l ≫= fun p => Some p.2.

(** [Router.prototype.getContactByNodeID].  [hex id] is the identifier as
    the string the caller passes, which the fallback lookup takes as its
    key; the messages the call sends are returned with the answer. *)
Definition getContactByNodeID (lib : Lib) (r : Router) (t : Transport)
    (fuel : nat) (hex : NodeID -> string) (id : NodeID) (w : World)
    : option (step Contact) * list (Contact * message) * World :=
  match getContact t id w with
  | Next c => (Some (Next c), [], w)
  | Throw e => (Some (Throw e), [], w)
  | Fail _ =>
      let '(o, run, w1) := lookup lib r t fuel NODE (hex id) w in
      (match o with
       | Resolved _ (Contacts l) =>
           match find_by_nodeID id l with
           | Some c => Some (Next c)
           | None => Some (Fail (Error "Contact not found"))
           end
       | Resolved _ (Value _) => Some (Fail (Error "Contact not found"))
       | Rejected e => Some (Fail e)
       | Raised e => Some (Throw e)
       | OutOfFuel => None
       end, sent run, w1)
  end.

(** ** Measures on a lookup in progress *)

(** The closest node of the state and the distance recorded for it agree. *)
Definition closest_consistent (s : LookupState) : Prop :=
  exists c,
    closestNode s = RObject c /\
    closestNodeDistance s = Some (getDistance (hashedKey s) (nodeID c)).

(** What the answers of a lookup may change in its state: the target stays,
    the set of contacted nodes grows, a value that was found stays found, the
    recorded distance of the closest node does not grow, and a NODE lookup
    leaves alone what belongs to the search for a value. *)
Definition lookup_progress (s s' : LookupState) : Prop :=
  type s' = type s /\ key s' = key s /\ hashedKey s' = hashedKey s /\
  contacted s ⊆ contacted s' /\
  (foundValue s = true -> foundValue s' = true) /\
  (closest_consistent s -> closest_consistent s') /\
  (forall d, closestNodeDistance s = Some d ->
     exists d', closestNodeDistance s' = Some d' /\ (d' <= d)%N) /\
  (type s = NODE ->
     foundValue s' = foundValue s /\ item s' = item s /\
     value s' = value s /\
     contactsWithoutValue s' = contactsWithoutValue s).

(** The shortlist entries that have answered, and those still to query. *)
Definition answered (s : LookupState) : list Contact :=
  filter (fun c => nodeID c ∈ contacted s) (shortlist s).

Definition pending (s : LookupState) : list Contact :=
  filter (fun c => nodeID c ∉ contacted s) (shortlist s).

(** A batch of the state: contacts of distinct node identifiers, each of
    them an identifier of the shortlist that has not been contacted. *)
Definition batch_of (s : LookupState) (cs : list Contact) : Prop :=
  NoDup (nodeID <$> cs) /\
  Forall (fun c => nodeID c ∈ nodeID <$> pending s) cs.

(** A bound on the number of batches a lookup still runs. *)
Definition batches_left (lib : Lib) (s : LookupState) : nat :=
  (K lib - length (answered s)) * S (K lib) + length (pending s).

(** What handling the answer of the contact [id] leaves of the measure: the
    shortlist still holds no identifier twice, the other pending identifiers
    are still pending, no answered entry is lost, and either a value was
    found, or an answered entry was gained, or a pending entry is gone. *)
Definition answer_counted (id : NodeID) (s s' : LookupState) : Prop :=
  NoDup (nodeID <$> shortlist s') /\
  (forall id', id' <> id -> id' ∈ nodeID <$> pending s ->
     id' ∈ nodeID <$> pending s') /\
  length (answered s) <= length (answered s') /\
  (foundValue s' = true \/
   length (answered s) < length (answered s') \/
   S (length (pending s')) = length (pending s)).

(** ** Further concrete inputs *)

Module Sample.

(** Peers 9 and 12 as they were seen at the times 10 and 20. *)
Definition early : Contact := seen 10 (Kad.peer 9).

Definition recent : Contact := seen 20 (Kad.peer 12).

(** Bucket 156 with the two of them, from the one seen longest ago. *)
Definition bucket : Bucket :=
  mkBucket 156 [9%N; 12%N] [(9%N, early); (12%N, recent)].

(** Peer 10 seen between the two, and seen after both. *)
Definition between : Contact := seen 15 (Kad.peer 10).

Definition latest : Contact := seen 30 (Kad.peer 10).

(** An adapter with the records of both as [setContact] writes them; it
    answers a missing key with [null]. *)
Definition records : Storage :=
  {| routing_table_entry := None;
     contact_entries := {[ 9%N := Text early; 12%N := Text recent ]};
     bucket_entries := ∅; buckets_entry := None; on_miss := MissNull |}.

(** An adapter in which a caller has put peer 9 as an object, peer 12 is a
    text and bucket 156 lists a third identifier, 10, without a record; it
    reports a missing key as an error. *)
Definition mixed_records : Storage :=
  {| routing_table_entry := None;
     contact_entries := {[ 9%N := Object early; 12%N := Text recent ]};
     bucket_entries := ∅; buckets_entry := None; on_miss := MissError |}.

(** A table whose bucket 156 is [bucket], the records in the adapter. *)
Definition world : World :=
  {| storage := records; _buckets := Some {[ 156 := bucket ]};
     events := [] |}.

(** Peer 9 heard of again, after both. *)
Definition early_again : Contact := seen 30 (Kad.peer 9).

(** A NODE lookup about to query peers 9 and 12. *)
Definition run : Run := Kad.run_with NODE [Kad.peer 9; Kad.peer 12].

End Sample.

(** * Properties *)

(** ** Dictionaries and lists *)

Lemma dict_get_set_eq (d : dict) (k : NodeID) (v : Contact) :
  dict_get (dict_set d k v) k = Some v.
Proof.
  induction d as [|[k' v'] d IH]; simpl.
  - by rewrite decide_True.
  - destruct (decide (k' = k)) as [->|Hne]; simpl.
    + by rewrite decide_True.
    + by rewrite decide_False.
Qed.

Lemma dict_get_set_ne (d : dict) (k k' : NodeID) (v : Contact) :
  k' <> k -> dict_get (dict_set d k v) k' = dict_get d k'.
Proof.
  intros Hne. induction d as [|[k0 v0] d IH]; simpl.
  - by rewrite decide_False.
  - destruct (decide (k0 = k)) as [->|Hk]; simpl.
    + by rewrite !decide_False.
    + destruct (decide (k0 = k')); auto.
Qed.

Lemma indexOf_None {A} `{EqDecision A} (l : list A) (x : A) :
  indexOf l x = None <-> x ∉ l.
Proof.
  induction l as [|y l IH]; simpl.
  - split; [intros _; apply not_elem_of_nil | done].
  - rewrite not_elem_of_cons. destruct (decide (y = x)) as [->|Hne].
    + split; [done | intros [? _]; done].
    + rewrite fmap_None, IH. split; [by intros ? | by intros [_ ?]].
Qed.

Lemma indexOf_Some {A} `{EqDecision A} (l : list A) (x : A) (i : nat) :
  indexOf l x = Some i -> l !! i = Some x.
Proof.
  revert i. induction l as [|y l IH]; intros i; simpl; [done |].
  destruct (decide (y = x)) as [->|Hne].
  - by intros [= <-].
  - destruct (indexOf l x) eqn:E; simpl; [|done].
    intros [= <-]. simpl. by apply IH.
Qed.

(** ** lib/bucket.js *)

(** C10.  A bucket whose order holds exactly K identifiers refuses every
    contact with the Full error, a duplicate included, and keeps its order and
    its cache; on a bucket that is not full a duplicate is refused with the
    Duplicate error, the order is kept, and the cache entry of the contact's
    identifier is overwritten with the contact. *)
Theorem addContact_full_and_duplicate (lib : Lib) (b : Bucket) (c : Contact) :
  (length (contacts b) = K lib ->
     addContact lib b c = (Fail BucketFull, b)) /\
  (length (contacts b) <> K lib -> nodeID c ∈ contacts b ->
     exists b',
       addContact lib b c = (Fail ContactAlreadyInBucket, b') /\
       contacts b' = contacts b /\ index b' = index b /\
       dict_get (_cache b') (nodeID c) = Some c /\
       forall id, id <> nodeID c ->
         dict_get (_cache b') id = dict_get (_cache b) id).
Proof.
  unfold addContact, getSize, includes. split.
  - intros Hfull. by rewrite decide_True.
  - intros Hroom Hdup. rewrite decide_False by done.
    rewrite bool_decide_eq_true_2 by done. simpl.
    eexists. split; [reflexivity |]. simpl.
    repeat split; auto using dict_get_set_eq, dict_get_set_ne.
Qed.

(** The theorem at work: with K = 20, a bucket of twenty refuses one of its
    own contacts as full, and a bucket of one refuses it as a duplicate while
    taking its new address into the cache. *)
Lemma addContact_full_and_duplicate_witness :
  addContact Kad.lib (mkBucket 156 (N.of_nat <$> seq 1 20) []) (Kad.peer 9)
    = (Fail BucketFull, mkBucket 156 (N.of_nat <$> seq 1 20) []) /\
  exists b',
    addContact Kad.lib (mkBucket 156 [9%N] [(9%N, Kad.peer 9)])
        (mkContact 7 9%N "moved" 5)
      = (Fail ContactAlreadyInBucket, b') /\
    dict_get (_cache b') 9%N = Some (mkContact 7 9%N "moved" 5).
Proof.
  split.
  - apply (addContact_full_and_duplicate Kad.lib
             (mkBucket 156 (N.of_nat <$> seq 1 20) []) (Kad.peer 9)).
    reflexivity.
  - destruct (addContact_full_and_duplicate Kad.lib
                (mkBucket 156 [9%N] [(9%N, Kad.peer 9)])
                (mkContact 7 9%N "moved" 5)) as [_ H].
    destruct H as (b' & Hadd & _ & _ & Hget & _).
    + simpl. discriminate.
    + simpl. apply list_elem_of_here.
    + exists b'. split; [exact Hadd | exact Hget].
Defined.

(** ** lib/routing-table.js *)

Lemma _load_loaded (lib : Lib) (w : World) (m : gmap nat Bucket) :
  _buckets w = Some m -> _load lib w = w.
Proof. intros H. unfold _load. by rewrite H. Qed.

(** No [Bucket] object has a [length]: the property reads as undefined. *)
Lemma Bucket_length_undefined (b : Bucket) :
  Bucket_property b "length" = JUndefined.
Proof. reflexivity. Qed.

(** C9.  As the code runs, [hasBucket] succeeds exactly when the table holds a
    bucket at the index, whatever the size of its contact list: the test
    [self._buckets[index].length === 0] reads a property that [Bucket] objects
    do not have, and never holds.  The emptiness the claim asks for is not
    looked at. *)
Theorem hasBucket_iff_bucket_exists (lib : Lib) (i : nat) (w : World) :
  (hasBucket lib i w).1 = Next tt <-> is_Some (bucket_at (_load lib w) i).
Proof.
  unfold hasBucket, bucket_at.
  destruct (_buckets (_load lib w) ≫= (.!! i)) as [b|] eqn:E.
  - rewrite Bucket_length_undefined. simpl. split; eauto.
  - simpl. split; [done | by intros [? ?]].
Qed.

(** C9 at a failing input: bucket 156 exists and its contact list has size
    zero, and [hasBucket] reports success. *)
Lemma hasBucket_empty_bucket_succeeds :
  getSize (mkBucket 156 [] []) = 0 /\
  hasBucket Kad.lib 156 Kad.world_with_empty_bucket
    = (Next tt, Kad.world_with_empty_bucket).
Proof. split; reflexivity. Qed.

Lemma load_entries_raise (lib : Lib) (m : option (gmap nat Bucket))
    (idxs : list nat) :
  idxs <> [] -> exists e, load_entries lib m idxs = Throw e.
Proof.
  destruct idxs as [|i idxs]; [done | intros _]. simpl.
  unfold load_entry, Bucket_new. simpl. eauto.
Qed.

(** C2.  As the code runs, a routing table is not read back after [save]:
    whatever buckets it held, a table constructed over the same adapter and
    loaded from it has no bucket at all.  [_load] assigns into
    [self._buckets] before that property exists, and its [catch] clause
    answers the exception with an empty table; the identifiers saved with
    each index are not read either. *)
Theorem save_then_load_loses_buckets (lib : Lib) (w : World) :
  default ∅ (_buckets (_load lib (RoutingTable_new (storage (save w)))))
    = ∅ /\
  (getIndexes lib (RoutingTable_new (storage (save w)))).1 = [].
Proof.
  assert (default ∅ (_buckets (_load lib (RoutingTable_new
                                            (storage (save w))))) = ∅)
    as Hnone.
  { unfold _load, save. simpl.
    destruct (decide (contacts <$> default ∅ (_buckets w) = ∅))
      as [-> | Hne].
    - by rewrite map_to_list_empty.
    - destruct (load_entries_raise lib None
                  (map_to_list (contacts <$> default ∅ (_buckets w))).*1)
        as [e He].
      + intros Hnil. by apply fmap_nil_inv, map_to_list_empty_iff in Hnil.
      + by rewrite He. }
  split; [exact Hnone |].
  unfold getIndexes. cbn [fst]. rewrite Hnone. by rewrite dom_empty_L.
Qed.

(** C2 at a failing input: the table that holds peer 9 in bucket 156 lists
    index 156 before [save] and no index once reloaded. *)
Lemma save_then_load_loses_bucket_156 :
  (getIndexes Kad.lib Kad.world_with_peer).1 = [156] /\
  routing_table_entry (storage (save Kad.world_with_peer))
    = Some {[ 156 := [9%N] ]} /\
  (getIndexes Kad.lib
     (RoutingTable_new (storage (save Kad.world_with_peer)))).1 = [].
Proof. split; [|split]; by vm_compute. Qed.

(** ** lib/router.js: maintenance of the routing table *)

(** What reaches the completion callback of [updateContact] in place of the
    bucket: [loadContacts] calls back with an error or with nothing. *)
Lemma loadContacts_task_passes_nothing (params : list val) (w w' : World)
    (c : calls) (args : list val) :
  loadContacts_task params w = (c, w') -> first c = Next args -> args = [].
Proof.
  unfold loadContacts_task. intros H Hc.
  destruct (arg 0 params), (arg 1 params); simpl in *; simplify_eq;
    simpl in *; try done.
  destruct (bucket_at w _); simplify_eq; simpl in *; try done.
  destruct (loadContacts _ _) as [[?|?|?] ?]; simplify_eq; simpl in *;
    by simplify_eq.
Qed.

(** The full bucket: [_pingContactAtHead] raises before it pings. *)
Lemma _pingContactAtHead_raises (c : Contact) (ref : nat) (w : World) :
  exists e, _pingContactAtHead c ref w = (Throw e, w).
Proof.
  unfold _pingContactAtHead.
  destruct (bucket_at w ref); [destruct (call_method _ _) |]; eauto.
Qed.

(** C1.  As the code runs, [updateContact] never completes: whatever the
    contact and the table, the chain it starts ends in an exception and its
    callback is never called.  The last task of the chain,
    [bucket.loadContacts(cb)], passes no bucket on, so the completion callback
    reads [hasContact] off an undefined [bucket]; the contact is neither put
    at the tail of its bucket nor anywhere else in it. *)
Theorem updateContact_never_completes (lib : Lib) (r : Router) (now : Z)
    (c : Contact) (w : World) :
  exists e w', updateContact lib r now c w = (Throw e, w').
Proof.
  unfold updateContact.
  destruct (negb _); [eauto |].
  unfold waterfall, bound, setContact_task, getBucket_task. simpl.
  destruct (getBucket lib _ _) as [[ref|e|e] w1]; simpl; eauto.
  destruct (loadContacts_task _ _) as [cl w2] eqn:Hload.
  destruct (first cl) as [args|e|e] eqn:Hfirst; simpl; eauto.
  assert (args = []) as ->.
  { eapply loadContacts_task_passes_nothing; eauto. }
  destruct (again cl); simpl; eauto.
Qed.

(** C1 at a failing input: bucket 156 holds peer 9 and has room; peer 12,
    which belongs to the same bucket, is seen for the first time.  The chain
    raises, and the bucket still holds peer 9 alone. *)
Lemma updateContact_raises_on_new_peer :
  getBucketIndex Kad.lib (nodeID Kad.self) (nodeID (Kad.peer 12)) = 156 /\
  exists w',
    updateContact Kad.lib Kad.router 0 (Kad.peer 12) Kad.world_with_peer
      = (Throw (TypeError "Cannot read property 'hasContact' of undefined"),
         w') /\
    (contacts <$> bucket_at w' 156) = Some [9%N] /\ events w' = [].
Proof.
  split; [by vm_compute |].
  eexists. split; [vm_compute; reflexivity |]. split; reflexivity.
Qed.

(** Were the bucket to reach the completion callback, the tail would still
    not be certain: [addContact] places a contact before every contact of the
    bucket that was seen at the same time or later.  Peer 12, seen at the
    time peer 9 was, goes to position 0 of a bucket that has room. *)
Lemma moveContactToHead_tie_goes_first :
  exists w',
    _moveContactToHead Kad.lib (seen 0 (Kad.peer 12)) 156 Kad.world_with_peer
      = (Next [], w') /\
    (contacts <$> bucket_at w' 156) = Some [12%N; 9%N] /\
    events w' = [EvAdd (seen 0 (Kad.peer 12)) 156 (Some 0)].
Proof. eexists. split; [vm_compute; reflexivity |]. split; reflexivity. Qed.

(** [createBucket] adds no contact to the pool: its last task is handed the
    continuation as [loadedBucket], and [_getNearestFromBucket] raises on
    it. *)
Lemma createBucket_adds_nothing (lib : Lib) (key : string) (limit : nat)
    (exclude : option NodeID) (i : nat) (w : World) (acc : list Contact) :
  (exists w', createBucket lib key limit exclude i (w, acc)
                = (Next tt, (w', acc))) \/
  (exists e s', createBucket lib key limit exclude i (w, acc) = (Throw e, s')).
Proof.
  unfold createBucket, waterfall, bound, on_world, hasBucket_task,
    getBucket_task. simpl.
  destruct (hasBucket lib i w) as [[?|e|e] w1]; simpl; eauto.
  destruct (getBucket lib i w1) as [[ref|e|e] w2]; simpl; eauto.
  destruct (loadContacts_task _ w2) as [cl w3] eqn:Hload. simpl.
  destruct (first cl) as [args|e|e] eqn:Hfirst; simpl; eauto.
  assert (args = []) as ->.
  { eapply loadContacts_task_passes_nothing; eauto. }
  destruct (again cl); simpl; eauto.
Qed.

Lemma visit_adds_nothing (lib : Lib) (key : string) (limit : nat)
    (exclude : option NodeID) (idxs : list nat) (w : World)
    (acc : list Contact) :
  (exists w', visit lib key limit exclude idxs (w, acc)
                = (Next tt, (w', acc))) \/
  (exists e s', visit lib key limit exclude idxs (w, acc) = (Throw e, s')).
Proof.
  revert w. induction idxs as [|i idxs IH]; intros w; simpl; [eauto |].
  destruct (bool_decide _); [|eauto].
  destruct (createBucket_adds_nothing lib key limit exclude i w acc)
    as [[w' ->]|(e & s' & ->)]; eauto.
Qed.

(** C4.  As the code runs, [getNearestContacts] returns no contact at all:
    either it answers with the empty list, or an exception escapes it.  The
    second happens as soon as a bucket on its way exists and loads, since the
    task that should sort and collect the bucket's contacts is handed the
    continuation of the chain in place of the bucket. *)
Theorem getNearestContacts_returns_no_contact (lib : Lib) (r : Router)
    (key : string) (limit : nat) (exclude : option NodeID) (w : World) :
  (exists w', getNearestContacts lib r key limit exclude w = (Next [], w')) \/
  (exists e w', getNearestContacts lib r key limit exclude w = (Throw e, w')).
Proof.
  unfold getNearestContacts.
  destruct (createBucket_adds_nothing lib key limit exclude
              (getBucketIndex lib (nodeID (_self r)) (createID lib key)) w [])
    as [[w1 ->]|(e & [w1 a1] & ->)]; [|eauto].
  destruct (visit_adds_nothing lib key limit exclude
              (seq (S (getBucketIndex lib (nodeID (_self r))
                         (createID lib key)))
                 (B lib - 1
                  - getBucketIndex lib (nodeID (_self r)) (createID lib key)))
              w1 [])
    as [[w2 ->]|(e & [w2 a2] & ->)]; [|eauto].
  destruct (visit_adds_nothing lib key limit exclude
              (reverse (seq 0 (getBucketIndex lib (nodeID (_self r))
                                 (createID lib key))))
              w2 [])
    as [[w3 ->]|(e & [w3 a3] & ->)]; eauto.
Qed.

(** C4 at a failing input: the natural bucket of the key, 156, holds peers 9
    and 12 with their records in the adapter; asked for one contact, peer 12
    excluded, the function raises where the claim expects the list of
    peer 9. *)
Lemma getNearestContacts_raises_on_populated_bucket :
  getBucketIndex Kad.lib (nodeID Kad.self) (createID Kad.lib Kad.a_key)
    = 156 /\
  (getContactList <$> bucket_at Kad.world_with_two_peers 156)
    = Some [Kad.peer 9; Kad.peer 12] /\
  (getNearestContacts Kad.lib Kad.router Kad.a_key 1 (Some 12%N)
     Kad.world_with_two_peers).1 = Throw NotAFunction.
Proof. split; [|split]; by vm_compute. Qed.

(** Were the bucket to reach [addNearestFromBucket], peer 9 would still not
    be returned at that input: the bucket's contacts are cut to the
    [limit - contacts.length] nearest before the excluded one is dropped, and
    the excluded peer 12, at distance 0 from the key, takes the one place. *)
Lemma addNearestFromBucket_cuts_before_excluding :
  sort_by_distance (createID Kad.lib Kad.a_key)
      [Kad.peer 9; Kad.peer 12]
    = [Kad.peer 12; Kad.peer 9] /\
  addNearestFromBucket Kad.lib Kad.a_key 1 (Some 12%N) (VBucket 156)
      (Kad.world_with_two_peers, [])
    = (Next tt, (Kad.world_with_two_peers, [])).
Proof. split; by vm_compute. Qed.

(** ** lib/router.js: the iterative lookup *)

(** C3, as the code has it.  When a batch completes without a value and the
    closest node is the previous closest node or the shortlist holds at least
    K contacts, the lookup ends with type NODE and the shortlist as it
    stands, whole and in its order: nothing cuts it down to K contacts. *)
Theorem handleQueryResults_returns_whole_shortlist (lib : Lib) (r : Router)
    (run : Run) :
  foundValue (state run) = false ->
  strict_eq (closestNode (state run)) (previousClosestNode (state run)) = true
    \/ K lib <= length (shortlist (state run)) ->
  _handleQueryResults lib r run
    = (Finish (Resolved NODE (Contacts (shortlist (state run)))), run).
Proof.
  intros Hvalue Hstop. unfold _handleQueryResults. rewrite Hvalue.
  destruct Hstop as [-> | Hfull]; [done |].
  rewrite (bool_decide_eq_true_2 _ Hfull). by rewrite orb_true_r.
Qed.

Lemma handleQueryResults_returns_whole_shortlist_witness :
  _handleQueryResults Kad.lib Kad.router (Kad.run_with NODE Kad.crowd)
    = (Finish (Resolved NODE (Contacts Kad.crowd)),
       Kad.run_with NODE Kad.crowd).
Proof.
  apply (handleQueryResults_returns_whole_shortlist Kad.lib Kad.router
           (Kad.run_with NODE Kad.crowd)).
  - reflexivity.
  - right. simpl. lia.
Defined.

(** C3 as stated fails.  With K = 20, a NODE lookup queries peer 1, which
    answers with peers 2 to 21.  The batch completes with no value found and
    a shortlist of twenty-one contacts, and the lookup returns all twenty-one,
    not the first twenty. *)
Lemma lookup_result_exceeds_K :
  exists run',
    _iterativeFind Kad.lib Kad.router Kad.crowded_network 10 0
        (Kad.run_with NODE [Kad.peer 1]) [Kad.peer 1]
      = (Resolved NODE (Contacts Kad.crowd), run') /\
    foundValue (state run') = false /\
    K Kad.lib <= length (shortlist (state run')) /\
    ~ length Kad.crowd <= K Kad.lib /\
    Kad.crowd <> take (K Kad.lib) (shortlist (state run')).
Proof.
  eexists. split; [vm_compute; reflexivity |].
  split; [reflexivity |]. split; [vm_compute; lia |]. split.
  - vm_compute. lia.
  - intros H. apply (f_equal length) in H. vm_compute in H. discriminate.
Qed.

Global Instance closer_total (target : NodeID) : Total (closer target).
Proof.
  intros a b. unfold closer, compareKeys.
  destruct (N.compare_spec (getDistance (nodeID a) target)
              (getDistance (nodeID b) target)) as [E|E|E].
  - left. lia.
  - left. lia.
  - right. rewrite (proj2 (N.compare_lt_iff _ _) E). lia.
Qed.

Lemma closer_le (target : NodeID) (a b : Contact) :
  closer target a b <->
  (getDistance (nodeID a) target <= getDistance (nodeID b) target)%N.
Proof.
  unfold closer, compareKeys.
  destruct (N.compare_spec (getDistance (nodeID a) target)
              (getDistance (nodeID b) target)); split; intros; lia.
Qed.

Global Instance closer_trans (target : NodeID) : Transitive (closer target).
Proof. intros a b c. rewrite !closer_le. lia. Qed.

(** The first contact of a list sorted by distance is nearest. *)
Lemma sort_by_distance_head (target : NodeID) (l rest : list Contact)
    (c : Contact) :
  sort_by_distance target l = c :: rest ->
  c ∈ l /\
  forall c', c' ∈ l ->
    (getDistance (nodeID c) target <= getDistance (nodeID c') target)%N.
Proof.
  intros Hsort.
  pose proof (merge_sort_Permutation (closer target) l) as Hperm.
  pose proof (StronglySorted_merge_sort (closer target) l) as Hsorted.
  unfold sort_by_distance in Hsort. rewrite Hsort in Hperm, Hsorted.
  split.
  - rewrite <- Hperm. apply list_elem_of_here.
  - intros c' Hc'. rewrite <- Hperm in Hc'.
    apply elem_of_cons in Hc' as [-> | Hrest]; [lia |].
    apply StronglySorted_inv in Hsorted as [_ Hall].
    rewrite Forall_forall in Hall. apply closer_le, Hall, Hrest.
Qed.

Lemma sort_by_distance_nil (target : NodeID) (l : list Contact) :
  sort_by_distance target l = [] -> l = [].
Proof.
  intros H. apply Permutation_nil_r.
  rewrite <- H. symmetry. apply (merge_sort_Permutation (closer target) l).
Qed.

(** C5, as the code has it.  A VALUE lookup that has latched a validated
    item which the [Item] constructor accepts, with at least one contact
    recorded as lacking the value, sends one STORE message and no more; the
    message carries the item as the constructor builds it and goes to a
    recorded contact whose XOR distance to the local node's identifier is
    least among the recorded ones, and the lookup resolves with type VALUE
    and the latched value.  What becomes of the STORE has no way into the
    result: the message is sent without a callback. *)
Theorem value_lookup_stores_at_nearest_to_self (lib : Lib) (r : Router)
    (run : Run) (it it' : Item) :
  foundValue (state run) = true ->
  item (state run) = Some it ->
  value (state run) = Some (item_value it) ->
  contactsWithoutValue (state run) <> [] ->
  Item_new lib (item_key it) (item_value it) (publisher it) (timestamp it)
    = Next it' ->
  exists c,
    _handleQueryResults lib r run
      = (Finish (Resolved VALUE (Value (Some (item_value it)))),
         send run c (STORE it')) /\
    sent (send run c (STORE it')) = sent run ++ [(c, STORE it')] /\
    c ∈ contactsWithoutValue (state run) /\
    forall c', c' ∈ contactsWithoutValue (state run) ->
      (getDistance (nodeID c) (nodeID (_self r))
       <= getDistance (nodeID c') (nodeID (_self r)))%N.
Proof.
  intros Hfound Hitem Hvalue Hsome Hnew.
  unfold _handleQueryResults, _handleValueReturned.
  rewrite Hfound, Hitem, Hvalue, Hnew.
  destruct (sort_by_distance _ _) as [|c rest] eqn:Hsort.
  - by apply sort_by_distance_nil in Hsort.
  - apply sort_by_distance_head in Hsort as [Hin Hmin].
    exists c. simpl. auto.
Qed.

(** When the constructor refuses the latched item, the exception escapes
    [_handleValueReturned]: no STORE is sent and the lookup's callback is not
    reached. *)
Lemma value_lookup_item_refused (lib : Lib) (r : Router) (run : Run)
    (it : Item) (e : error) :
  foundValue (state run) = true ->
  item (state run) = Some it ->
  contactsWithoutValue (state run) <> [] ->
  Item_new lib (item_key it) (item_value it) (publisher it) (timestamp it)
    = Throw e ->
  _handleQueryResults lib r run = (Finish (Raised e), run).
Proof.
  intros Hfound Hitem Hsome Hnew.
  unfold _handleQueryResults, _handleValueReturned.
  rewrite Hfound, Hitem, Hnew.
  destruct (sort_by_distance _ _) as [|c rest] eqn:Hsort; [|done].
  by apply sort_by_distance_nil in Hsort.
Qed.

(** C5 as the claim states it fails on a latched item the constructor
    refuses: with an item stamped 2000 and a constructor whose clock reads
    1000, the lookup has latched the item and recorded peers 12 and 10 as
    lacking the value, and it ends in the constructor's exception, with no
    message sent. *)
Lemma value_lookup_refused_item_sends_nothing :
  foundValue (state Kad.late_run) = true /\
  item (state Kad.late_run) = Some Kad.late_item /\
  value (state Kad.late_run) = Some (item_value Kad.late_item) /\
  contactsWithoutValue (state Kad.late_run) = [Kad.peer 12; Kad.peer 10] /\
  (_handleQueryResults Kad.lib Kad.router Kad.late_run).1
    = Finish (Raised Kad.FutureTimestamp) /\
  sent (_handleQueryResults Kad.lib Kad.router Kad.late_run).2 = [].
Proof. repeat split. Qed.

(** C7.  A lookup whose initial shortlist comes back empty fails with the
    NotConnected error, and has handed no message to the transport. *)
Theorem lookup_not_connected (lib : Lib) (r : Router) (t : Transport)
    (fuel : nat) (ty : lookup_type) (k : string) (w w1 : World) :
  getNearestContacts lib r k (ALPHA lib) (Some (nodeID (_self r))) w
    = (Next [], w1) ->
  exists run,
    lookup lib r t fuel ty k w = (Rejected NotConnected, run, w1) /\
    sent run = [].
Proof.
  intros Hnone. unfold lookup. rewrite Hnone. simpl. eauto.
Qed.

Lemma lookup_not_connected_witness :
  exists run,
    lookup Kad.lib Kad.router Kad.dead_network 10 VALUE Kad.a_key
        Kad.empty_world
      = (Rejected NotConnected, run, Kad.empty_world) /\
    sent run = [].
Proof.
  apply (lookup_not_connected Kad.lib Kad.router Kad.dead_network 10 VALUE
           Kad.a_key Kad.empty_world Kad.empty_world).
  by vm_compute.
Defined.

Lemma value_lookup_stores_at_nearest_to_self_witness :
  exists c,
    _handleQueryResults Kad.lib Kad.router Kad.latched_run
      = (Finish (Resolved VALUE (Value (Some "value"))),
         send Kad.latched_run c
           (STORE (mkItem Kad.a_key "value" 9%N 1000))) /\
    sent (send Kad.latched_run c (STORE (mkItem Kad.a_key "value" 9%N 1000)))
      = [(c, STORE (mkItem Kad.a_key "value" 9%N 1000))] /\
    c ∈ [Kad.peer 12; Kad.peer 10] /\
    forall c', c' ∈ [Kad.peer 12; Kad.peer 10] ->
      (getDistance (nodeID c) 0 <= getDistance (nodeID c') 0)%N.
Proof.
  apply (value_lookup_stores_at_nearest_to_self Kad.lib Kad.router
           Kad.latched_run Kad.an_item (mkItem Kad.a_key "value" 9%N 1000));
    try reflexivity.
  simpl. discriminate.
Defined.

(** A table that has no bucket gives an empty shortlist. *)
Lemma visit_no_bucket (lib : Lib) (key : string) (limit : nat)
    (exclude : option NodeID) (idxs : list nat) (w : World) :
  _buckets w = Some ∅ ->
  visit lib key limit exclude idxs (w, []) = (Next tt, (w, [])).
Proof.
  intros Hw. induction idxs as [|i idxs IH]; simpl; [done |].
  destruct (bool_decide _); [|done].
  unfold createBucket, waterfall, bound, on_world, hasBucket_task, hasBucket.
  simpl. rewrite (_load_loaded lib w ∅ Hw), Hw. simpl.
  rewrite lookup_empty. simpl. apply IH.
Qed.

Lemma getNearestContacts_no_bucket (lib : Lib) (r : Router) (key : string)
    (limit : nat) (exclude : option NodeID) (w : World) :
  _buckets w = Some ∅ ->
  getNearestContacts lib r key limit exclude w = (Next [], w).
Proof.
  intros Hw. unfold getNearestContacts.
  pose proof (visit_no_bucket lib key limit exclude
                [getBucketIndex lib (nodeID (_self r)) (createID lib key)]
                w Hw) as H1.
  simpl in H1. destruct (bool_decide (0 < limit)).
  - destruct (createBucket _ _ _ _ _ _) as [[?|?|?] ?]; simplify_eq.
    by rewrite !visit_no_bucket.
  - unfold createBucket, waterfall, bound, on_world, hasBucket_task,
      hasBucket.
    simpl. rewrite (_load_loaded lib w ∅ Hw), Hw. simpl.
    rewrite lookup_empty. simpl. by rewrite !visit_no_bucket.
Qed.

Lemma dispatch_state (t : Transport) (cs : list Contact) (run : Run) :
  state (dispatch t cs run) = state run.
Proof.
  unfold dispatch. revert run.
  induction cs as [|c cs IH]; intros run; simpl; [done |]. by rewrite IH.
Qed.

(** A query that ends in a transport error: the contact leaves the
    shortlist, a [removeContact] chain is started on it, and the error goes to
    the batch. *)
Lemma on_answer_error (lib : Lib) (r : Router) (t : Transport) (run : Run)
    (c : Contact) (e : error) :
  index_assertion lib r c = true ->
  on_answer lib r t run c (RpcError e)
    = (Fail e,
       start (with_state run (_removeFromShortList (state run) (nodeID c)))
         (OpRemoveContact c)).
Proof.
  intros Hassert. unfold on_answer, call_removeContact. by rewrite Hassert.
Qed.

Lemma handle_answers_all_errors (lib : Lib) (r : Router) (t : Transport)
    (batch : nat) (m : message) (cs : list Contact) :
  (forall c, c ∈ cs -> index_assertion lib r (_createContact t c) = true) ->
  (forall c, c ∈ cs ->
     exists e, answer t batch (_createContact t c) m = RpcError e) ->
  forall (failures : nat) (run : Run),
    find_message (state run) = m ->
    exists run',
      handle_answers lib r t batch cs failures run
        = (Next (failures + length cs), run').
Proof.
  intros Hassert Herr.
  induction cs as [|c cs IH]; intros failures run Hm; simpl.
  - rewrite Nat.add_0_r. eauto.
  - destruct (Herr c) as [e He]; [apply list_elem_of_here |].
    unfold _queryContact. rewrite Hm, He, on_answer_error
      by (apply Hassert, list_elem_of_here).
    destruct (IH (fun c' H => Hassert c' (list_elem_of_further _ _ _ H))
                 (fun c' H => Herr c' (list_elem_of_further _ _ _ H))
                 (S failures)
                 (start (with_state run
                           (_removeFromShortList (state run)
                              (nodeID (_createContact t c))))
                    (OpRemoveContact (_createContact t c))))
      as [run' Hrun']; [exact Hm |].
    exists run'. rewrite Hrun'. f_equal. f_equal. lia.
Qed.

(** C6, as the code has it.  When every query of a batch ends in a transport
    error, whatever the order in which the errors arrive, the lookup fails
    with the LookupFailed error: it neither returns a result nor goes on with
    another batch.  Only the errors that reach the callback of [rpc.send] are
    counted. *)
Theorem iterativeFind_all_transport_errors (lib : Lib) (r : Router)
    (t : Transport) (fuel batch : nat) (run : Run) (cs : list Contact) :
  arrival t batch cs ≡ₚ cs ->
  (forall c, c ∈ cs -> index_assertion lib r (_createContact t c) = true) ->
  (forall c, c ∈ cs ->
     exists e,
       answer t batch (_createContact t c) (find_message (state run))
         = RpcError e) ->
  exists run',
    _iterativeFind lib r t (S fuel) batch run cs
      = (Rejected LookupFailed, run').
Proof.
  intros Hperm Hassert Herr. simpl.
  destruct (handle_answers_all_errors lib r t batch
              (find_message (state run)) (arrival t batch cs))
    with (failures := 0) (run := dispatch t cs run) as [run' Hrun'].
  - intros c Hc. apply Hassert. by rewrite <- Hperm.
  - intros c Hc. apply Herr. by rewrite <- Hperm.
  - by rewrite dispatch_state.
  - rewrite Hrun'. simpl. rewrite (Permutation_length Hperm).
    rewrite bool_decide_eq_true_2 by done. eauto.
Qed.

Lemma iterativeFind_all_transport_errors_witness :
  exists run',
    _iterativeFind Kad.lib Kad.router Kad.dead_network 1 0
        (Kad.run_with NODE [Kad.peer 9; Kad.peer 12])
        [Kad.peer 9; Kad.peer 12]
      = (Rejected LookupFailed, run').
Proof.
  apply (iterativeFind_all_transport_errors Kad.lib Kad.router
           Kad.dead_network 0 0 (Kad.run_with NODE [Kad.peer 9; Kad.peer 12])
           [Kad.peer 9; Kad.peer 12]).
  - reflexivity.
  - intros c Hc. simpl.
    apply elem_of_cons in Hc as [-> | Hc]; [by vm_compute |].
    apply elem_of_cons in Hc as [-> | Hc]; [by vm_compute |].
    by apply elem_of_nil in Hc.
  - intros c _. simpl. eauto.
Defined.

(** C6 as stated fails: a batch of one query whose item is rejected by the
    validator has no query that succeeded, and yet the lookup does not fail;
    it resolves with type NODE and the shortlist the rejection left. *)
Lemma iterativeFind_validation_failure_resolves :
  answer Kad.item_network 0 (Kad.peer 9) (FIND VALUE Kad.a_key)
    = RpcResult (Some []) (Some Kad.an_item) /\
  _validateKeyValuePair Kad.strict_router Kad.a_key (item_value Kad.an_item)
    = false /\
  (_iterativeFind Kad.lib Kad.strict_router Kad.item_network 10 0
     (Kad.run_with VALUE [Kad.peer 9]) [Kad.peer 9]).1
    = Resolved NODE (Contacts []) /\
  Resolved NODE (Contacts []) <> Rejected LookupFailed.
Proof. split; [|split; [|split]]; by vm_compute. Qed.

Lemma removeFromShortList_clears (s : LookupState) (id : NodeID)
    (x : Contact) :
  x ∈ shortlist (_removeFromShortList s id) -> nodeID x <> id.
Proof.
  unfold _removeFromShortList. simpl. rewrite list_elem_of_filter.
  by intros [? _].
Qed.

Lemma world_eta (w : World) (m : gmap nat Bucket) :
  _buckets w = Some m -> set_buckets w (Some m) = w.
Proof. destruct w. simpl. by intros ->. Qed.

(** The first steps of [Router.prototype.removeContact] on a table that is
    loaded and has the contact's bucket: the assertion holds, [getBucket]
    hands the bucket on, and [Bucket.removeContact] is reached. *)
Ltac enter_removeContact lib w m Hassert Hw Hb :=
  unfold index_assertion in Hassert;
  unfold removeContact; rewrite Hassert; simpl;
  unfold bound, getBucket_task, getBucket; simpl;
  rewrite (_load_loaded lib w m Hw); unfold has; rewrite Hw;
  rewrite bool_decide_eq_true_2 by (rewrite Hb; eauto); simpl;
  unfold removeContact_task, bucket_at; simpl; rewrite Hw; simpl; rewrite Hb.

(** [Router.prototype.removeContact] on a contact that its bucket holds:
    the first occurrence of its identifier leaves the order, the bucket is
    saved and the drop is emitted.  The callback has by then received the
    error of the second invocation in [Bucket.removeContact]. *)
Lemma removeContact_present (lib : Lib) (r : Router) (c : Contact)
    (w : World) (m : gmap nat Bucket) (b : Bucket) (pos : nat) :
  index_assertion lib r c = true ->
  _buckets w = Some m ->
  m !! getBucketIndex lib (nodeID (_self r)) (nodeID c) = Some b ->
  indexOf (contacts b) (nodeID c) = Some pos ->
  removeContact lib r c w
    = (Fail ContactNotInBucket,
       let b' := {| index := index b;
                    contacts := splice_out pos (contacts b);
                    _cache := _cache b;
                    _cache_undefined := _cache_undefined b |} in
       emit (set_storage
               (set_bucket w
                  (getBucketIndex lib (nodeID (_self r)) (nodeID c)) b')
               (Bucket_save b' (storage w)))
         (EvDrop c)).
Proof.
  intros Hassert Hw Hb Hpos. enter_removeContact lib w m Hassert Hw Hb.
  unfold Bucket_removeContact. rewrite Hpos. simpl.
  unfold save_task, bucket_at, set_bucket. simpl. rewrite Hw. simpl.
  rewrite lookup_insert_eq. simpl. done.
Qed.

(** ... and on a contact that its bucket does not hold: the chain ends at
    the error, nothing is saved and no drop is emitted. *)
Lemma removeContact_absent (lib : Lib) (r : Router) (c : Contact)
    (w : World) (m : gmap nat Bucket) (b : Bucket) :
  index_assertion lib r c = true ->
  _buckets w = Some m ->
  m !! getBucketIndex lib (nodeID (_self r)) (nodeID c) = Some b ->
  nodeID c ∉ contacts b ->
  removeContact lib r c w = (Fail ContactNotInBucket, w).
Proof.
  intros Hassert Hw Hb Habsent. enter_removeContact lib w m Hassert Hw Hb.
  unfold Bucket_removeContact.
  rewrite (proj2 (indexOf_None _ _) Habsent). simpl.
  unfold set_bucket. rewrite Hw. simpl. rewrite insert_id by done.
  by rewrite (world_eta w m Hw).
Qed.

(** Loading a second time changes nothing. *)
Lemma _load_idempotent (lib : Lib) (w : World) :
  _load lib (_load lib w) = _load lib w.
Proof.
  destruct (_buckets (_load lib w)) as [m|] eqn:Hloaded;
    [by apply (_load_loaded lib _ m) |].
  unfold _load in Hloaded |- *.
  destruct (_buckets w) as [m|] eqn:Hm; [by rewrite Hm |].
  destruct (routing_table_entry (storage w)) as [result|] eqn:Hres.
  - destruct (load_entries lib None (map_to_list result).*1)
      as [[m'|]|e|e] eqn:Hentries; try done.
    simpl. by rewrite Hres, Hentries.
  - destruct (on_miss (storage w)) eqn:Hmiss; [done |].
    by rewrite Hm, Hres, Hmiss.
Qed.

Lemma _load_events (lib : Lib) (w : World) :
  events (_load lib w) = events w.
Proof.
  unfold _load. destruct (_buckets w); [done |].
  destruct (routing_table_entry (storage w)).
  - by destruct (load_entries _ _ _).
  - by destruct (on_miss (storage w)).
Qed.

Lemma _load_storage (lib : Lib) (w : World) :
  storage (_load lib w) = storage w.
Proof.
  unfold _load. destruct (_buckets w); [done |].
  destruct (routing_table_entry (storage w)).
  - by destruct (load_entries _ _ _).
  - by destruct (on_miss (storage w)).
Qed.

(** A chain depends on the state through its first task only. *)
Lemma waterfall_first_task {S} (t : task S) (ts : list (task S))
    (args : list val) (s s' : S) :
  t args s = t args s' ->
  waterfall (t :: ts) args s = waterfall (t :: ts) args s'.
Proof. intros H. cbn [waterfall]. by rewrite H. Qed.

(** [Router.prototype.removeContact] starts by loading the table: on a
    table that is not loaded it does what it does on the loaded one. *)
Lemma removeContact_load (lib : Lib) (r : Router) (c : Contact) (w : World) :
  index_assertion lib r c = true ->
  removeContact lib r c w = removeContact lib r c (_load lib w).
Proof.
  intros Hassert. unfold index_assertion in Hassert.
  unfold removeContact. rewrite Hassert. cbn [negb].
  apply waterfall_first_task. unfold bound, getBucket_task, getBucket.
  simpl. by rewrite _load_idempotent.
Qed.

(** [Router.prototype.removeContact] on a table that has no bucket at the
    contact's index: [getBucket] raises in the constructor of the bucket it
    means to create, and the table is loaded and otherwise untouched. *)
Lemma removeContact_no_bucket (lib : Lib) (r : Router) (c : Contact)
    (w : World) :
  index_assertion lib r c = true ->
  bucket_at (_load lib w)
    (getBucketIndex lib (nodeID (_self r)) (nodeID c)) = None ->
  exists e, removeContact lib r c w = (Throw e, _load lib w).
Proof.
  intros Hassert Hnone. unfold index_assertion in Hassert.
  unfold removeContact. rewrite Hassert. cbn [negb waterfall].
  unfold bound at 1. unfold getBucket_task, getBucket, has. simpl.
  unfold bucket_at in Hnone.
  destruct (_buckets (_load lib w)) as [m|] eqn:Hm; simpl in Hnone.
  - rewrite bool_decide_eq_false_2 by (rewrite Hnone; by intros [? ?]).
    unfold Bucket_new. simpl.
    destruct (negb (bool_decide _)); simpl; eauto.
  - unfold Bucket_new. simpl.
    destruct (negb (bool_decide _)); simpl; eauto.
Qed.

(** C8, as the code has it.  A query that fails, through a transport error
    or through an item the validator rejects, takes every entry with the
    contact's identifier off the shortlist and starts [removeContact] on the
    contact.  On a table that has a bucket at the contact's index,
    [removeContact] takes the contact out of the bucket, saves the bucket and
    emits the drop when the bucket holds the contact; when the bucket does
    not hold it, [removeContact] ends with the error "Contact not in bucket",
    saves nothing and emits no drop. *)
Theorem failed_query_removes_contact (lib : Lib) (r : Router) (t : Transport)
    (run : Run) (c : Contact) (w : World) :
  index_assertion lib r c = true ->
  (forall e, exists run',
     on_answer lib r t run c (RpcError e) = (Fail e, run') /\
     shortlist (state run')
       = filter (fun x => nodeID x <> nodeID c) (shortlist (state run)) /\
     (forall x, x ∈ shortlist (state run') -> nodeID x <> nodeID c) /\
     started run' = started run ++ [OpRemoveContact c]) /\
  (forall nodes it,
     type (state run) = VALUE ->
     _validateKeyValuePair r (key (state run)) (item_value it) = false ->
     exists run',
       on_answer lib r t run c (RpcResult nodes (Some it)) = (Next tt, run') /\
       shortlist (state run')
         = filter (fun x => nodeID x <> nodeID c) (shortlist (state run)) /\
       (forall x, x ∈ shortlist (state run') -> nodeID x <> nodeID c) /\
       started run'
         = started run ++ [OpUpdateContact (seen (now t) c);
                           OpRemoveContact (seen (now t) c)]) /\
  (forall b pos,
     bucket_at (_load lib w)
       (getBucketIndex lib (nodeID (_self r)) (nodeID c)) = Some b ->
     indexOf (contacts b) (nodeID c) = Some pos ->
     exists w',
       (removeContact lib r c w).2 = w' /\
       (contacts <$> bucket_at w'
                       (getBucketIndex lib (nodeID (_self r)) (nodeID c)))
         = Some (splice_out pos (contacts b)) /\
       bucket_entries (storage w') !! index b
         = Some (splice_out pos (contacts b)) /\
       (exists l, buckets_entry (storage w') = Some l /\ index b ∈ l) /\
       events w' = events w ++ [EvDrop c]) /\
  (forall b,
     bucket_at (_load lib w)
       (getBucketIndex lib (nodeID (_self r)) (nodeID c)) = Some b ->
     nodeID c ∉ contacts b ->
     removeContact lib r c w = (Fail ContactNotInBucket, _load lib w)).
Proof.
  intros Hassert. repeat split.
  - intros e. eexists. rewrite on_answer_error by done.
    split; [reflexivity |]. simpl. split; [done |]. split; [|done].
    intros x. apply removeFromShortList_clears.
  - intros nodes it Hty Hinvalid.
    unfold on_answer, _handleFindResult. rewrite Hassert. simpl.
    rewrite Hty. unfold _validateFindResult. simpl. rewrite Hinvalid. simpl.
    unfold call_removeContact.
    replace (index_assertion lib r (seen (now t) c)) with true by done.
    eexists. split; [reflexivity |]. simpl. split; [done |]. split.
    + intros x Hx. apply list_elem_of_filter in Hx. by destruct Hx.
    + by rewrite <- app_assoc.
  - intros b pos Hb Hpos. eexists.
    rewrite (removeContact_load lib r c w Hassert).
    unfold bucket_at in Hb.
    destruct (_buckets (_load lib w)) as [m|] eqn:Hw; [|done].
    simpl in Hb.
    rewrite (removeContact_present lib r c (_load lib w) m b pos) by done.
    split; [reflexivity |]. simpl. unfold bucket_at, set_bucket. simpl.
    rewrite Hw. simpl. rewrite !lookup_insert_eq. simpl.
    rewrite _load_events. repeat split; try done.
    destruct (indexOf (default [] (buckets_entry (storage (_load lib w))))
                (index b))
      as [j|] eqn:Hj; eexists; (split; [reflexivity |]).
    + apply indexOf_Some in Hj. by eapply list_elem_of_lookup_2.
    + apply elem_of_app. right. apply list_elem_of_here.
  - intros b Hb Habsent.
    rewrite (removeContact_load lib r c w Hassert).
    unfold bucket_at in Hb.
    destruct (_buckets (_load lib w)) as [m|] eqn:Hw; [|done].
    simpl in Hb. by eapply removeContact_absent.
Qed.

Lemma failed_query_removes_contact_witness :
  exists w',
    (removeContact Kad.lib Kad.router (Kad.peer 9) Kad.world_with_peer).2
      = w' /\
    (contacts <$> bucket_at w' 156) = Some [] /\
    bucket_entries (storage w') !! 156 = Some [] /\
    (exists l, buckets_entry (storage w') = Some l /\ 156 ∈ l) /\
    events w' = [EvDrop (Kad.peer 9)].
Proof.
  destruct (failed_query_removes_contact Kad.lib Kad.router Kad.dead_network
              (Kad.run_with VALUE [Kad.peer 9]) (Kad.peer 9)
              Kad.world_with_peer)
    as (_ & _ & Hpresent & _).
  - by vm_compute.
  - apply (Hpresent (mkBucket 156 [9%N] [(9%N, Kad.peer 9)]) 0);
      reflexivity.
Defined.

(** C8 as stated fails: peer 10 is queried, the query times out, and
    [removeContact] is started on it; bucket 156, where its identifier
    belongs, does not hold it, and the chain leaves the table and the adapter
    as they were and emits no drop. *)
Lemma failed_query_without_drop :
  getBucketIndex Kad.lib (nodeID Kad.self) (nodeID (Kad.peer 10)) = 156 /\
  (exists run',
     on_answer Kad.lib Kad.router Kad.dead_network
         (Kad.run_with NODE [Kad.peer 10]) (Kad.peer 10)
         (answer Kad.dead_network 0 (Kad.peer 10) (FIND NODE Kad.a_key))
       = (Fail (Error "timeout"), run') /\
     started run' = [OpRemoveContact (Kad.peer 10)]) /\
  removeContact Kad.lib Kad.router (Kad.peer 10) Kad.world_with_peer
    = (Fail ContactNotInBucket, Kad.world_with_peer) /\
  EvDrop (Kad.peer 10) ∉
    events (removeContact Kad.lib Kad.router (Kad.peer 10)
              Kad.world_with_peer).2.
Proof.
  split; [by vm_compute |]. split.
  - eexists. split; [by vm_compute | reflexivity].
  - assert (removeContact Kad.lib Kad.router (Kad.peer 10)
              Kad.world_with_peer
            = (Fail ContactNotInBucket, Kad.world_with_peer)) as H
      by (by vm_compute).
    rewrite H. simpl. split; [done |]. apply not_elem_of_nil.
Qed.

(** * Further properties *)

(** ** lib/bucket.js: the order of a bucket *)

Lemma mid_bounds (low high : nat) :
  low < high -> low <= (low + high) / 2 < high.
Proof.
  intros H. split.
  - apply Nat.div_le_lower_bound; lia.
  - apply Nat.Div0.div_lt_upper_bound; lia.
Qed.

(** The binary search of [_.sortedIndex] ends inside its bounds whenever the
    iteratee is defined there, and on ascending keys it ends at the lowest
    position that keeps them ascending. *)
Lemma binaryIndexBy_spec (computed : nat -> option Z) (kf : nat -> Z)
    (v : Z) (low high : nat) :
  (forall j, low <= j < high -> computed j = Some (kf j)) ->
  low <= high ->
  exists i,
    binaryIndexBy computed v low high = Some i /\
    low <= i <= high /\
    ((forall i j, low <= i -> i <= j -> j < high -> (kf i <= kf j)%Z) ->
     (forall j, low <= j < i -> (kf j < v)%Z) /\
     (forall j, i <= j < high -> (v <= kf j)%Z)).
Proof.
  funelim (binaryIndexBy computed v low high); intros Hc Hle;
    try (assert (low <= (low + high) / 2 < high) as Hm
           by (apply mid_bounds; lia);
         match goal with
         | E : computed _ = _ |- _ => rewrite Hc in E by lia; simplify_eq
         end).
  - exists high. split; [done |]. split; [lia |]. intros _. split; intros; lia.
  - match goal with
    | IH : forall kf : nat -> Z, _ |- _ =>
        destruct (IH kf) as (i & Hi & Hb & Hpos)
    end.
    + intros j Hj. apply Hc. lia.
    + lia.
    + exists i. split; [done |]. split; [lia |]. intros Hs.
      destruct Hpos as [Hlo Hhi]; [intros ? ? ? ? ?; apply Hs; lia |].
      split; [|done].
      intros j Hj. destruct (decide (j <= (low + high) / 2)).
      * specialize (Hs j ((low + high) / 2)). lia.
      * apply Hlo. lia.
  - match goal with
    | IH : forall kf : nat -> Z, _ |- _ =>
        destruct (IH kf) as (i & Hi & Hb & Hpos)
    end.
    + intros j Hj. apply Hc. lia.
    + lia.
    + exists i. split; [done |]. split; [lia |]. intros Hs.
      destruct Hpos as [Hlo Hhi]; [intros ? ? ? ? ?; apply Hs; lia |].
      split; [done |].
      intros j Hj. destruct (decide (j < (low + high) / 2)).
      * apply Hhi. lia.
      * specialize (Hs ((low + high) / 2) j). lia.
Qed.

(** When every key is below the value the search ends at the upper bound,
    and when none is it ends at the lower bound, ascending keys or not. *)
Lemma binaryIndexBy_all_below (computed : nat -> option Z) (v : Z)
    (low high : nat) :
  low <= high ->
  (forall j, low <= j < high -> exists k, computed j = Some k /\ (k < v)%Z) ->
  binaryIndexBy computed v low high = Some high.
Proof.
  funelim (binaryIndexBy computed v low high); intros Hle Hc;
    try (assert (low <= (low + high) / 2 < high) as Hm
           by (apply mid_bounds; lia);
         destruct (Hc ((low + high) / 2)) as (k & Hk & Hlt); [lia |];
         simplify_eq); try done; try lia.
  match goal with IH : _ -> _ -> _ = Some high |- _ => apply IH end;
    [lia | intros j Hj; apply Hc; lia].
Qed.

Lemma binaryIndexBy_none_below (computed : nat -> option Z) (v : Z)
    (low high : nat) :
  low <= high ->
  (forall j, low <= j < high -> exists k, computed j = Some k /\ (v <= k)%Z) ->
  binaryIndexBy computed v low high = Some low.
Proof.
  funelim (binaryIndexBy computed v low high); intros Hle Hc;
    try (assert (low <= (low + high) / 2 < high) as Hm
           by (apply mid_bounds; lia);
         destruct (Hc ((low + high) / 2)) as (k & Hk & Hlt); [lia |];
         simplify_eq); try done; try lia.
  - f_equal. lia.
  - match goal with IH : _ -> _ -> _ = Some low |- _ => apply IH end;
      [lia | intros j Hj; apply Hc; lia].
Qed.

Lemma splice_in_lookup {A} (idx : nat) (x : A) (l : list A) (i : nat) :
  idx <= length l ->
  splice_in idx x l !! i
    = if decide (i < idx) then l !! i
      else if decide (i = idx) then Some x else l !! (i - 1).
Proof.
  intros Hidx. unfold splice_in.
  destruct (decide (i < idx)) as [Hlt|Hge].
  - rewrite lookup_app_l by (rewrite length_take; lia).
    apply lookup_take_lt. lia.
  - rewrite lookup_app_r by (rewrite length_take; lia).
    rewrite length_take, Nat.min_l by lia.
    destruct (decide (i = idx)) as [->|Hne].
    + by rewrite Nat.sub_diag.
    + replace (i - idx) with (S (i - idx - 1)) by lia. simpl.
      rewrite lookup_drop. f_equal. lia.
Qed.

Lemma splice_in_length {A} (idx : nat) (x : A) (l : list A) :
  length (splice_in idx x l) = S (length l).
Proof.
  unfold splice_in. rewrite length_app. simpl.
  rewrite <- (take_drop idx l) at 3. rewrite length_app. lia.
Qed.

Lemma splice_in_Permutation {A} (idx : nat) (x : A) (l : list A) :
  splice_in idx x l ≡ₚ x :: l.
Proof.
  unfold splice_in. rewrite <- Permutation_middle. by rewrite take_drop.
Qed.

Lemma lastSeen_of_set_eq (cache : dict) (c : Contact) :
  lastSeen_of (dict_set cache (nodeID c) c) (nodeID c) = Some (lastSeen c).
Proof. unfold lastSeen_of. by rewrite dict_get_set_eq. Qed.

Lemma lastSeen_of_set_ne (cache : dict) (c : Contact) (id : NodeID) :
  id <> nodeID c ->
  lastSeen_of (dict_set cache (nodeID c) c) id = lastSeen_of cache id.
Proof. intros H. unfold lastSeen_of. by rewrite dict_get_set_ne. Qed.

(** The stamps of the order are the same in the cache that has taken the
    new contact in. *)
Lemma stamps_after_set (cache : dict) (c : Contact) (l : list NodeID)
    (j : nat) :
  nodeID c ∉ l ->
  l !! j ≫= lastSeen_of (dict_set cache (nodeID c) c)
    = l !! j ≫= lastSeen_of cache.
Proof.
  intros Habsent. destruct (l !! j) as [id|] eqn:E; [|done]. simpl.
  apply lastSeen_of_set_ne. intros ->.
  apply Habsent. by eapply list_elem_of_lookup_2.
Qed.

Lemma cached_stamp (cache : dict) (l : list NodeID) (j : nat) :
  cached cache l -> j < length l ->
  exists a, l !! j ≫= lastSeen_of cache = Some a.
Proof.
  intros Hc Hj. destruct (lookup_lt_is_Some_2 l j Hj) as [id Hid].
  destruct (Hc id) as [c0 Hc0]; [by eapply list_elem_of_lookup_2 |].
  exists (lastSeen c0). rewrite Hid. simpl. unfold lastSeen_of. by rewrite Hc0.
Qed.

(** Where [addContact] puts a contact the bucket does not hold. *)
Lemma sortedIndex_spec (cache : dict) (l : list NodeID) (c : Contact) :
  cached cache l -> nodeID c ∉ l ->
  exists idx,
    sortedIndex (dict_set cache (nodeID c) c) l (nodeID c) = Some idx /\
    idx <= length l /\
    (oldest_first cache l ->
     (forall j a, j < idx ->
        l !! j ≫= lastSeen_of cache = Some a -> (a < lastSeen c)%Z) /\
     (forall j a, idx <= j ->
        l !! j ≫= lastSeen_of cache = Some a -> (lastSeen c <= a)%Z)).
Proof.
  intros Hcached Habsent. unfold sortedIndex. rewrite lastSeen_of_set_eq.
  destruct (binaryIndexBy_spec
              (fun mid => l !! mid ≫= lastSeen_of (dict_set cache (nodeID c) c))
              (fun j => default 0%Z (l !! j ≫= lastSeen_of cache))
              (lastSeen c) 0 (length l)) as (idx & Hidx & Hb & Hpos).
  - intros j Hj. rewrite stamps_after_set by done.
    destruct (cached_stamp cache l j Hcached) as [a Ha]; [lia |].
    by rewrite Ha.
  - lia.
  - exists idx. split; [done |]. split; [lia |]. intros Hsorted.
    destruct Hpos as [Hlo Hhi].
    + intros i j _ Hij Hj.
      destruct (cached_stamp cache l i Hcached) as [a Ha]; [lia |].
      destruct (cached_stamp cache l j Hcached) as [b Hb']; [lia |].
      rewrite Ha, Hb'. simpl.
      eapply Hsorted; [exact Hij | exact Ha | exact Hb'].
    + split.
      * intros j a Hj Ha. specialize (Hlo j). rewrite Ha in Hlo.
        apply Hlo. lia.
      * intros j a Hj Ha.
        assert (j < length l).
        { apply lookup_lt_is_Some. destruct (l !! j); [eauto | done]. }
        specialize (Hhi j). rewrite Ha in Hhi. apply Hhi. lia.
Qed.

(** X1.  On a bucket that is not full and does not hold the contact's
    identifier, with every identifier of the order in the cache,
    [addContact] succeeds: it hands the contact to its callback, the new
    order is the old one with the identifier put in at one position, so one
    longer and with the same other identifiers in the same relative order,
    and the cache holds the contact. *)
Theorem addContact_inserts (lib : Lib) (b : Bucket) (c : Contact) :
  getSize b <> K lib -> nodeID c ∉ contacts b ->
  cached (_cache b) (contacts b) ->
  exists idx b',
    addContact lib b c = (Next c, b') /\
    idx <= length (contacts b) /\
    contacts b' = take idx (contacts b) ++ nodeID c :: drop idx (contacts b) /\
    getSize b' = S (getSize b) /\
    contacts b' !! idx = Some (nodeID c) /\
    (forall id, id ∈ contacts b' <-> id = nodeID c \/ id ∈ contacts b) /\
    dict_get (_cache b') (nodeID c) = Some c /\
    index b' = index b.
Proof.
  intros Hroom Habsent Hcached. unfold addContact.
  rewrite decide_False by done. unfold includes.
  rewrite bool_decide_eq_false_2 by done. simpl.
  destruct (sortedIndex_spec (_cache b) (contacts b) c Hcached Habsent)
    as (idx & -> & Hidx & _).
  exists idx. eexists. split; [reflexivity |]. simpl.
  split; [done |]. split; [done |]. split.
  { unfold getSize. simpl. apply splice_in_length. }
  split.
  { rewrite splice_in_lookup by done.
    rewrite decide_False by lia. by rewrite decide_True. }
  split.
  { intros id. rewrite (splice_in_Permutation idx (nodeID c) (contacts b)).
    apply elem_of_cons. }
  split; [apply dict_get_set_eq | done].
Qed.

Lemma cached_Forall (cache : dict) (l : list NodeID) :
  Forall (fun id => is_Some (dict_get cache id)) l -> cached cache l.
Proof. intros H id Hid. by apply (proj1 (Forall_forall _ _) H). Qed.

(** X1 on the sample bucket: peer 10 joins peers 9 and 12. *)
Lemma addContact_inserts_witness :
  exists idx b',
    addContact Kad.lib Sample.bucket Sample.between
      = (Next Sample.between, b') /\
    idx <= length (contacts Sample.bucket) /\
    contacts b' = take idx (contacts Sample.bucket)
                  ++ nodeID Sample.between
                     :: drop idx (contacts Sample.bucket) /\
    getSize b' = S (getSize Sample.bucket) /\
    contacts b' !! idx = Some (nodeID Sample.between) /\
    (forall id,
       id ∈ contacts b'
       <-> id = nodeID Sample.between \/ id ∈ contacts Sample.bucket) /\
    dict_get (_cache b') (nodeID Sample.between) = Some Sample.between /\
    index b' = index Sample.bucket.
Proof.
  apply (addContact_inserts Kad.lib Sample.bucket Sample.between).
  - vm_compute. lia.
  - compute_done.
  - apply cached_Forall. compute_done.
Defined.

Lemma stamp_after_insert (cache : dict) (l : list NodeID) (c : Contact)
    (idx p : nat) :
  idx <= length l -> nodeID c ∉ l ->
  splice_in idx (nodeID c) l !! p
    ≫= lastSeen_of (dict_set cache (nodeID c) c)
  = if decide (p < idx) then l !! p ≫= lastSeen_of cache
    else if decide (p = idx) then Some (lastSeen c)
         else l !! (p - 1) ≫= lastSeen_of cache.
Proof.
  intros Hidx Habsent. rewrite splice_in_lookup by done.
  destruct (decide (p < idx)); [by apply stamps_after_set |].
  destruct (decide (p = idx)); [simpl; apply lastSeen_of_set_eq |].
  by apply stamps_after_set.
Qed.

(** X2.  [addContact] keeps a bucket in order of last contact: when the
    order runs from the contact seen longest ago to the one seen last, so
    does the order with the new contact in it, which stands after every
    contact seen before it and before every contact seen at the same time or
    later. *)
Theorem addContact_keeps_oldest_first (lib : Lib) (b : Bucket) (c : Contact) :
  getSize b <> K lib -> nodeID c ∉ contacts b ->
  cached (_cache b) (contacts b) ->
  oldest_first (_cache b) (contacts b) ->
  exists idx b',
    addContact lib b c = (Next c, b') /\
    contacts b' !! idx = Some (nodeID c) /\
    cached (_cache b') (contacts b') /\
    oldest_first (_cache b') (contacts b') /\
    (forall j a, j < idx ->
       contacts b' !! j ≫= lastSeen_of (_cache b') = Some a ->
       (a < lastSeen c)%Z) /\
    (forall j a, idx < j ->
       contacts b' !! j ≫= lastSeen_of (_cache b') = Some a ->
       (lastSeen c <= a)%Z).
Proof.
  intros Hroom Habsent Hcached Hsorted. unfold addContact.
  rewrite decide_False by done. unfold includes.
  rewrite bool_decide_eq_false_2 by done. simpl.
  destruct (sortedIndex_spec (_cache b) (contacts b) c Hcached Habsent)
    as (idx & -> & Hidx & Hpos).
  destruct (Hpos Hsorted) as [Hlo Hhi].
  exists idx. eexists. split; [reflexivity |]. simpl. split.
  { rewrite splice_in_lookup by done.
    rewrite decide_False by lia. by rewrite decide_True. }
  split.
  { intros id. rewrite (splice_in_Permutation idx (nodeID c) (contacts b)).
    intros [-> | Hid]%elem_of_cons.
    - rewrite dict_get_set_eq. eauto.
    - rewrite dict_get_set_ne; [by apply Hcached |].
      intros ->. done. }
  split.
  { intros i j a a' Hij.
    rewrite !stamp_after_insert by done.
    repeat case_decide; intros Ha Ha'; simplify_eq; try lia.
    - eapply Hsorted; [exact Hij | exact Ha | exact Ha'].
    - assert (a < lastSeen c)%Z by (apply (Hlo i); [lia | done]). lia.
    - assert (a < lastSeen c)%Z by (apply (Hlo i); [lia | done]).
      assert (lastSeen c <= a')%Z by (apply (Hhi (j - 1)); [lia | done]).
      lia.
    - apply (Hhi (j - 1)); [lia | done].
    - eapply (Hsorted (i - 1) (j - 1)); [lia | exact Ha | exact Ha']. }
  split.
  - intros j a Hj. rewrite stamp_after_insert by done.
    rewrite decide_True by done. intros Ha. by eapply Hlo.
  - intros j a Hj. rewrite stamp_after_insert by done.
    rewrite !decide_False by lia. intros Ha. apply (Hhi (j - 1)); [lia | done].
Qed.

(** X2 on the sample bucket: peer 10, seen at 15, goes between peer 9, seen
    at 10, and peer 12, seen at 20. *)
Lemma addContact_keeps_oldest_first_witness :
  exists idx b',
    addContact Kad.lib Sample.bucket Sample.between
      = (Next Sample.between, b') /\
    contacts b' !! idx = Some (nodeID Sample.between) /\
    cached (_cache b') (contacts b') /\
    oldest_first (_cache b') (contacts b') /\
    (forall j a, j < idx ->
       contacts b' !! j ≫= lastSeen_of (_cache b') = Some a ->
       (a < lastSeen Sample.between)%Z) /\
    (forall j a, idx < j ->
       contacts b' !! j ≫= lastSeen_of (_cache b') = Some a ->
       (lastSeen Sample.between <= a)%Z).
Proof.
  apply (addContact_keeps_oldest_first Kad.lib Sample.bucket Sample.between).
  - vm_compute. lia.
  - compute_done.
  - apply cached_Forall. compute_done.
  - intros [|[|i]] [|[|j]] x y Hij Hx Hy; vm_compute in Hx, Hy;
      simplify_eq; lia.
Defined.

(** X3.  A contact seen later than every contact of the bucket goes to the
    tail, and a contact that none of them was seen before goes to the head,
    whatever the order of the bucket was. *)
Theorem addContact_tail_or_head (lib : Lib) (b : Bucket) (c : Contact) :
  getSize b <> K lib -> nodeID c ∉ contacts b ->
  ((forall id, id ∈ contacts b ->
      exists a, lastSeen_of (_cache b) id = Some a /\ (a < lastSeen c)%Z) ->
   exists b', addContact lib b c = (Next c, b') /\
              contacts b' = contacts b ++ [nodeID c]) /\
  ((forall id, id ∈ contacts b ->
      exists a, lastSeen_of (_cache b) id = Some a /\ (lastSeen c <= a)%Z) ->
   exists b', addContact lib b c = (Next c, b') /\
              contacts b' = nodeID c :: contacts b).
Proof.
  intros Hroom Habsent.
  assert (forall (P : Z -> Prop),
    (forall id, id ∈ contacts b ->
       exists a, lastSeen_of (_cache b) id = Some a /\ P a) ->
    forall j, 0 <= j < length (contacts b) ->
      exists k, contacts b !! j
                  ≫= lastSeen_of (dict_set (_cache b) (nodeID c) c) = Some k
                /\ P k) as Hstamps.
  { intros P Hall j Hj. rewrite stamps_after_set by done.
    destruct (lookup_lt_is_Some_2 (contacts b) j) as [id Hid]; [lia |].
    destruct (Hall id) as (a & Ha & HP); [by eapply list_elem_of_lookup_2 |].
    exists a. rewrite Hid. simpl. done. }
  unfold addContact. rewrite decide_False by done. unfold includes.
  rewrite bool_decide_eq_false_2 by done. simpl.
  unfold sortedIndex. rewrite lastSeen_of_set_eq. split; intros Hall.
  - rewrite binaryIndexBy_all_below;
      [| lia | by apply (Hstamps (fun a => (a < lastSeen c)%Z))].
    eexists. split; [reflexivity |]. simpl. unfold splice_in.
    by rewrite take_ge, drop_ge by lia.
  - rewrite binaryIndexBy_none_below;
      [| lia | by apply (Hstamps (fun a => (lastSeen c <= a)%Z))].
    eexists. split; [reflexivity |]. done.
Qed.

(** X3 on the sample bucket: peer 10, seen after peers 9 and 12, goes to
    the tail. *)
Lemma addContact_tail_or_head_witness :
  exists b',
    addContact Kad.lib Sample.bucket Sample.latest = (Next Sample.latest, b') /\
    contacts b' = contacts Sample.bucket ++ [nodeID Sample.latest].
Proof.
  refine (proj1 (addContact_tail_or_head Kad.lib Sample.bucket Sample.latest
                   _ _) _).
  - vm_compute. lia.
  - compute_done.
  - intros id Hid. apply elem_of_cons in Hid as [->|Hid].
    + eexists. split; [reflexivity | vm_compute; reflexivity].
    + apply list_elem_of_singleton in Hid as ->.
      eexists. split; [reflexivity | vm_compute; reflexivity].
Defined.

(** X4.  [addContact] keeps the two invariants of a bucket, however the call
    ends: the identifiers of the order stay distinct, and an order of at most
    K identifiers stays one. *)
Theorem addContact_keeps_invariants (lib : Lib) (b : Bucket) (c : Contact) :
  NoDup (contacts b) -> getSize b <= K lib ->
  NoDup (contacts (addContact lib b c).2) /\
  getSize (addContact lib b c).2 <= K lib.
Proof.
  intros Hnodup Hsize. unfold addContact, includes.
  destruct (decide (getSize b = K lib)); [done |].
  destruct (decide (nodeID c ∈ contacts b)) as [Hin|Hout].
  - rewrite bool_decide_eq_true_2 by done. done.
  - rewrite bool_decide_eq_false_2 by done. simpl.
    destruct (sortedIndex _ _ _) as [idx|]; [|done]. simpl. split.
    + rewrite (splice_in_Permutation idx (nodeID c) (contacts b)).
      by apply NoDup_cons.
    + unfold getSize in *. simpl. rewrite splice_in_length. lia.
Qed.

(** X4 on the sample bucket. *)
Lemma addContact_keeps_invariants_witness :
  NoDup (contacts (addContact Kad.lib Sample.bucket Sample.between).2) /\
  getSize (addContact Kad.lib Sample.bucket Sample.between).2 <= K Kad.lib.
Proof.
  apply (addContact_keeps_invariants Kad.lib Sample.bucket Sample.between).
  - compute_done.
  - vm_compute. lia.
Defined.

(** ** lib/bucket.js: removal, persistence, cache *)

Lemma indexOf_first {A} `{EqDecision A} (l : list A) (x : A) (i : nat) :
  indexOf l x = Some i -> forall j, j < i -> l !! j <> Some x.
Proof.
  revert i. induction l as [|y l IH]; intros i; simpl; [done |].
  destruct (decide (y = x)) as [->|Hne].
  - intros [= <-] j Hj. lia.
  - destruct (indexOf l x) as [i'|] eqn:E; simpl; [|done].
    intros [= <-] [|j] Hj; simpl; [congruence |].
    apply (IH i'); [done | lia].
Qed.

Lemma splice_out_Permutation {A} (l : list A) (x : A) (i : nat) :
  l !! i = Some x -> x :: splice_out i l ≡ₚ l.
Proof.
  intros Hi. unfold splice_out.
  rewrite Permutation_middle, <- (drop_S l x i Hi). by rewrite take_drop.
Qed.

(** X5.  [Bucket.removeContact] on an identifier the order holds takes out
    its first occurrence and nothing else (on an order of distinct
    identifiers the identifier is gone), leaves the cache entry in place, and
    invokes its callback twice: with the contact, then with the error
    "Contact not in bucket".  On an identifier the order does not hold it
    changes nothing and reports that error once. *)
Theorem Bucket_removeContact_spec (b : Bucket) (c : Contact) :
  (nodeID c ∈ contacts b ->
   exists i b',
     Bucket_removeContact b c = ([Next c; Fail ContactNotInBucket], b') /\
     contacts b !! i = Some (nodeID c) /\
     (forall j, j < i -> contacts b !! j <> Some (nodeID c)) /\
     contacts b' = take i (contacts b) ++ drop (S i) (contacts b) /\
     nodeID c :: contacts b' ≡ₚ contacts b /\
     S (getSize b') = getSize b /\
     (NoDup (contacts b) -> nodeID c ∉ contacts b') /\
     _cache b' = _cache b /\ index b' = index b) /\
  (nodeID c ∉ contacts b ->
   Bucket_removeContact b c = ([Fail ContactNotInBucket], b)).
Proof.
  unfold Bucket_removeContact. split.
  - intros Hin.
    destruct (indexOf (contacts b) (nodeID c)) as [i|] eqn:E;
      [|by apply indexOf_None in E].
    pose proof (indexOf_Some _ _ _ E) as Hi.
    pose proof (splice_out_Permutation _ _ _ Hi) as Hperm.
    exists i. eexists. split; [reflexivity |]. simpl.
    split; [done |]. split; [by apply indexOf_first |].
    split; [done |]. split; [done |]. split.
    { unfold getSize. simpl.
      by rewrite <- (Permutation_length Hperm). }
    split; [|done].
    intros Hnodup. rewrite <- Hperm in Hnodup.
    by apply NoDup_cons in Hnodup as [? _].
  - intros Hout. by rewrite (proj2 (indexOf_None _ _) Hout).
Qed.

(** X6.  What [Bucket.save] writes, [Bucket.load] reads back: a bucket
    object of the same index takes the saved order, whatever its own order
    was, and the records of the other buckets and of the contacts are left
    alone. *)
Theorem Bucket_load_after_save (b b0 : Bucket) (s : Storage) :
  index b0 = index b ->
  contacts (Bucket_load b0 (Bucket_save b s)) = contacts b /\
  _cache (Bucket_load b0 (Bucket_save b s)) = _cache b0 /\
  (forall j, j <> index b ->
     bucket_entries (Bucket_save b s) !! j = bucket_entries s !! j) /\
  contact_entries (Bucket_save b s) = contact_entries s /\
  routing_table_entry (Bucket_save b s) = routing_table_entry s.
Proof.
  intros Hidx. unfold Bucket_load, Bucket_save. simpl.
  rewrite Hidx, lookup_insert_eq. simpl.
  repeat split; try done. intros j Hj. by rewrite lookup_insert_ne.
Qed.

(** X6: a new bucket object of index 156 reads the order of the sample
    bucket back from an adapter that held nothing. *)
Lemma Bucket_load_after_save_witness :
  contacts (Bucket_load (mkBucket 156 [] [])
              (Bucket_save Sample.bucket Kad.no_records))
    = contacts Sample.bucket /\
  _cache (Bucket_load (mkBucket 156 [] [])
            (Bucket_save Sample.bucket Kad.no_records)) = [] /\
  (forall j, j <> index Sample.bucket ->
     bucket_entries (Bucket_save Sample.bucket Kad.no_records) !! j
       = bucket_entries Kad.no_records !! j) /\
  contact_entries (Bucket_save Sample.bucket Kad.no_records)
    = contact_entries Kad.no_records /\
  routing_table_entry (Bucket_save Sample.bucket Kad.no_records)
    = routing_table_entry Kad.no_records.
Proof.
  apply (Bucket_load_after_save Sample.bucket (mkBucket 156 [] [])
           Kad.no_records).
  reflexivity.
Defined.

Lemma indexOf_app_r {A} `{EqDecision A} (l : list A) (x : A) :
  is_Some (indexOf (l ++ [x]) x).
Proof.
  induction l as [|y l IH]; simpl.
  - rewrite decide_True by done. eauto.
  - destruct (decide (y = x)); [eauto |].
    destruct IH as [i ->]. simpl. eauto.
Qed.

(** X7.  [Bucket.save] keeps the list under ['BUCKETS'] a list of the
    indexes saved so far, each once: the index is in it afterwards, the
    indexes that were in it stay in place, a list without repetition stays
    one, and saving a second time changes nothing. *)
Theorem Bucket_save_registers_once (b : Bucket) (s : Storage) :
  (exists l, buckets_entry (Bucket_save b s) = Some l /\
             index b ∈ l /\
             default [] (buckets_entry s) `prefix_of` l /\
             (NoDup (default [] (buckets_entry s)) -> NoDup l)) /\
  Bucket_save b (Bucket_save b s) = Bucket_save b s.
Proof.
  split.
  - unfold Bucket_save. simpl.
    destruct (indexOf (default [] (buckets_entry s)) (index b)) as [i|] eqn:E.
    + eexists. split; [reflexivity |]. split.
      * apply indexOf_Some in E. by eapply list_elem_of_lookup_2.
      * split; [done | done].
    + eexists. split; [reflexivity |]. split.
      * apply elem_of_app. right. apply list_elem_of_here.
      * split; [by apply prefix_app_r |].
        intros Hnodup. apply NoDup_app. split; [done |]. split.
        -- intros x Hx [->|[]%elem_of_nil]%elem_of_cons.
           by apply indexOf_None in E.
        -- apply NoDup_singleton.
  - unfold Bucket_save. simpl. rewrite insert_insert_eq. f_equal. f_equal.
    destruct (indexOf (default [] (buckets_entry s)) (index b)) as [i|] eqn:E.
    + by rewrite E.
    + by destruct (indexOf_app_r (default [] (buckets_entry s)) (index b))
        as [i ->].
Qed.

Lemma foldl_del_contact_entries (s : Storage) (ids : list NodeID) :
  contact_entries (foldl del_contact_entry s ids)
    = foldl (fun m id => delete id m) (contact_entries s) ids /\
  bucket_entries (foldl del_contact_entry s ids) = bucket_entries s /\
  buckets_entry (foldl del_contact_entry s ids) = buckets_entry s /\
  routing_table_entry (foldl del_contact_entry s ids) = routing_table_entry s.
Proof.
  revert s. induction ids as [|id ids IH]; intros s; simpl; [done |].
  destruct (IH (del_contact_entry s id)) as (-> & -> & -> & ->). done.
Qed.

Lemma lookup_foldl_delete {A} (m : gmap NodeID A) (ids : list NodeID)
    (id : NodeID) :
  foldl (fun m id => delete id m) m ids !! id
    = if decide (id ∈ ids) then None else m !! id.
Proof.
  revert m. induction ids as [|x ids IH]; intros m; cbn [foldl].
  - case_decide as H; [by apply elem_of_nil in H | done].
  - rewrite IH. rewrite (lookup_delete m x id).
    destruct (decide (id ∈ ids)) as [Hin|Hout].
    + rewrite decide_True; [done | by right].
    + destruct (decide (x = id)) as [->|Hne].
      * rewrite decide_True; [done | by left].
      * rewrite decide_False; [done |].
        intros [?|?]%elem_of_cons; congruence.
Qed.

(** X8.  [Bucket.empty] deletes, for the order it loads from the adapter
    (or, with no saved order, the order it holds), the record of every
    contact and the record of the order itself, and no other contact's
    record.  It does not take the index off the list under ['BUCKETS'], and
    the bucket object goes on holding the identifiers: its size is not
    zero afterwards unless it was. *)
Theorem Bucket_empty_spec (b : Bucket) (s : Storage) :
  contacts (Bucket_empty b s).1 = default (contacts b)
                                    (bucket_entries s !! index b) /\
  (forall id,
     contact_entries (Bucket_empty b s).2 !! id
       = if decide (id ∈ contacts (Bucket_empty b s).1) then None
         else contact_entries s !! id) /\
  bucket_entries (Bucket_empty b s).2 !! index b = None /\
  (forall j, j <> index b ->
     bucket_entries (Bucket_empty b s).2 !! j = bucket_entries s !! j) /\
  buckets_entry (Bucket_empty b s).2 = buckets_entry s /\
  routing_table_entry (Bucket_empty b s).2 = routing_table_entry s.
Proof.
  unfold Bucket_empty. simpl.
  assert (index (Bucket_load b s) = index b) as Hidx.
  { unfold Bucket_load. by destruct (bucket_entries s !! index b). }
  destruct (foldl_del_contact_entries s (contacts (Bucket_load b s)))
    as (Hc & Hb & Hl & Hr).
  rewrite Hidx, Hc, Hb, Hl, Hr. split.
  { unfold Bucket_load. by destruct (bucket_entries s !! index b). }
  split; [intros id; apply lookup_foldl_delete |].
  split; [apply lookup_delete_eq |].
  split; [intros j Hj; by apply lookup_delete_ne | done].
Qed.

Lemma load_each_spec (s : Storage) (ids : list NodeID) (acc : loading) :
  ((load_each s ids acc).1 = None <->
     on_miss s = MissNull \/
     forall id, id ∈ ids -> is_Some (contact_entries s !! id)) /\
  (forall id,
     dict_get (load_each s ids acc).2.1 id
       = match last (filter (fun c => nodeID c = id)
                       (omap (object_at s) ids)) with
         | Some c => Some c
         | None => dict_get acc.1 id
         end) /\
  (load_each s ids acc).2.2
    = match last (omap (text_at s) ids) with
      | Some c => Some c
      | None => acc.2
      end.
Proof.
  revert acc. induction ids as [|x ids IH]; intros acc.
  - simpl. split; [|done]. split; [|done]. intros _. right.
    intros id H. by apply elem_of_nil in H.
  - cbn [load_each omap list_omap]. unfold get_contact_entry, get_missing.
    unfold object_at at 1, text_at at 1.
    destruct (contact_entries s !! x) as [[cx|cx]|] eqn:Ex.
    + (* a text *)
      destruct (IH (cache_result acc (Text cx))) as (Hres & Hget & Hundef).
      split; [|split].
      * rewrite Hres. split; (intros [?|Hall]; [by left | right]).
        -- intros id [->|Hid]%elem_of_cons; [by rewrite Ex | by apply Hall].
        -- intros id Hid. apply Hall, elem_of_cons. by right.
      * intros id. by rewrite Hget.
      * rewrite Hundef, last_cons. simpl.
        by destruct (last (omap (text_at s) ids)).
    + (* an object *)
      destruct (IH (cache_result acc (Object cx))) as (Hres & Hget & Hundef).
      split; [|split].
      * rewrite Hres. split; (intros [?|Hall]; [by left | right]).
        -- intros id [->|Hid]%elem_of_cons; [by rewrite Ex | by apply Hall].
        -- intros id Hid. apply Hall, elem_of_cons. by right.
      * intros id. rewrite Hget. simpl. rewrite filter_cons.
        destruct (decide (nodeID cx = id)) as [<-|Hne].
        -- rewrite last_cons, dict_get_set_eq.
           by destruct (last (filter _ _)).
        -- by rewrite dict_get_set_ne.
      * by rewrite Hundef.
    + (* no record *)
      destruct (IH acc) as (Hres & Hget & Hundef).
      destruct (on_miss s) eqn:Hmiss.
      * destruct (load_each s ids acc) as [e cache'] eqn:El. simpl in *.
        split; [|done]. split; [done |].
        intros [?|Hall]; [done |].
        destruct (Hall x) as [v Hv]; [apply elem_of_cons; by left |].
        congruence.
      * split; [|done]. rewrite Hres. split; intros _; by left.
Qed.

(** X9.  [Bucket.loadContacts] empties the cache and reads, from the
    adapter, the record of every identifier of the order.  It reports an
    error only when the adapter does: on an identifier without a record, and
    only with an adapter that reports a miss as an error; an adapter that
    answers a miss with [null] has the identifier skipped without a word.
    An object goes into the cache under the identifier it carries, the last
    one read if several carry the same.  A text, which is what
    [RoutingTable.setContact] writes, is not parsed: it goes under the
    property ["undefined"], the last one read, and no contact is cached for
    its identifier.  The order and the index are untouched. *)
Theorem loadContacts_rebuilds_cache (b : Bucket) (s : Storage) :
  ((loadContacts b s).1 = Next tt <->
     on_miss s = MissNull \/
     forall id, id ∈ contacts b -> is_Some (contact_entries s !! id)) /\
  (forall id,
     dict_get (_cache (loadContacts b s).2) id
       = last (filter (fun c => nodeID c = id)
                 (omap (object_at s) (contacts b)))) /\
  ((forall id c, object_at s id = Some c -> nodeID c = id) ->
   forall id,
     dict_get (_cache (loadContacts b s).2) id
       = if decide (id ∈ contacts b) then object_at s id else None) /\
  _cache_undefined (loadContacts b s).2
    = last (omap (text_at s) (contacts b)) /\
  contacts (loadContacts b s).2 = contacts b /\
  index (loadContacts b s).2 = index b.
Proof.
  unfold loadContacts.
  destruct (load_each_spec s (contacts b) ([], None))
    as (Hres & Hget & Hundef).
  destruct (load_each s (contacts b) ([], None)) as [e cache] eqn:El.
  simpl in *.
  assert (forall id,
            dict_get cache.1 id
            = last (filter (fun c => nodeID c = id)
                      (omap (object_at s) (contacts b)))) as Hcache.
  { intros id. rewrite Hget. by destruct (last (filter _ _)). }
  split; [|split; [done | split; [|split; [|done]]]].
  - rewrite <- Hres. destruct e; split; done.
  - intros Hkeyed id. rewrite Hcache. clear -Hkeyed.
    induction (contacts b) as [|x l IH]; [done |].
    cbn [omap list_omap].
    destruct (object_at s x) as [cx|] eqn:Ex.
    + rewrite filter_cons. pose proof (Hkeyed x cx Ex) as Hx.
      destruct (decide (nodeID cx = id)) as [Heq|Hne].
      * rewrite last_cons, IH. subst id. rewrite Hx, Ex.
        destruct (decide (x ∈ x :: l)) as [_|Hout].
        -- by destruct (decide (x ∈ l)).
        -- exfalso. apply Hout, elem_of_cons. by left.
      * rewrite IH. destruct (decide (id ∈ l)) as [Hin|Hout].
        -- rewrite decide_True; [done |]. apply elem_of_cons. by right.
        -- rewrite decide_False; [done |].
           rewrite not_elem_of_cons. split; [congruence | done].
    + rewrite IH. destruct (decide (id ∈ l)) as [Hin|Hout].
      * rewrite decide_True; [done |]. apply elem_of_cons. by right.
      * destruct (decide (id = x)) as [->|Hne].
        -- rewrite decide_True by (apply elem_of_cons; by left).
           by rewrite Ex.
        -- rewrite decide_False; [done |].
           rewrite not_elem_of_cons. by split.
  - rewrite Hundef. by case_match.
Qed.

(** [loadContacts] at work.  Over records that [setContact] wrote, with an
    adapter that answers a miss with [null], the order 9, 12, 10 loads
    without an error and without a contact: the cache holds the text of
    peer 12 under ["undefined"] and nothing else.  Over an adapter that
    holds peer 9 as an object and reports a miss as an error, the same order
    caches peer 9, keeps the text of peer 12 under ["undefined"] and reports
    the miss of identifier 10. *)
Lemma loadContacts_on_records :
  loadContacts (mkBucket 156 [9%N; 12%N; 10%N] []) Sample.records
    = (Next tt,
       {| index := 156; contacts := [9%N; 12%N; 10%N]; _cache := [];
          _cache_undefined := Some Sample.recent |}) /\
  loadContacts (mkBucket 156 [9%N; 12%N; 10%N] []) Sample.mixed_records
    = (Fail NotFound,
       {| index := 156; contacts := [9%N; 12%N; 10%N];
          _cache := [(9%N, Sample.early)];
          _cache_undefined := Some Sample.recent |}).
Proof. split; by vm_compute. Qed.

(** X10.  The bounds of [Bucket.getContact]: a position beyond the size of
    the bucket is answered with "Invalid contact index", a position below it
    with what the adapter answers for the identifier there, and the position
    equal to the size passes the test [contacts.length < index] and is
    answered as the adapter answers a key without a record: with its error,
    or with neither an error nor a result.  A position above B fails the
    entry assertion. *)
Theorem Bucket_getContact_bounds (lib : Lib) (b : Bucket) (i : nat)
    (s : Storage) :
  (B lib < i ->
     Bucket_getContact lib b i s = Throw (AssertionError "Invalid index")) /\
  (i <= B lib -> getSize b < i ->
     Bucket_getContact lib b i s = Fail InvalidContactIndex) /\
  (i <= B lib -> i = getSize b ->
     Bucket_getContact lib b i s
       = match on_miss s with
         | MissError => Fail NotFound
         | MissNull => Next None
         end) /\
  (i <= B lib -> i < getSize b ->
     exists id, contacts b !! i = Some id /\
                Bucket_getContact lib b i s = get_contact_entry s id).
Proof.
  unfold Bucket_getContact, get_missing, getSize. repeat split.
  - intros H. by rewrite bool_decide_eq_false_2 by lia.
  - intros H1 H2. rewrite bool_decide_eq_true_2 by done. simpl.
    by rewrite bool_decide_eq_true_2.
  - intros H1 H2. rewrite bool_decide_eq_true_2 by done. simpl.
    rewrite bool_decide_eq_false_2 by lia.
    by rewrite lookup_ge_None_2 by lia.
  - intros H1 H2. rewrite bool_decide_eq_true_2 by done. simpl.
    rewrite bool_decide_eq_false_2 by lia.
    destruct (lookup_lt_is_Some_2 (contacts b) i H2) as [id Hid].
    exists id. by rewrite Hid.
Qed.

(** ** lib/routing-table.js and the router's view of it *)

(** X11.  After [empty] the table counts no contact and lists no index, and
    the snapshot under ['ROUTING-TABLE'] is the empty one; the records of the
    contacts and of the buckets' orders stay in the adapter, as they were. *)
Theorem empty_table_spec (lib : Lib) (w : World) :
  (Router_getSize lib (Router_empty w)).1 = 0 /\
  (getIndexes lib (empty_table w)).1 = [] /\
  (forall c, exists w',
     inTable lib c (empty_table w)
       = (Fail (Error "Contact not found in routing table"), w')) /\
  routing_table_entry (storage (empty_table w)) = Some ∅ /\
  contact_entries (storage (empty_table w)) = contact_entries (storage w) /\
  bucket_entries (storage (empty_table w)) = bucket_entries (storage w) /\
  buckets_entry (storage (empty_table w)) = buckets_entry (storage w).
Proof.
  unfold Router_getSize, Router_empty, RoutingTable_getSize, getIndexes,
    inTable, empty_table, save, _load. simpl.
  rewrite fmap_empty, map_fold_empty, dom_empty_L, elements_empty.
  repeat split; try done.
  intros c. eexists. rewrite bool_decide_eq_false_2; [done |].
  intros (i & b & Hb & _). by rewrite lookup_empty in Hb.
Qed.

(** X12.  A contact written with [setContact] is what [getContact] reads
    under its identifier, built by the transport from the text of the record;
    the records under the other identifiers are not touched, and a later
    write under the same identifier replaces the earlier one.  An identifier
    without a record is answered with the adapter's error when the adapter
    reports a miss as one; when it answers a miss with [null], the answer is
    what the transport makes of [null], an exception of it becoming the
    error of the callback.  A record that is an object, not a text, is
    answered with the error of [JSON.parse].  Neither function touches the
    buckets. *)
Theorem getContact_after_setContact (t : Transport) (c : Contact) (w : World) :
  getContact t (nodeID c) (setContact c w) = Next (_createContact t c) /\
  (forall id, id <> nodeID c ->
     getContact t id (setContact c w) = getContact t id w) /\
  (forall c', nodeID c' = nodeID c ->
     getContact t (nodeID c) (setContact c' (setContact c w))
       = Next (_createContact t c')) /\
  (forall id, contact_entries (storage w) !! id = None ->
     getContact t id w
       = match on_miss (storage w) with
         | MissError => Fail NotFound
         | MissNull =>
             match _createContact_null t with
             | Next c0 => Next c0
             | Fail e | Throw e => Fail e
             end
         end) /\
  (forall id c', contact_entries (storage w) !! id = Some (Object c') ->
     getContact t id w = Fail NotJSON) /\
  _buckets (setContact c w) = _buckets w.
Proof.
  unfold getContact, get_contact_entry, get_missing, setContact. simpl.
  repeat split.
  - by rewrite lookup_insert_eq.
  - intros id Hne. by rewrite lookup_insert_ne.
  - intros c' Heq. by rewrite Heq, lookup_insert_eq.
  - intros id Hnone. rewrite Hnone. by destruct (on_miss (storage w)).
  - intros id c' Hobj. by rewrite Hobj.
Qed.

(** X13.  [getBucket] never adds a bucket to the table.  It hands on the
    bucket that the table, once loaded, has at the index; for an index
    without a bucket the constructor call [new Bucket(index, self)] raises,
    because the routing table it is given as storage has none of the
    adapter's methods, and nothing is created or saved. *)
Theorem getBucket_never_creates (lib : Lib) (i : nat) (w : World) :
  (getBucket lib i w).2 = _load lib w /\
  ((getBucket lib i w).1 = Next i <-> is_Some (bucket_at (_load lib w) i)) /\
  (bucket_at (_load lib w) i = None ->
     exists e, (getBucket lib i w).1 = Throw e).
Proof.
  unfold getBucket, has, bucket_at, Bucket_new.
  destruct (_buckets (_load lib w)) as [m|] eqn:Em; simpl.
  - destruct (m !! i) as [b|] eqn:Eb.
    + rewrite bool_decide_eq_true_2 by eauto. simpl.
      repeat split; eauto. done.
    + rewrite bool_decide_eq_false_2 by (by intros [? ?]). simpl.
      destruct (bool_decide (i <= B lib)); simpl;
        (split; [done |]); (split; [split; [done | by intros [? ?]] |]);
        eauto.
  - destruct (bool_decide (i <= B lib)); simpl;
      (split; [done |]); (split; [split; [done | by intros [? ?]] |]);
      eauto.
Qed.

Lemma hasContact_true (b : Bucket) (id : NodeID) :
  hasContact b id = true <-> id ∈ contacts b.
Proof. unfold hasContact, includes. apply bool_decide_eq_true. Qed.

(** X14.  [isConnected] answers the opposite of what its name says: it
    calls back without an error exactly when no bucket of the table holds the
    contact's identifier, and with the error "Contact already in routing
    table" when one does. *)
Theorem isConnected_iff_not_in_table (lib : Lib) (c : Contact) (w : World) :
  ((isConnected lib c w).1 = Next tt <->
     forall i b, bucket_at (_load lib w) i = Some b ->
                 nodeID c ∉ contacts b) /\
  ((isConnected lib c w).1
     = Fail (Error "Contact already in routing table") <->
     exists i b, bucket_at (_load lib w) i = Some b /\
                 nodeID c ∈ contacts b) /\
  (isConnected lib c w).2 = _load lib w.
Proof.
  unfold isConnected, inTable, bucket_at.
  destruct (decide (map_Exists
                      (fun _ b => hasContact b (nodeID c) = true)
                      (default ∅ (_buckets (_load lib w))))) as [Hex|Hno].
  - rewrite bool_decide_eq_true_2 by done. simpl.
    destruct Hex as (i & b & Hb & Hin). apply hasContact_true in Hin.
    assert (_buckets (_load lib w) ≫= (.!! i) = Some b) as Hat.
    { destruct (_buckets (_load lib w)); simpl in *;
        [done | by rewrite lookup_empty in Hb]. }
    repeat split; try done.
    + intros Hall. by destruct (Hall i b Hat).
    + eauto.
  - rewrite bool_decide_eq_false_2 by done. simpl.
    assert (forall i b, _buckets (_load lib w) ≫= (.!! i) = Some b ->
                        nodeID c ∉ contacts b) as Hall.
    { intros i b Hat Hin. apply Hno. exists i, b. split.
      - destruct (_buckets (_load lib w)); simpl in *; done.
      - by apply hasContact_true. }
    repeat split; try done.
    intros (i & b & Hat & Hin). by destruct (Hall i b Hat).
Qed.

(** ** lib/router.js: the chains on a bucket *)

Lemma removeContact_task_never_plain (ref : nat)
    (results : Contact -> list val) (params : list val) (w w' : World)
    (cl : calls) (args : list val) :
  removeContact_task ref results params w = (cl, w') ->
  first cl = Next args -> exists e, again cl = Some e.
Proof.
  unfold removeContact_task, Bucket_removeContact. intros H Hfirst.
  repeat (case_match; simplify_eq; simpl in * ); eauto; done.
Qed.

(** A chain completes without an error only when its first task calls back
    once, without an error, and the rest of the chain completes. *)
Lemma waterfall_cons_Next {S} (t : task S) (ts : list (task S))
    (args res : list val) (s : S) :
  (waterfall (t :: ts) args s).1 = Next res ->
  exists cl s1 args',
    t args s = (cl, s1) /\ first cl = Next args' /\ again cl = None /\
    (waterfall ts args' s1).1 = Next res.
Proof.
  cbn [waterfall]. destruct (t args s) as [cl s1].
  destruct (first cl) as [args'|e|e] eqn:Hfirst; [| done | done].
  destruct (waterfall ts args' s1) as [r s2] eqn:Hrest.
  destruct (again cl) as [e|] eqn:Hagain; simpl; [done |]. intros ->.
  exists cl, s1, args'. by rewrite Hrest.
Qed.

(** X15.  Neither [Router.removeContact] nor [_moveContactToTail] ever
    calls back without an error.  Both run [Bucket.removeContact] in a
    chain, and its second invocation of the callback, with "Contact not in
    bucket", reaches the completion callback before the rest of the chain
    has run; the caller is told the contact was not in the bucket also when
    it has just been removed, or moved. *)
Theorem removal_chains_always_report_error (lib : Lib) (r : Router)
    (c : Contact) (ref : nat) (w : World) :
  (forall args, (removeContact lib r c w).1 <> Next args) /\
  (forall args, (_moveContactToTail lib c ref w).1 <> Next args).
Proof.
  split; intros args H.
  - unfold removeContact in H. destruct (negb _); [done |].
    apply waterfall_cons_Next in H as (cl0 & w0 & args0 & _ & _ & _ & H).
    apply waterfall_cons_Next in H
      as (cl & w1 & args' & Hrm & Hfirst & Hagain & _).
    unfold bound in Hrm.
    destruct (arg 0 ([] ++ args0 ++ [VFunction])); try by simplify_eq.
    destruct (removeContact_task_never_plain _ _ _ _ _ _ _ Hrm Hfirst)
      as [e He].
    congruence.
  - apply waterfall_cons_Next in H
      as (cl & w1 & args' & Hrm & Hfirst & Hagain & _).
    destruct (removeContact_task_never_plain _ _ _ _ _ _ _ Hrm Hfirst)
      as [e He].
    congruence.
Qed.

Lemma indexOf_middle {A} `{EqDecision A} (l1 l2 : list A) (x : A) :
  x ∉ l1 -> indexOf (l1 ++ x :: l2) x = Some (length l1).
Proof.
  induction l1 as [|y l1 IH]; simpl; intros Hout.
  - by rewrite decide_True.
  - apply not_elem_of_cons in Hout as [Hne Hout].
    rewrite decide_False by done. by rewrite IH.
Qed.

Lemma indexOf_splice_in {A} `{EqDecision A} (l : list A) (x : A)
    (idx : nat) :
  x ∉ l -> idx <= length l -> indexOf (splice_in idx x l) x = Some idx.
Proof.
  intros Hout Hidx. unfold splice_in. rewrite indexOf_middle.
  - by rewrite length_take, Nat.min_l.
  - intros Hin. apply Hout. by apply (subseteq_take idx l).
Qed.

Lemma bucket_at_set_bucket (w : World) (ref : nat) (b b' : Bucket) :
  bucket_at w ref = Some b -> bucket_at (set_bucket w ref b') ref = Some b'.
Proof.
  unfold bucket_at, set_bucket. destruct (_buckets w) as [m|]; [|done].
  simpl. intros _. apply lookup_insert_eq.
Qed.

Lemma set_bucket_same (w : World) (ref : nat) (b : Bucket) :
  bucket_at w ref = Some b -> set_bucket w ref b = w.
Proof.
  unfold bucket_at, set_bucket. destruct w as [s [m|] ev]; [|done].
  simpl. intros Hat. by rewrite insert_id.
Qed.

(** [addContact] on a bucket with room that does not hold the contact: the
    identifier is spliced into the order. *)
Lemma addContact_splices (lib : Lib) (b : Bucket) (c : Contact) :
  getSize b <> K lib -> nodeID c ∉ contacts b ->
  cached (_cache b) (contacts b) ->
  exists idx,
    idx <= length (contacts b) /\
    addContact lib b c
      = (Next c,
         {| index := index b;
            contacts := splice_in idx (nodeID c) (contacts b);
            _cache := dict_set (_cache b) (nodeID c) c;
            _cache_undefined := _cache_undefined b |}).
Proof.
  intros Hroom Habsent Hcached. unfold addContact.
  rewrite decide_False by done. unfold includes.
  rewrite bool_decide_eq_false_2 by done. simpl.
  destruct (sortedIndex_spec (_cache b) (contacts b) c Hcached Habsent)
    as (idx & -> & Hidx & _).
  by exists idx.
Qed.

(** [Bucket.removeContact] on a bucket that holds the contact. *)
Lemma Bucket_removeContact_present (b : Bucket) (c : Contact) :
  nodeID c ∈ contacts b ->
  exists i,
    contacts b !! i = Some (nodeID c) /\
    Bucket_removeContact b c
      = ([Next c; Fail ContactNotInBucket],
         {| index := index b; contacts := splice_out i (contacts b);
            _cache := _cache b;
            _cache_undefined := _cache_undefined b |}).
Proof.
  intros Hin. unfold Bucket_removeContact.
  destruct (indexOf (contacts b) (nodeID c)) as [i|] eqn:E;
    [|by apply indexOf_None in E].
  exists i. split; [by apply indexOf_Some | done].
Qed.

(** X16.  [_moveContactToHead] on a bucket of the table.  When the bucket
    has room and does not hold the contact, the chain completes: the contact
    is in the bucket's order, its record and the bucket's order are written
    to the adapter, and the one event emitted, [add], carries the bucket's
    index and the position the contact now has.  When the bucket is full the
    chain ends with "Bucket full" and nothing has changed.  When the bucket
    holds the contact already the chain ends with "Contact already in
    bucket": nothing is written and no event is emitted, but the cache has
    taken the new record. *)
Theorem moveContactToHead_spec (lib : Lib) (c : Contact) (ref : nat)
    (w : World) (b : Bucket) :
  bucket_at w ref = Some b ->
  (getSize b = K lib ->
   _moveContactToHead lib c ref w = (Fail BucketFull, w)) /\
  (getSize b <> K lib -> nodeID c ∈ contacts b ->
   _moveContactToHead lib c ref w
     = (Fail ContactAlreadyInBucket,
        set_bucket w ref
          {| index := index b; contacts := contacts b;
             _cache := dict_set (_cache b) (nodeID c) c;
             _cache_undefined := _cache_undefined b |})) /\
  (getSize b <> K lib -> nodeID c ∉ contacts b ->
   cached (_cache b) (contacts b) ->
   exists idx b',
     addContact lib b c = (Next c, b') /\
     contacts b' !! idx = Some (nodeID c) /\
     _moveContactToHead lib c ref w
       = (Next [],
          {| storage := Bucket_save b' (put_contact_entry (storage w) c);
             _buckets := <[ref := b']> <$> _buckets w;
             events := events w ++ [EvAdd c (index b) (Some idx)] |})).
Proof.
  intros Hat.
  split; [|split]; unfold _moveContactToHead; cbn [waterfall];
    unfold bound at 1; unfold addContact_task; simpl; rewrite Hat.
  - intros Hfull. unfold addContact. rewrite decide_True by done. simpl.
    by rewrite set_bucket_same.
  - intros Hroom Hin. unfold addContact. rewrite decide_False by done.
    unfold includes. by rewrite bool_decide_eq_true_2.
  - intros Hroom Habsent Hcached.
    destruct (addContact_splices lib b c Hroom Habsent Hcached)
      as (idx & Hidx & Hadd).
    exists idx. eexists. split; [exact Hadd |]. split.
    { simpl. rewrite splice_in_lookup by done.
      rewrite decide_False by lia. by rewrite decide_True. }
    rewrite Hadd. simpl. unfold bound, save_task. simpl.
    unfold bucket_at, setContact, set_bucket. simpl.
    unfold bucket_at in Hat. destruct (_buckets w) as [m|]; [|done].
    simpl. rewrite lookup_insert_eq. simpl.
    unfold emit_task, emit, position_of, index_of_bucket, bucket_at. simpl.
    rewrite lookup_insert_eq. simpl. unfold Bucket_indexOf. simpl.
    by rewrite indexOf_splice_in.
Qed.

(** X16 on the sample table: peer 10 is added to bucket 156. *)
Lemma moveContactToHead_spec_witness :
  (getSize Sample.bucket = K Kad.lib ->
   _moveContactToHead Kad.lib Sample.between 156 Sample.world
     = (Fail BucketFull, Sample.world)) /\
  (getSize Sample.bucket <> K Kad.lib ->
   nodeID Sample.between ∈ contacts Sample.bucket ->
   _moveContactToHead Kad.lib Sample.between 156 Sample.world
     = (Fail ContactAlreadyInBucket,
        set_bucket Sample.world 156
          {| index := index Sample.bucket;
             contacts := contacts Sample.bucket;
             _cache := dict_set (_cache Sample.bucket)
                         (nodeID Sample.between) Sample.between;
             _cache_undefined := None |})) /\
  (getSize Sample.bucket <> K Kad.lib ->
   nodeID Sample.between ∉ contacts Sample.bucket ->
   cached (_cache Sample.bucket) (contacts Sample.bucket) ->
   exists idx b',
     addContact Kad.lib Sample.bucket Sample.between
       = (Next Sample.between, b') /\
     contacts b' !! idx = Some (nodeID Sample.between) /\
     _moveContactToHead Kad.lib Sample.between 156 Sample.world
       = (Next [],
          {| storage :=
               Bucket_save b'
                 (put_contact_entry (storage Sample.world) Sample.between);
             _buckets := <[156 := b']> <$> _buckets Sample.world;
             events :=
               events Sample.world
               ++ [EvAdd Sample.between (index Sample.bucket) (Some idx)] |})).
Proof.
  apply (moveContactToHead_spec Kad.lib Sample.between 156 Sample.world
           Sample.bucket).
  reflexivity.
Defined.

(** X17.  [_moveContactToTail] on a bucket that holds the contact (an order
    of distinct identifiers, at most K of them, each with its cache entry):
    the contact is taken out and put back where its time stamp belongs, its
    record and the bucket's order are written to the adapter and [shift] is
    emitted with the new position; the bucket holds the same identifiers as
    before.  The callback nevertheless receives "Contact not in bucket",
    from the second callback invocation of [Bucket.removeContact]. *)
Theorem moveContactToTail_moves_and_reports_error (lib : Lib) (c : Contact)
    (ref : nat) (w : World) (b : Bucket) :
  bucket_at w ref = Some b ->
  nodeID c ∈ contacts b -> NoDup (contacts b) -> getSize b <= K lib ->
  cached (_cache b) (contacts b) ->
  exists idx b',
    _moveContactToTail lib c ref w
      = (Fail ContactNotInBucket,
         {| storage := Bucket_save b' (put_contact_entry (storage w) c);
            _buckets := <[ref := b']> <$> _buckets w;
            events := events w ++ [EvShift c (index b) (Some idx)] |}) /\
    contacts b' !! idx = Some (nodeID c) /\
    contacts b' ≡ₚ contacts b /\
    dict_get (_cache b') (nodeID c) = Some c /\
    index b' = index b.
Proof.
  intros Hat Hin Hnodup Hsize Hcached.
  destruct (Bucket_removeContact_present b c Hin) as (i & Hi & Hrm).
  pose proof (splice_out_Permutation _ _ _ Hi) as Hperm.
  set (b1 := {| index := index b; contacts := splice_out i (contacts b);
                _cache := _cache b;
                _cache_undefined := _cache_undefined b |}) in *.
  assert (nodeID c ∉ contacts b1) as Hgone.
  { rewrite <- Hperm in Hnodup. by apply NoDup_cons in Hnodup as [? _]. }
  assert (getSize b1 <> K lib) as Hroom.
  { unfold getSize in *. apply Permutation_length in Hperm.
    simpl in Hperm |- *. lia. }
  assert (cached (_cache b1) (contacts b1)) as Hcached1.
  { intros id Hid. apply Hcached. rewrite <- Hperm.
    apply elem_of_cons; by right. }
  destruct (addContact_splices lib b1 c Hroom Hgone Hcached1)
    as (idx & Hidx & Hadd).
  exists idx. eexists. split; [|split; [|split; [|split]]].
  - unfold _moveContactToTail. cbn [waterfall].
    unfold bound at 1. unfold removeContact_task. simpl.
    rewrite Hat, Hrm. simpl.
    unfold bound at 1. unfold addContact_task. simpl.
    rewrite (bucket_at_set_bucket w ref b b1 Hat), Hadd. simpl.
    unfold bound, save_task. simpl.
    unfold bucket_at, setContact, set_bucket. simpl.
    unfold bucket_at in Hat. destruct (_buckets w) as [m|]; [|done].
    simpl. rewrite lookup_insert_eq. simpl.
    unfold emit_task, emit, position_of, index_of_bucket, bucket_at. simpl.
    rewrite lookup_insert_eq. simpl. unfold Bucket_indexOf. simpl.
    rewrite insert_insert_eq.
    by rewrite indexOf_splice_in by auto.
  - simpl. rewrite splice_in_lookup by done.
    rewrite decide_False by lia. by rewrite decide_True.
  - simpl. by rewrite splice_in_Permutation.
  - simpl. apply dict_get_set_eq.
  - done.
Qed.

(** X17 on the sample table: peer 9, heard of again, is moved. *)
Lemma moveContactToTail_moves_and_reports_error_witness :
  exists idx b',
    _moveContactToTail Kad.lib Sample.early_again 156 Sample.world
      = (Fail ContactNotInBucket,
         {| storage :=
              Bucket_save b'
                (put_contact_entry (storage Sample.world)
                   Sample.early_again);
            _buckets := <[156 := b']> <$> _buckets Sample.world;
            events :=
              events Sample.world
              ++ [EvShift Sample.early_again (index Sample.bucket)
                    (Some idx)] |}) /\
    contacts b' !! idx = Some (nodeID Sample.early_again) /\
    contacts b' ≡ₚ contacts Sample.bucket /\
    dict_get (_cache b') (nodeID Sample.early_again)
      = Some Sample.early_again /\
    index b' = index Sample.bucket.
Proof.
  apply (moveContactToTail_moves_and_reports_error Kad.lib
           Sample.early_again 156 Sample.world Sample.bucket).
  - reflexivity.
  - compute_done.
  - compute_done.
  - vm_compute. lia.
  - apply cached_Forall. compute_done.
Defined.

(** ** lib/router.js: the nearest contacts of a bucket *)

(** X18.  [_getNearestFromBucket] on a bucket of the table whose cache holds
    contacts only returns contacts of the bucket's cache, in ascending order
    of distance to the key, as many as the limit allows; no contact it
    leaves out is nearer to the key than one it returns. *)
Theorem getNearestFromBucket_spec (w : World) (ref : nat) (b : Bucket)
    (target : NodeID) (n : nat) :
  bucket_at w ref = Some b ->
  _cache_undefined b = None ->
  exists nearest rest,
    _getNearestFromBucket w (VBucket ref) target n = Next nearest /\
    length nearest = n `min` length (getContactList b) /\
    nearest ++ rest ≡ₚ getContactList b /\
    StronglySorted (closer target) nearest /\
    forall c c', c ∈ nearest -> c' ∈ rest ->
      (getDistance (nodeID c) target <= getDistance (nodeID c') target)%N.
Proof.
  intros Hat Hcache. unfold _getNearestFromBucket. rewrite Hat, Hcache.
  pose proof (merge_sort_Permutation (closer target) (getContactList b))
    as Hperm.
  pose proof (StronglySorted_merge_sort (closer target) (getContactList b))
    as Hsorted.
  fold (sort_by_distance target (getContactList b)) in Hperm, Hsorted.
  exists (take n (sort_by_distance target (getContactList b))),
    (drop n (sort_by_distance target (getContactList b))).
  split; [done |]. split.
  { by rewrite length_take, <- (Permutation_length Hperm). }
  split; [by rewrite take_drop |].
  rewrite <- (take_drop n (sort_by_distance target (getContactList b)))
    in Hsorted.
  apply StronglySorted_app in Hsorted as (Hcross & Htake & _).
  split; [done |]. intros c c' Hc Hc'. apply closer_le. by apply Hcross.
Qed.

(** X18 on the sample table: the one contact nearest to identifier 12. *)
Lemma getNearestFromBucket_spec_witness :
  exists nearest rest,
    _getNearestFromBucket Sample.world (VBucket 156) 12%N 1 = Next nearest /\
    length nearest = 1 `min` length (getContactList Sample.bucket) /\
    nearest ++ rest ≡ₚ getContactList Sample.bucket /\
    StronglySorted (closer 12%N) nearest /\
    forall c c', c ∈ nearest -> c' ∈ rest ->
      (getDistance (nodeID c) 12%N <= getDistance (nodeID c') 12%N)%N.
Proof.
  apply (getNearestFromBucket_spec Sample.world 156 Sample.bucket 12%N 1);
    reflexivity.
Defined.

Lemma foldl_addToContacts (n : nat) (exclude : option NodeID)
    (nearest acc : list Contact) :
  length nearest <= n - length acc ->
  foldl (addToContacts n exclude) acc nearest
    = acc ++ filter (fun c => Some (nodeID c) <> exclude) nearest.
Proof.
  revert acc. induction nearest as [|c nearest IH]; intros acc Hlen.
  - simpl. by rewrite app_nil_r.
  - simpl in Hlen. cbn [foldl]. unfold addToContacts at 2.
    rewrite bool_decide_eq_true_2 by lia. simpl.
    rewrite filter_cons. case_bool_decide as Hc; case_decide; try done.
    + rewrite IH by (rewrite length_app; simpl; lia).
      by rewrite <- app_assoc.
    + rewrite IH by lia. done.
Qed.

(** X19.  [addNearestFromBucket] on a bucket of the table whose cache holds
    contacts only appends to the pool the bucket's [limit - |pool|] nearest
    contacts, in order of distance, without the excluded one.  The bucket is
    cut to the free places before the excluded contact is dropped, so the
    pool never grows beyond the limit, the "pool not full" test of
    [addToContacts] never fails, and an excluded contact among the nearest
    costs a place. *)
Theorem addNearestFromBucket_spec (lib : Lib) (k : string) (n : nat)
    (exclude : option NodeID) (ref : nat) (b : Bucket) (w : World)
    (acc : list Contact) :
  bucket_at w ref = Some b ->
  _cache_undefined b = None ->
  exists added,
    addNearestFromBucket lib k n exclude (VBucket ref) (w, acc)
      = (Next tt, (w, acc ++ added)) /\
    added = filter (fun c => Some (nodeID c) <> exclude)
              (take (n - length acc)
                 (sort_by_distance (createID lib k) (getContactList b))) /\
    (length acc <= n -> length (acc ++ added) <= n) /\
    (forall c, c ∈ added ->
       c ∈ getContactList b /\ Some (nodeID c) <> exclude).
Proof.
  intros Hat Hcache. unfold addNearestFromBucket, _getNearestFromBucket.
  rewrite Hat, Hcache. eexists. split; [|split; [reflexivity |]].
  - rewrite foldl_addToContacts; [done |]. rewrite length_take. lia.
  - split.
    + intros Hacc. rewrite length_app.
      pose proof (length_filter (fun c => Some (nodeID c) <> exclude)
                    (take (n - length acc)
                       (sort_by_distance (createID lib k)
                          (getContactList b)))) as Hfilter.
      rewrite length_take in Hfilter. lia.
    + intros c [Hne Hc]%list_elem_of_filter. split; [|done].
      apply (subseteq_take (n - length acc)) in Hc.
      by rewrite <- (merge_sort_Permutation (closer (createID lib k))
                       (getContactList b)).
Qed.

(** X19 on the sample table: asked for one contact near the key, peer 12
    excluded. *)
Lemma addNearestFromBucket_spec_witness :
  exists added,
    addNearestFromBucket Kad.lib Kad.a_key 1 (Some 12%N) (VBucket 156)
        (Sample.world, [])
      = (Next tt, (Sample.world, [] ++ added)) /\
    added = filter (fun c => Some (nodeID c) <> Some 12%N)
              (take (1 - length (@nil Contact))
                 (sort_by_distance (createID Kad.lib Kad.a_key)
                    (getContactList Sample.bucket))) /\
    (length (@nil Contact) <= 1 -> length ([] ++ added) <= 1) /\
    (forall c, c ∈ added ->
       c ∈ getContactList Sample.bucket /\ Some (nodeID c) <> Some 12%N).
Proof.
  apply (addNearestFromBucket_spec Kad.lib Kad.a_key 1 (Some 12%N) 156
           Sample.bucket Sample.world []); reflexivity.
Defined.

(** ** lib/router.js: the lookups as the table serves them *)

(** [getNearestContacts] answers with the empty list, or raises. *)
Lemma getNearestContacts_cases (lib : Lib) (r : Router) (k : string)
    (n : nat) (exclude : option NodeID) (w : World) :
  (exists w', getNearestContacts lib r k n exclude w = (Next [], w')) \/
  (exists e w', getNearestContacts lib r k n exclude w = (Throw e, w')).
Proof.
  unfold getNearestContacts.
  destruct (createBucket_adds_nothing lib k n exclude
              (getBucketIndex lib (nodeID (_self r)) (createID lib k)) w [])
    as [[w1 ->]|(e & [w1 a1] & ->)]; [|eauto].
  destruct (visit_adds_nothing lib k n exclude
              (seq (S (getBucketIndex lib (nodeID (_self r))
                         (createID lib k)))
                 (B lib - 1
                  - getBucketIndex lib (nodeID (_self r)) (createID lib k)))
              w1 [])
    as [[w2 ->]|(e & [w2 a2] & ->)]; [|eauto].
  destruct (visit_adds_nothing lib k n exclude
              (reverse (seq 0 (getBucketIndex lib (nodeID (_self r))
                                 (createID lib k))))
              w2 [])
    as [[w3 ->]|(e & [w3 a3] & ->)]; eauto.
Qed.

(** How [lookup] ends, whatever the table, the transport and the bound. *)
Lemma lookup_cases (lib : Lib) (r : Router) (t : Transport) (fuel : nat)
    (ty : lookup_type) (k : string) (w : World) :
  exists o run w',
    lookup lib r t fuel ty k w = (o, run, w') /\
    (o = Rejected NotConnected \/ exists e, o = Raised e) /\
    sent run = [] /\ started run = [].
Proof.
  unfold lookup.
  destruct (getNearestContacts_cases lib r k (ALPHA lib)
              (Some (nodeID (_self r))) w) as [[w' ->]|(e & w' & ->)];
    simpl; eauto 10.
Qed.

(** X20.  As the code stands no [lookup] reaches the network: on every
    table, with every transport, it ends with "Not connected to any peers"
    or with an exception, before a message has been handed to the transport
    and before a chain on the routing table has been started.  Its shortlist
    comes from [getNearestContacts], which delivers no contact. *)
Theorem lookup_never_queries (lib : Lib) (r : Router) (t : Transport)
    (fuel : nat) (ty : lookup_type) (k : string) (w : World) :
  (lookup lib r t fuel ty k w).1.1 <> OutOfFuel /\
  (forall ty' res,
     (lookup lib r t fuel ty k w).1.1 <> Resolved ty' res) /\
  (forall e, (lookup lib r t fuel ty k w).1.1 = Rejected e ->
     e = NotConnected) /\
  sent (lookup lib r t fuel ty k w).1.2 = [] /\
  started (lookup lib r t fuel ty k w).1.2 = [].
Proof.
  destruct (lookup_cases lib r t fuel ty k w)
    as (o & run & w' & -> & [->|[e ->]] & Hsent & Hstarted); simpl;
    repeat split; try done; congruence.
Qed.

(** X21.  [findValue] never delivers a value and [findNode] never delivers
    contacts; neither sends a message.  [findNode] passes the error of the
    lookup on, "Not connected to any peers"; [findValue] replaces it by
    "Failed to find value for key: " followed by the key. *)
Theorem findValue_findNode_fail (lib : Lib) (r : Router) (t : Transport)
    (fuel : nat) (k : string) (w : World) :
  ((findValue lib r t fuel k w).1.1
     = Some (Fail (Error ("Failed to find value for key: " +:+ k))) \/
   exists e, (findValue lib r t fuel k w).1.1 = Some (Throw e)) /\
  sent (findValue lib r t fuel k w).1.2 = [] /\
  ((findNode lib r t fuel k w).1.1 = Some (Fail NotConnected) \/
   exists e, (findNode lib r t fuel k w).1.1 = Some (Throw e)) /\
  sent (findNode lib r t fuel k w).1.2 = [].
Proof.
  unfold findValue, findNode.
  destruct (lookup_cases lib r t fuel VALUE k w)
    as (o & run & w' & -> & [->|[e ->]] & Hsent & _);
  destruct (lookup_cases lib r t fuel NODE k w)
    as (o' & run' & w'' & -> & [->|[e' ->]] & Hsent' & _);
  simpl; eauto 10.
Qed.

(** X22.  [getContactByNodeID] takes the contact from the adapter when its
    record is there: it answers with the contact the transport builds from
    the record, sends nothing and leaves the table alone.  So it does with
    whatever contact [getContact] answers.  When the adapter reports an
    error, and whenever [getContact] answers with one, it falls back on a
    lookup, which finds no contact: the answer is "Not connected to any
    peers" or an exception, and no message is sent. *)
Theorem getContactByNodeID_spec (lib : Lib) (r : Router) (t : Transport)
    (fuel : nat) (hex : NodeID -> string) (id : NodeID) (w : World) :
  (forall c, get_contact_entry (storage w) id = Next (Some (Text c)) ->
     getContactByNodeID lib r t fuel hex id w
       = (Some (Next (_createContact t c)), [], w)) /\
  (forall c, getContact t id w = Next c ->
     getContactByNodeID lib r t fuel hex id w = (Some (Next c), [], w)) /\
  (forall e, get_contact_entry (storage w) id = Fail e ->
     ((getContactByNodeID lib r t fuel hex id w).1.1
        = Some (Fail NotConnected) \/
      exists e', (getContactByNodeID lib r t fuel hex id w).1.1
                 = Some (Throw e')) /\
     (getContactByNodeID lib r t fuel hex id w).1.2 = []) /\
  (forall e, getContact t id w = Fail e ->
     ((getContactByNodeID lib r t fuel hex id w).1.1
        = Some (Fail NotConnected) \/
      exists e', (getContactByNodeID lib r t fuel hex id w).1.1
                 = Some (Throw e')) /\
     (getContactByNodeID lib r t fuel hex id w).1.2 = []).
Proof.
  assert (forall e, getContact t id w = Fail e ->
     ((getContactByNodeID lib r t fuel hex id w).1.1
        = Some (Fail NotConnected) \/
      exists e', (getContactByNodeID lib r t fuel hex id w).1.1
                 = Some (Throw e')) /\
     (getContactByNodeID lib r t fuel hex id w).1.2 = []) as Hfallback.
  { intros e He. unfold getContactByNodeID. rewrite He.
    destruct (lookup_cases lib r t fuel NODE (hex id) w)
      as (o & run & w' & -> & [->|[e' ->]] & Hsent & _); simpl; eauto. }
  split; [|split; [|split; [|done]]].
  - intros c Hc. unfold getContactByNodeID, getContact. by rewrite Hc.
  - intros c Hc. unfold getContactByNodeID. by rewrite Hc.
  - intros e He. apply (Hfallback e). unfold getContact. by rewrite He.
Qed.

(** ** lib/router.js: the shortlist *)

Lemma find_by_nodeID_cons (id : NodeID) (c : Contact) (l : list Contact) :
  find_by_nodeID id (c :: l)
    = if decide (nodeID c = id) then Some c else find_by_nodeID id l.
Proof.
  unfold find_by_nodeID. cbn [list_find].
  destruct (decide (nodeID c = id)); [done |].
  by destruct (list_find _ l) as [[i c']|].
Qed.

Lemma find_by_nodeID_None (id : NodeID) (l : list Contact) :
  find_by_nodeID id l = None <-> id ∉ nodeID <$> l.
Proof.
  induction l as [|c l IH].
  - split; [intros _; apply not_elem_of_nil | done].
  - rewrite find_by_nodeID_cons, fmap_cons, not_elem_of_cons.
    destruct (decide (nodeID c = id)) as [<-|Hne].
    + split; [done | by intros [? _]].
    + rewrite IH. split; [by intros ?; split | by intros [_ ?]].
Qed.

Lemma uniq_by_nodeID_spec (l : list Contact) (seen_ids : list NodeID) :
  (forall id, find_by_nodeID id (uniq_by_nodeID seen_ids l)
              = if decide (id ∈ seen_ids) then None
                else find_by_nodeID id l) /\
  NoDup (nodeID <$> uniq_by_nodeID seen_ids l) /\
  uniq_by_nodeID seen_ids l `sublist_of` l.
Proof.
  revert seen_ids. induction l as [|c l IH]; intros seen_ids.
  - simpl. split; [|split; [constructor | done]].
    intros id. by destruct (decide _).
  - cbn [uniq_by_nodeID]. case_bool_decide as Hc.
    + destruct (IH seen_ids) as (Hfind & Hnodup & Hsub).
      split; [|split; [done | by apply sublist_cons]].
      intros id. rewrite Hfind, find_by_nodeID_cons.
      destruct (decide (id ∈ seen_ids)); [done |].
      destruct (decide (nodeID c = id)) as [<-|]; done.
    + destruct (IH (nodeID c :: seen_ids)) as (Hfind & Hnodup & Hsub).
      split; [|split; [|by apply sublist_skip]].
      * intros id. rewrite !find_by_nodeID_cons, Hfind.
        destruct (decide (nodeID c = id)) as [<-|Hne].
        -- by rewrite decide_False.
        -- destruct (decide (id ∈ seen_ids)) as [Hin|Hout].
           ++ rewrite decide_True; [done |]. apply elem_of_cons. by right.
           ++ rewrite decide_False; [done |].
              rewrite not_elem_of_cons. by split.
      * rewrite fmap_cons. apply NoDup_cons. split; [|done].
        apply find_by_nodeID_None. rewrite Hfind.
        rewrite decide_True; [done |]. apply elem_of_cons. by left.
Qed.

Lemma uniq_by_nodeID_prefix (l1 l2 : list Contact)
    (seen_ids : list NodeID) :
  NoDup (nodeID <$> l1) ->
  (forall id, id ∈ nodeID <$> l1 -> id ∉ seen_ids) ->
  uniq_by_nodeID seen_ids (l1 ++ l2)
    = l1 ++ uniq_by_nodeID (reverse (nodeID <$> l1) ++ seen_ids) l2.
Proof.
  revert seen_ids. induction l1 as [|c l1 IH]; intros seen_ids Hnodup Hout.
  - done.
  - rewrite fmap_cons in Hnodup, Hout.
    apply NoDup_cons in Hnodup as [Hc Hnodup].
    cbn [app uniq_by_nodeID].
    rewrite bool_decide_eq_false_2
      by (apply Hout, elem_of_cons; by left).
    rewrite IH; [| done |].
    + rewrite fmap_cons, reverse_cons, <- app_assoc. done.
    + intros id Hid [->|Hin]%elem_of_cons; [done |].
      apply (Hout id); [|done]. apply elem_of_cons. by right.
Qed.

(** X23.  [_addToShortList] leaves one contact for each node identifier in
    the shortlist, the first one that the old shortlist followed by the new
    contacts holds: looking a node identifier up gives the same contact
    before and after the duplicates are dropped, and the order is kept.  A
    shortlist that held no identifier twice is a prefix of the new one.
    Nothing else of the state changes. *)
Theorem addToShortList_spec (s : LookupState) (cs : list Contact) :
  exists l,
    _addToShortList s (Some cs) = Next (set_shortlist s l) /\
    NoDup (nodeID <$> l) /\
    (forall id,
       find_by_nodeID id l = find_by_nodeID id (shortlist s ++ cs)) /\
    l `sublist_of` shortlist s ++ cs /\
    (NoDup (nodeID <$> shortlist s) -> shortlist s `prefix_of` l).
Proof.
  exists (uniq_by_nodeID [] (shortlist s ++ cs)). split; [done |].
  destruct (uniq_by_nodeID_spec (shortlist s ++ cs) [])
    as (Hfind & Hnodup & Hsub).
  split; [done |]. split.
  { intros id. rewrite Hfind. rewrite decide_False; [done |].
    apply not_elem_of_nil. }
  split; [done |].
  intros Hs. rewrite uniq_by_nodeID_prefix; [by eexists | done |].
  intros id _. apply not_elem_of_nil.
Qed.

(** ** lib/router.js: the state of a lookup over its batches *)

Lemma lookup_progress_refl (s : LookupState) : lookup_progress s s.
Proof. unfold lookup_progress. repeat split; eauto. Qed.

Lemma lookup_progress_trans (s1 s2 s3 : LookupState) :
  lookup_progress s1 s2 -> lookup_progress s2 s3 -> lookup_progress s1 s3.
Proof.
  intros (Ht & Hk & Hh & Hc & Hf & Hcl & Hd & Hn)
         (Ht' & Hk' & Hh' & Hc' & Hf' & Hcl' & Hd' & Hn').
  unfold lookup_progress.
  split; [congruence |]. split; [congruence |]. split; [congruence |].
  split; [by transitivity (contacted s2) |].
  split; [auto |]. split; [auto |]. split.
  - intros d Hd1. destruct (Hd d Hd1) as (d2 & Hd2 & Hle).
    destruct (Hd' d2 Hd2) as (d3 & Hd3 & Hle'). exists d3. split; [done | lia].
  - intros Hnode. destruct (Hn Hnode) as (<- & <- & <- & <-).
    apply Hn'. congruence.
Qed.

Lemma lookup_progress_set_shortlist (s : LookupState) (l : list Contact) :
  lookup_progress s (set_shortlist s l).
Proof.
  unfold lookup_progress, closest_consistent. simpl. repeat split; eauto.
Qed.

Lemma compareKeys_lt (a b : N) : compareKeys a b = (-1)%Z <-> (a < b)%N.
Proof.
  unfold compareKeys. destruct (N.compare_spec a b); split; intros; lia.
Qed.

Lemma lookup_progress_note_responder (s : LookupState) (c : Contact) :
  lookup_progress s (note_responder s c).
Proof.
  unfold lookup_progress, closest_consistent, note_responder. simpl.
  split; [done |]. split; [done |]. split; [done |].
  split; [apply union_subseteq_r |]. split; [done |]. split; [|split].
  - intros (c0 & Hc0 & Hd0). rewrite Hd0.
    case_bool_decide; eauto.
  - intros d ->. case_bool_decide as Hlt; [|by eexists].
    apply compareKeys_lt in Hlt. eexists. split; [done | lia].
  - done.
Qed.

Lemma lookup_progress_push (s : LookupState) (c : Contact) :
  type s = VALUE -> lookup_progress s (push_without_value s c).
Proof.
  intros Hty. unfold lookup_progress, closest_consistent. simpl.
  repeat split; eauto; congruence.
Qed.

Lemma validateFindResult_progress (lib : Lib) (r : Router) (run : Run)
    (it : Item) (c : Contact) :
  type (state run) = VALUE ->
  lookup_progress (state run)
    (state (_validateFindResult lib r run it c).2) /\
  sent (_validateFindResult lib r run it c).2 = sent run.
Proof.
  intros Hty. unfold _validateFindResult, call_removeContact.
  destruct (negb _); [destruct (index_assertion _ _ _) |]; simpl.
  - split; [apply lookup_progress_set_shortlist | done].
  - split; [apply lookup_progress_set_shortlist | done].
  - split; [|done]. unfold lookup_progress, closest_consistent. simpl.
    repeat split; eauto; congruence.
Qed.

Lemma handleFindResult_progress (lib : Lib) (r : Router) (t : Transport)
    (run : Run) (nodes : option (list Contact)) (it : option Item)
    (c : Contact) :
  lookup_progress (state run)
    (state (_handleFindResult lib r t run nodes it c).2) /\
  sent (_handleFindResult lib r t run nodes it c).2 = sent run.
Proof.
  unfold _handleFindResult.
  destruct (negb _); [split; [apply lookup_progress_refl | done] |].
  pose proof (lookup_progress_note_responder (state run) (seen (now t) c))
    as Hnote.
  set (run1 := with_state (start run (OpUpdateContact (seen (now t) c)))
                 (note_responder (state run) (seen (now t) c))) in *.
  assert (type (state run1) = type (state run)) as Htype by done.
  assert (sent run1 = sent run) as Hsent by done.
  change (note_responder (state run) (seen (now t) c))
    with (state run1) in Hnote.
  clearbody run1.
  destruct (type (state run1)) eqn:Hty1.
  - destruct nodes as [nodes|]; simpl; [|done].
    split; [|done].
    eapply lookup_progress_trans; [exact Hnote |].
    apply lookup_progress_set_shortlist.
  - destruct it as [it|].
    + destruct (validateFindResult_progress lib r run1 it
                  (seen (now t) c) Hty1) as [Hp Hs].
      split; [by eapply lookup_progress_trans | congruence].
    + pose proof (lookup_progress_push (state run1) (seen (now t) c) Hty1)
        as Hpush.
      destruct nodes as [nodes|]; simpl.
      * split; [|done].
        eapply lookup_progress_trans; [exact Hnote |].
        eapply lookup_progress_trans; [exact Hpush |].
        apply lookup_progress_set_shortlist.
      * split; [by eapply lookup_progress_trans | done].
Qed.

Lemma queryContact_progress (lib : Lib) (r : Router) (t : Transport)
    (batch : nat) (run : Run) (c : Contact) :
  lookup_progress (state run) (state (_queryContact lib r t batch run c).2) /\
  sent (_queryContact lib r t batch run c).2 = sent run.
Proof.
  unfold _queryContact, on_answer.
  destruct (answer t batch _ _) as [e|nodes it].
  - unfold call_removeContact. destruct (index_assertion _ _ _); simpl;
      (split; [apply lookup_progress_set_shortlist | done]).
  - apply handleFindResult_progress.
Qed.

Lemma handle_answers_progress (lib : Lib) (r : Router) (t : Transport)
    (batch : nat) (cs : list Contact) (failures : nat) (run : Run) :
  lookup_progress (state run)
    (state (handle_answers lib r t batch cs failures run).2) /\
  sent (handle_answers lib r t batch cs failures run).2 = sent run.
Proof.
  revert failures run.
  induction cs as [|c cs IH]; intros failures run; cbn [handle_answers].
  - split; [apply lookup_progress_refl | done].
  - pose proof (queryContact_progress lib r t batch run c) as [Hp Hs].
    destruct (_queryContact lib r t batch run c) as [[[]|e|e] run1];
      simpl in Hp, Hs.
    + destruct (IH failures run1) as [Hp' Hs'].
      split; [by eapply lookup_progress_trans | congruence].
    + destruct (IH (S failures) run1) as [Hp' Hs'].
      split; [by eapply lookup_progress_trans | congruence].
    + done.
Qed.

Lemma dispatch_sent (t : Transport) (cs : list Contact) (run : Run) :
  sent (dispatch t cs run)
    = sent run
      ++ ((fun c => (_createContact t c, find_message (state run))) <$> cs).
Proof.
  unfold dispatch. revert run.
  induction cs as [|c cs IH]; intros run; cbn [foldl fmap list_fmap].
  - by rewrite app_nil_r.
  - rewrite IH. simpl. by rewrite <- app_assoc.
Qed.

Lemma handleQueryResults_effect (lib : Lib) (r : Router) (run : Run) :
  state (_handleQueryResults lib r run).2 = state run /\
  ((sent (_handleQueryResults lib r run).2 = sent run /\
    (foundValue (state run) = false ->
     forall res,
       (_handleQueryResults lib r run).1 <> Finish (Resolved VALUE res))) \/
   (foundValue (state run) = true /\
    exists c it it',
      item (state run) = Some it /\
      Item_new lib (item_key it) (item_value it) (publisher it)
        (timestamp it) = Next it' /\
      sent (_handleQueryResults lib r run).2
        = sent run ++ [(c, STORE it')] /\
      (_handleQueryResults lib r run).1
        = Finish (Resolved VALUE (Value (value (state run)))))).
Proof.
  unfold _handleQueryResults, _handleValueReturned.
  destruct (foundValue (state run)) eqn:Hfound.
  - destruct (sort_by_distance _ _) as [|c rest]; simpl; [by auto |].
    destruct (item (state run)) as [it|] eqn:Hit; simpl; [|by auto].
    destruct (Item_new lib _ _ _ _) as [it'|e|e] eqn:Hnew; simpl;
      [|by auto..].
    split; [done |]. right. split; [done |]. exists c, it, it'. eauto.
  - destruct (_ || _); simpl; [by auto |].
    case_bool_decide; simpl; by auto.
Qed.

(** X24.  Over the batches of [_iterativeFind], however the lookup ends,
    the state keeps its type, key and hashed key, the set of contacted nodes
    only grows, a value once found stays found, the distance recorded for the
    closest node never grows and stays the distance of the closest node when
    it was so at the start, and a NODE lookup leaves the value, the item, the
    found flag and the list of contacts without the value as they were. *)
Theorem iterativeFind_progress (lib : Lib) (r : Router) (t : Transport)
    (fuel batch : nat) (run : Run) (cs : list Contact) :
  lookup_progress (state run)
    (state (_iterativeFind lib r t fuel batch run cs).2).
Proof.
  revert batch run cs.
  induction fuel as [|fuel IH]; intros batch run cs; cbn [_iterativeFind].
  - apply lookup_progress_refl.
  - pose proof (handle_answers_progress lib r t batch (arrival t batch cs) 0
                  (dispatch t cs run)) as [Hp _].
    rewrite dispatch_state in Hp.
    destruct (handle_answers _ _ _ _ _ _ _) as [[failures|e|e] run1];
      simpl in Hp; [|done | done].
    case_bool_decide; [done |].
    pose proof (handleQueryResults_effect lib r run1) as [Hstate _].
    destruct (_handleQueryResults lib r run1) as [[o|next] run2];
      simpl in Hstate.
    + simpl. by rewrite Hstate.
    + eapply lookup_progress_trans; [exact Hp |].
      rewrite <- Hstate. apply IH.
Qed.

(** X25.  The messages of [_iterativeFind].  Whatever the transport
    answers, the lookup hands the transport FIND messages of its own type
    and key, then at most one STORE message; the STORE message carries the
    item that [new Item] builds from the fields of the item the state has
    latched, and comes with the value as the result.  A NODE lookup that has
    found no value sends FIND messages only and never ends with a value. *)
Theorem iterativeFind_messages (lib : Lib) (r : Router) (t : Transport)
    (fuel batch : nat) (run : Run) (cs : list Contact) :
  exists finds store,
    sent (_iterativeFind lib r t fuel batch run cs).2
      = sent run ++ finds ++ store /\
    Forall (fun m => m.2 = FIND (type (state run)) (key (state run))) finds /\
    (store = [] \/
     exists c it it' v,
       store = [(c, STORE it')] /\
       item (state (_iterativeFind lib r t fuel batch run cs).2) = Some it /\
       Item_new lib (item_key it) (item_value it) (publisher it)
         (timestamp it) = Next it' /\
       (_iterativeFind lib r t fuel batch run cs).1
         = Resolved VALUE (Value v)) /\
    (type (state run) = NODE -> foundValue (state run) = false ->
     store = [] /\
     forall res,
       (_iterativeFind lib r t fuel batch run cs).1 <> Resolved VALUE res).
Proof.
  revert batch run cs.
  induction fuel as [|fuel IH]; intros batch run cs; cbn [_iterativeFind].
  - exists [], []. rewrite !app_nil_r. by auto.
  - pose proof (handle_answers_progress lib r t batch (arrival t batch cs) 0
                  (dispatch t cs run)) as [Hp Hsent].
    rewrite dispatch_state in Hp. rewrite dispatch_sent in Hsent.
    assert (Forall
              (fun m : Contact * message =>
                 m.2 = FIND (type (state run)) (key (state run)))
              ((fun c => (_createContact t c, find_message (state run)))
                 <$> cs)) as Hfinds.
    { apply Forall_fmap, Forall_forall. by intros c _. }
    destruct (handle_answers _ _ _ _ _ _ _) as [[failures|e|e] run1];
      simpl in Hp, Hsent.
    2,3: eexists; exists []; rewrite app_nil_r;
         (split; [exact Hsent |]); by auto.
    case_bool_decide.
    { eexists; exists []; rewrite app_nil_r;
        (split; [exact Hsent |]); by auto. }
    pose proof (handleQueryResults_effect lib r run1) as [Hstate Hcases].
    destruct Hp as (Hty & Hkey & _ & _ & _ & _ & _ & Hnode).
    destruct (_handleQueryResults lib r run1) as [[o|next] run2];
      simpl in Hstate, Hcases.
    + destruct Hcases
        as [[Hsame Hno]|(Hfound & c & it & it' & Hit & Hnew & Hstore & Ho)].
      * eexists; exists []; rewrite app_nil_r. simpl.
        split; [by rewrite Hsame, Hsent |]. split; [done |].
        split; [by left |]. intros Hnode' Hfound. split; [done |].
        intros res ->. destruct (Hnode Hnode') as (Hf & _).
        eapply Hno; [congruence | done].
      * eexists; exists [(c, STORE it')]. simpl.
        split; [by rewrite Hstore, Hsent, <- app_assoc |]. split; [done |].
        split.
        { right. exists c, it, it', (value (state run1)).
          split; [done |]. split; [congruence |].
          split; [done | congruence]. }
        intros Hnode' Hfound'. destruct (Hnode Hnode') as (Hf & _).
        congruence.
    + destruct (IH (S batch) run2 next) as (finds & store & Hs & Hf & Hst & Hn).
      destruct Hcases as [[Hsame _]|(_ & _ & _ & _ & _ & _ & _ & [=])].
      exists (((fun c => (_createContact t c, find_message (state run)))
                 <$> cs) ++ finds), store.
      split; [by rewrite Hs, Hsame, Hsent, <- !app_assoc |].
      split.
      { apply Forall_app. split; [done |].
        by rewrite Hstate, Hty, Hkey in Hf. }
      split; [done |].
      intros Hnode' Hfound. apply Hn; rewrite Hstate; [congruence |].
      destruct (Hnode Hnode') as (Hf' & _). congruence.
Qed.

(** ** lib/router.js: the number of batches of a lookup *)

Lemma ids_filter_ne (l : list Contact) (id id' : NodeID) :
  id' ∈ nodeID <$> filter (fun c => nodeID c <> id) l
  <-> id' <> id /\ id' ∈ nodeID <$> l.
Proof.
  rewrite !list_elem_of_fmap. split.
  - intros (c & -> & [Hne Hc]%list_elem_of_filter). eauto.
  - intros (Hne & c & -> & Hc). exists c. split; [done |].
    by apply list_elem_of_filter.
Qed.

Lemma ids_pending (s : LookupState) (id : NodeID) :
  id ∈ nodeID <$> pending s
  <-> (id ∉ contacted s) /\ id ∈ nodeID <$> shortlist s.
Proof.
  unfold pending. rewrite !list_elem_of_fmap. split.
  - intros (c & -> & [Hout Hc]%list_elem_of_filter). eauto.
  - intros (Hout & c & -> & Hc). exists c. split; [done |].
    by apply list_elem_of_filter.
Qed.

Lemma NoDup_ids_filter (P : Contact -> Prop) `{!forall c, Decision (P c)}
    (l : list Contact) :
  NoDup (nodeID <$> l) -> NoDup (nodeID <$> filter P l).
Proof.
  intros Hnodup. eapply sublist_NoDup; [exact Hnodup |].
  apply fmap_sublist, sublist_filter.
Qed.

Lemma filter_ne_all (l : list Contact) (id : NodeID) :
  id ∉ nodeID <$> l -> filter (fun c => nodeID c <> id) l = l.
Proof.
  induction l as [|c l IH]; [done |].
  rewrite fmap_cons. intros [Hne Hout]%not_elem_of_cons.
  rewrite filter_cons_True by done. by rewrite IH.
Qed.

Lemma length_filter_ne (l : list Contact) (id : NodeID) :
  NoDup (nodeID <$> l) -> id ∈ nodeID <$> l ->
  S (length (filter (fun c => nodeID c <> id) l)) = length l.
Proof.
  induction l as [|c l IH]; [by intros _ ?%elem_of_nil |].
  rewrite fmap_cons. intros [Hc Hnodup]%NoDup_cons Hin.
  destruct (decide (nodeID c = id)) as [<-|Hne].
  - rewrite filter_cons_False by (intros ?; done).
    by rewrite filter_ne_all.
  - rewrite filter_cons_True by done. simpl. f_equal. apply IH; [done |].
    apply elem_of_cons in Hin as [?|?]; [congruence | done].
Qed.

Lemma answered_pending_length (s : LookupState) :
  length (answered s) + length (pending s) = length (shortlist s).
Proof.
  unfold answered, pending. rewrite <- length_app.
  apply Permutation_length.
  apply (filter_app_complement (fun c => nodeID c ∈ contacted s)).
Qed.

Lemma filter_contacted_length (C : gset NodeID) (l : list Contact) :
  length (filter (fun c => nodeID c ∈ C) l)
  + length (filter (fun c => nodeID c ∉ C) l) = length l.
Proof.
  rewrite <- length_app. apply Permutation_length.
  apply (filter_app_complement (fun c => nodeID c ∈ C)).
Qed.

Lemma filter_not_contacted_insert (C C' : gset NodeID) (id : NodeID)
    (l : list Contact) :
  C ⊆ C' -> C' ⊆ {[id]} ∪ C ->
  filter (fun c => nodeID c ∉ C') (filter (fun c => nodeID c <> id) l)
    = filter (fun c => nodeID c <> id) (filter (fun c => nodeID c ∉ C) l).
Proof.
  intros Hlow Hhigh. rewrite !list_filter_filter.
  apply list_filter_iff. intros c. split.
  - intros [Hout Hne]. split; [done |]. intros Hin. by apply Hout, Hlow.
  - intros [Hne Hout]. split; [|done]. intros Hin.
    apply Hhigh, elem_of_union in Hin as [Hin%elem_of_singleton|Hin]; done.
Qed.

Lemma filter_not_contacted_add (C : gset NodeID) (id : NodeID)
    (l : list Contact) :
  filter (fun c => nodeID c ∉ {[id]} ∪ C) l
    = filter (fun c => nodeID c <> id) (filter (fun c => nodeID c ∉ C) l).
Proof.
  rewrite list_filter_filter. apply list_filter_iff. intros c.
  rewrite not_elem_of_union, not_elem_of_singleton. done.
Qed.

(** The answer took the contact out of the shortlist. *)
Lemma answer_counted_removed (id : NodeID) (s s' : LookupState) :
  NoDup (nodeID <$> shortlist s) -> id ∈ nodeID <$> pending s ->
  shortlist s' = filter (fun c => nodeID c <> id) (shortlist s) ->
  contacted s ⊆ contacted s' -> contacted s' ⊆ {[id]} ∪ contacted s ->
  answer_counted id s s'.
Proof.
  intros Hnodup Hid Hshort Hlow Hhigh.
  pose proof (proj1 (ids_pending s id) Hid) as [Hout Hin].
  assert (pending s' = filter (fun c => nodeID c <> id) (pending s))
    as Hpending.
  { unfold pending. rewrite Hshort.
    by apply filter_not_contacted_insert. }
  assert (S (length (pending s')) = length (pending s)) as Hless.
  { rewrite Hpending. apply length_filter_ne; [|done].
    by apply NoDup_ids_filter. }
  unfold answer_counted. split; [|split; [|split]].
  - rewrite Hshort. by apply NoDup_ids_filter.
  - intros id' Hne [Hout' Hin']%ids_pending. apply ids_pending. split.
    + intros Hc.
      apply Hhigh, elem_of_union in Hc as [Hc%elem_of_singleton|Hc]; done.
    + rewrite Hshort. by apply ids_filter_ne.
  - pose proof (answered_pending_length s).
    pose proof (answered_pending_length s') as Hs'.
    rewrite Hshort in Hs'.
    pose proof (length_filter_ne (shortlist s) id Hnodup Hin). lia.
  - by right; right.
Qed.

(** The answer marked the contact as contacted and left the shortlist in
    place, with or without new entries after it. *)
Lemma answer_counted_kept (id : NodeID) (s s' : LookupState)
    (new : list Contact) :
  NoDup (nodeID <$> shortlist s) -> id ∈ nodeID <$> pending s ->
  shortlist s' = shortlist s ++ new -> NoDup (nodeID <$> shortlist s') ->
  contacted s' = {[id]} ∪ contacted s ->
  answer_counted id s s'.
Proof.
  intros Hnodup Hid Hshort Hnodup' Hcontacted.
  pose proof (proj1 (ids_pending s id) Hid) as [Hout Hin].
  assert (length (answered s) < length (answered s')) as Hmore.
  { unfold answered at 2. rewrite Hshort, Hcontacted, filter_app, length_app.
    pose proof (filter_contacted_length ({[id]} ∪ contacted s) (shortlist s))
      as Hsplit.
    rewrite filter_not_contacted_add in Hsplit.
    pose proof (length_filter_ne (pending s) id
                  (NoDup_ids_filter _ _ Hnodup) Hid) as Hless.
    pose proof (answered_pending_length s). unfold pending in Hless at 1.
    lia. }
  unfold answer_counted. split; [done |]. split; [|split; [lia | auto]].
  intros id' Hne [Hout' Hin']%ids_pending. apply ids_pending. split.
  - rewrite Hcontacted, not_elem_of_union, not_elem_of_singleton. done.
  - rewrite Hshort, fmap_app. apply elem_of_app. by left.
Qed.

Lemma addToShortList_appends (s : LookupState) (nodes : list Contact) :
  NoDup (nodeID <$> shortlist s) ->
  exists new,
    uniq_by_nodeID [] (shortlist s ++ nodes) = shortlist s ++ new /\
    NoDup (nodeID <$> (shortlist s ++ new)).
Proof.
  intros Hnodup. eexists. split.
  - apply uniq_by_nodeID_prefix; [done |]. intros id _. apply not_elem_of_nil.
  - rewrite <- uniq_by_nodeID_prefix; [| done |].
    + apply uniq_by_nodeID_spec.
    + intros id _. apply not_elem_of_nil.
Qed.

Lemma queryContact_counted (lib : Lib) (r : Router) (t : Transport)
    (batch : nat) (run : Run) (c : Contact) :
  nodeID (_createContact t c) = nodeID c ->
  NoDup (nodeID <$> shortlist (state run)) ->
  nodeID c ∈ nodeID <$> pending (state run) ->
  (exists e, (_queryContact lib r t batch run c).1 = Throw e) \/
  answer_counted (nodeID c) (state run)
    (state (_queryContact lib r t batch run c).2).
Proof.
  intros Hid Hnodup Hpending. unfold _queryContact, on_answer.
  destruct (answer t batch _ _) as [e|nodes it].
  - unfold call_removeContact.
    destruct (index_assertion _ _ _); simpl; [|by eauto].
    right. rewrite Hid. apply answer_counted_removed; try done.
    apply union_subseteq_r.
  - unfold _handleFindResult. destruct (negb _); [by eauto |].
    cbn [state with_state start type note_responder].
    destruct (type (state run)) eqn:Hty.
    + destruct nodes as [nodes|]; simpl; [|by eauto]. right.
      destruct (addToShortList_appends (state run) nodes Hnodup)
        as (new & Hnew & Hnodup').
      eapply answer_counted_kept; [done | done | | |]; simpl.
      * exact Hnew.
      * by rewrite Hnew.
      * by rewrite Hid.
    + destruct it as [it|].
      * unfold _validateFindResult, call_removeContact.
        cbn [state with_state start key note_responder].
        destruct (negb _); [destruct (index_assertion _ _ _) |]; simpl;
          [| by eauto |]; right.
        -- apply answer_counted_removed; [done | done | | |]; simpl.
           ++ by rewrite Hid.
           ++ apply union_subseteq_r.
           ++ by rewrite Hid.
        -- apply (answer_counted_kept _ _ _ []); [done | done | | |]; simpl.
           ++ by rewrite app_nil_r.
           ++ done.
           ++ by rewrite Hid.
      * destruct nodes as [nodes|]; simpl; [|by eauto]. right.
        destruct (addToShortList_appends (state run) nodes Hnodup)
          as (new & Hnew & Hnodup').
        eapply answer_counted_kept; [done | done | | |]; simpl.
        -- exact Hnew.
        -- by rewrite Hnew.
        -- by rewrite Hid.
Qed.

Lemma handle_answers_counted (lib : Lib) (r : Router) (t : Transport)
    (batch : nat) (cs : list Contact) (failures : nat) (run : Run) :
  (forall c, nodeID (_createContact t c) = nodeID c) ->
  NoDup (nodeID <$> cs) ->
  Forall (fun c => nodeID c ∈ nodeID <$> pending (state run)) cs ->
  NoDup (nodeID <$> shortlist (state run)) ->
  (exists e, (handle_answers lib r t batch cs failures run).1 = Throw e) \/
  ((exists n, (handle_answers lib r t batch cs failures run).1 = Next n /\
              (cs = [] -> n = failures)) /\
   NoDup (nodeID <$>
            shortlist (state (handle_answers lib r t batch cs failures run).2))
   /\
   length (answered (state run))
     <= length (answered
                  (state (handle_answers lib r t batch cs failures run).2)) /\
   (foundValue (state (handle_answers lib r t batch cs failures run).2) = true
    \/ length (answered (state run))
       < length (answered
                   (state (handle_answers lib r t batch cs failures run).2))
    \/ length (pending
                 (state (handle_answers lib r t batch cs failures run).2))
       + length cs = length (pending (state run)))).
Proof.
  intros Hid. revert failures run.
  induction cs as [|c cs IH]; intros failures run Hcs Hpending Hnodup.
  - right. simpl. split; [by eauto |]. split; [done |]. split; [done |].
    right; right. lia.
  - rewrite fmap_cons in Hcs. apply NoDup_cons in Hcs as [Hc Hcs].
    apply Forall_cons in Hpending as [Hpc Hpending].
    cbn [handle_answers].
    destruct (queryContact_counted lib r t batch run c (Hid c) Hnodup Hpc)
      as [[e He]|(Hnodup1 & Hothers & Hans & Hcase)].
    { left. destruct (_queryContact lib r t batch run c) as [[[]|?|?] run1];
        simpl in He; try done. eauto. }
    destruct (_queryContact lib r t batch run c) as [res run1].
    simpl in Hnodup1, Hothers, Hans, Hcase.
    assert (Forall (fun c' => nodeID c' ∈ nodeID <$> pending (state run1))
              cs) as Hpending1.
    { apply Forall_forall. intros c' Hc'. apply Hothers.
      - intros Heq. apply Hc. rewrite <- Heq. by apply list_elem_of_fmap_2.
      - by apply (proj1 (Forall_forall _ _) Hpending). }
    assert (forall n,
      (exists e, (handle_answers lib r t batch cs n run1).1 = Throw e) \/
      ((exists n', (handle_answers lib r t batch cs n run1).1 = Next n' /\
                   (c :: cs = [] -> n' = failures)) /\
       NoDup (nodeID <$>
                shortlist (state (handle_answers lib r t batch cs n run1).2))
       /\
       length (answered (state run))
         <= length (answered
                      (state (handle_answers lib r t batch cs n run1).2)) /\
       (foundValue (state (handle_answers lib r t batch cs n run1).2) = true
        \/ length (answered (state run))
           < length (answered
                       (state (handle_answers lib r t batch cs n run1).2))
        \/ length (pending
                     (state (handle_answers lib r t batch cs n run1).2))
           + length (c :: cs) = length (pending (state run))))) as Hrest.
    { intros n.
      destruct (IH n run1 Hcs Hpending1 Hnodup1)
        as [?|((n' & Hn' & _) & Hnodup2 & Hans2 & Hcase2)]; [by left |].
      right. split; [by exists n' |]. split; [done |]. split; [lia |].
      pose proof (handle_answers_progress lib r t batch cs n run1)
        as [(_ & _ & _ & _ & Hfound & _) _].
      simpl. destruct Hcase as [?|[?|?]]; [by auto | right; left; lia |].
      destruct Hcase2 as [?|[?|?]]; [by auto | right; left; lia |].
      right; right. lia. }
    destruct res as [[]|e|e]; [apply Hrest | apply Hrest | by eauto].
Qed.

Lemma handleQueryResults_next (lib : Lib) (r : Router) (run run' : Run)
    (d : decision) :
  _handleQueryResults lib r run = (d, run') ->
  match d with
  | Finish o => o <> OutOfFuel
  | Recurse next =>
      run' = run /\ foundValue (state run) = false /\
      length (shortlist (state run)) < K lib /\
      next = take (ALPHA lib) (pending (state run))
  end.
Proof.
  unfold _handleQueryResults, _handleValueReturned.
  destruct (foundValue (state run)).
  - destruct (sort_by_distance _ _); [by intros [= <- <-] |].
    destruct (item (state run)); [|by intros [= <- <-]].
    destruct (Item_new lib _ _ _ _); by intros [= <- <-].
  - destruct (strict_eq _ _); simpl; [by intros [= <- <-] |].
    case_bool_decide as Hfull; simpl; [by intros [= <- <-] |].
    case_bool_decide; intros [= <- <-]; [done |].
    split; [done |]. split; [done |]. split; [lia | done].
Qed.

(** X26.  [_iterativeFind] comes to an end.  When the transport gives a
    contact the node identifier of the record it is built from, and every
    query of a batch is answered or times out, a lookup that starts on a
    batch of its state, the shortlist holding no identifier twice, ends with
    a result, an error or an exception within
    [(K - answered) * (K + 1) + pending + 1] batches: every batch that
    does not end the lookup either gains the shortlist an answered entry,
    of which there are fewer than K while the lookup goes on, or takes a
    pending entry away. *)
Theorem iterativeFind_terminates (lib : Lib) (r : Router) (t : Transport)
    (fuel batch : nat) (run : Run) (cs : list Contact) :
  (forall c, nodeID (_createContact t c) = nodeID c) ->
  (forall b l, arrival t b l ≡ₚ l) ->
  NoDup (nodeID <$> shortlist (state run)) ->
  batch_of (state run) cs ->
  batches_left lib (state run) < fuel ->
  (_iterativeFind lib r t fuel batch run cs).1 <> OutOfFuel.
Proof.
  intros Hid Harrival. revert batch run cs.
  induction fuel as [|fuel IH]; intros batch run cs Hnodup [Hcs Hpending]
    Hfuel; [lia |].
  cbn [_iterativeFind].
  pose proof (Harrival batch cs) as Hperm.
  assert (NoDup (nodeID <$> arrival t batch cs)) as Harr.
  { by rewrite Hperm. }
  assert (Forall (fun c => nodeID c
                           ∈ nodeID <$> pending (state (dispatch t cs run)))
            (arrival t batch cs)) as Hparr.
  { rewrite dispatch_state. by rewrite Hperm. }
  assert (NoDup (nodeID <$> shortlist (state (dispatch t cs run))))
    as Hnodup0 by (by rewrite dispatch_state).
  destruct (handle_answers_counted lib r t batch (arrival t batch cs) 0
              (dispatch t cs run) Hid Harr Hparr Hnodup0)
    as [[e He]|((n & Hn & Hzero) & Hnodup1 & Hans & Hcase)].
  { destruct (handle_answers _ _ _ _ _ _ _) as [[?|?|?] run1];
      simpl in He; done. }
  rewrite dispatch_state in Hans, Hcase.
  destruct (handle_answers _ _ _ _ _ _ _) as [res run1].
  simpl in Hn, Hnodup1, Hans, Hcase. subst res.
  case_bool_decide as Hall; [done |].
  destruct (_handleQueryResults lib r run1) as [[o|next] run2] eqn:Hnext;
    apply handleQueryResults_next in Hnext; [done |].
  destruct Hnext as (-> & Hfound & Hshort & ->).
  assert (0 < length (arrival t batch cs)) as Hsome.
  { destruct (arrival t batch cs) as [|c l] eqn:Hl; [|simpl; lia].
    apply Permutation_nil_l in Hperm. subst cs.
    destruct Hall. by rewrite Hzero. }
  apply IH.
  - done.
  - split.
    + eapply sublist_NoDup; [exact Hnodup1 |].
      apply fmap_sublist. etrans; [apply sublist_take |].
      apply sublist_filter.
    + apply Forall_forall. intros c Hc%(subseteq_take (ALPHA lib)).
      by apply list_elem_of_fmap_2.
  - pose proof (answered_pending_length (state run1)) as Hsplit.
    unfold batches_left in *.
    destruct Hcase as [?|[Hmore|Hless]]; [congruence | |].
    + assert (S (K lib - length (answered (state run1)))
              <= K lib - length (answered (state run))) as Hk by lia.
      apply (Nat.mul_le_mono_r _ _ (S (K lib))) in Hk. lia.
    + assert (K lib - length (answered (state run1))
              <= K lib - length (answered (state run))) as Hk by lia.
      apply (Nat.mul_le_mono_r _ _ (S (K lib))) in Hk. lia.
Qed.

(** X26 on a lookup among peers that each answer with twenty peers: 423
    batches are enough. *)
Lemma iterativeFind_terminates_witness :
  batches_left Kad.lib (state Sample.run) < 423 /\
  (_iterativeFind Kad.lib Kad.router Kad.crowded_network 423 0 Sample.run
     [Kad.peer 9; Kad.peer 12]).1 <> OutOfFuel.
Proof.
  assert (batches_left Kad.lib (state Sample.run) < 423) as Hfuel.
  { vm_compute. lia. }
  split; [exact Hfuel |].
  apply (iterativeFind_terminates Kad.lib Kad.router Kad.crowded_network
           423 0 Sample.run [Kad.peer 9; Kad.peer 12]).
  - intros c. reflexivity.
  - intros b l. reflexivity.
  - compute_done.
  - split; compute_done.
  - exact Hfuel.
Defined.

(** X27.  The batch [_handleQueryResults] asks for.  When it decides on
    another batch, on a shortlist that holds no identifier twice, the lookup
    is left as it is and the batch is a batch of its state: at most ALPHA
    contacts of the shortlist, of distinct identifiers, none of which has
    answered before; with a positive ALPHA the batch is not empty.  No value
    has been found then and the shortlist holds fewer than K contacts. *)
Theorem handleQueryResults_recurse (lib : Lib) (r : Router) (run run' : Run)
    (next : list Contact) :
  NoDup (nodeID <$> shortlist (state run)) ->
  _handleQueryResults lib r run = (Recurse next, run') ->
  run' = run /\ batch_of (state run) next /\
  next `sublist_of` shortlist (state run) /\
  (forall c, c ∈ next -> nodeID c ∉ contacted (state run)) /\
  length next <= ALPHA lib /\ (0 < ALPHA lib -> next <> []) /\
  foundValue (state run) = false /\
  length (shortlist (state run)) < K lib.
Proof.
  intros Hnodup Hnext.
  pose proof (handleQueryResults_next lib r run run' _ Hnext)
    as (-> & Hfound & Hshort & ->).
  assert (take (ALPHA lib) (pending (state run))
            `sublist_of` shortlist (state run)) as Hsub.
  { etrans; [apply sublist_take | apply sublist_filter]. }
  split; [done |]. split; [split |].
  - eapply sublist_NoDup; [exact Hnodup |]. by apply fmap_sublist.
  - apply Forall_forall. intros c Hc%(subseteq_take (ALPHA lib)).
    by apply list_elem_of_fmap_2.
  - split; [done |]. split.
    { intros c Hc%(subseteq_take (ALPHA lib)).
      by apply list_elem_of_filter in Hc as [? _]. }
    split; [rewrite length_take; lia |]. split; [|done].
    intros Halpha Hnil. unfold _handleQueryResults in Hnext.
    rewrite Hfound in Hnext.
    destruct (strict_eq _ _ || _); [done |].
    case_bool_decide as Hempty; [done |]. apply Hempty.
    fold (pending (state run)).
    destruct (pending (state run)); [done |].
    by destruct (ALPHA lib); [lia |].
Qed.

(** X27 on a lookup that has not queried yet: the batch is its two peers. *)
Lemma handleQueryResults_recurse_witness :
  Sample.run = Sample.run /\
  batch_of (state Sample.run) [Kad.peer 9; Kad.peer 12] /\
  [Kad.peer 9; Kad.peer 12] `sublist_of` shortlist (state Sample.run) /\
  (forall c, c ∈ [Kad.peer 9; Kad.peer 12] ->
     nodeID c ∉ contacted (state Sample.run)) /\
  length [Kad.peer 9; Kad.peer 12] <= ALPHA Kad.lib /\
  (0 < ALPHA Kad.lib -> [Kad.peer 9; Kad.peer 12] <> []) /\
  foundValue (state Sample.run) = false /\
  length (shortlist (state Sample.run)) < K Kad.lib.
Proof.
  apply (handleQueryResults_recurse Kad.lib Kad.router Sample.run Sample.run
           [Kad.peer 9; Kad.peer 12]).
  - compute_done.
  - reflexivity.
Defined.

(** ** lib/routing-table.js: loading and counting *)

(** X28.  [_load] reads the adapter only while the table has no
    [_buckets] object, never writes to it and emits nothing; a table that is
    loaded is left as it is.  From the adapter it never restores a bucket:
    an unloaded table comes out without any.  It comes out still without the
    [_buckets] object, so that the next call reads the adapter again, in two
    cases only: after a stored snapshot that is the empty object, and
    without a snapshot when the adapter answers a miss with [null]. *)
Theorem load_spec (lib : Lib) (w : World) :
  storage (_load lib w) = storage w /\
  events (_load lib w) = events w /\
  (is_Some (_buckets w) -> _load lib w = w) /\
  (_buckets w = None -> default ∅ (_buckets (_load lib w)) = ∅) /\
  (_buckets w = None ->
   (_buckets (_load lib w) = None
    <-> routing_table_entry (storage w) = Some ∅ \/
        (routing_table_entry (storage w) = None /\
         on_miss (storage w) = MissNull))) /\
  _load lib (_load lib w) = _load lib w.
Proof.
  split; [apply _load_storage |]. split; [apply _load_events |].
  split; [intros [m Hm]; by apply _load_loaded with m |].
  split; [|split; [|apply _load_idempotent]]; intros Hm.
  - unfold _load. rewrite Hm.
    destruct (routing_table_entry (storage w)) as [result|].
    + destruct (decide (result = ∅)) as [->|Hne].
      * by rewrite map_to_list_empty.
      * destruct (load_entries_raise lib None (map_to_list result).*1)
          as [e ->]; [|done].
        intros Hnil. by apply fmap_nil_inv, map_to_list_empty_iff in Hnil.
    + destruct (on_miss (storage w)); [done |]. by rewrite Hm.
  - unfold _load. rewrite Hm.
    destruct (routing_table_entry (storage w)) as [result|].
    + destruct (decide (result = ∅)) as [->|Hne].
      * rewrite map_to_list_empty. simpl. split; [by left | done].
      * destruct (load_entries_raise lib None (map_to_list result).*1)
          as [e ->].
        { intros Hnil.
          by apply fmap_nil_inv, map_to_list_empty_iff in Hnil. }
        simpl. split; [done |]. intros [[= ->]|[[=] _]]. done.
    + destruct (on_miss (storage w)); simpl.
      * split; [done |]. by intros [[=]|[_ [=]]].
      * split; [by right | done].
Qed.

(** X29.  The indexes and the size of the table agree with its buckets:
    [getIndexes] lists the indexes that have a bucket, each once and in
    ascending order; [getSize] is at least the size of every bucket and is
    zero exactly when every bucket is empty. *)
Theorem table_indexes_and_size (lib : Lib) (w : World) :
  (forall i, i ∈ (getIndexes lib w).1
             <-> is_Some (bucket_at (_load lib w) i)) /\
  NoDup (getIndexes lib w).1 /\
  StronglySorted le (getIndexes lib w).1 /\
  (forall i b, bucket_at (_load lib w) i = Some b ->
     getSize b <= (RoutingTable_getSize lib w).1) /\
  ((RoutingTable_getSize lib w).1 = 0 <->
     forall i b, bucket_at (_load lib w) i = Some b -> contacts b = []).
Proof.
  unfold getIndexes, RoutingTable_getSize, bucket_at. cbn [fst].
  assert (forall i, _buckets (_load lib w) ≫= (.!! i)
                    = default ∅ (_buckets (_load lib w)) !! i) as Hat.
  { intros i. destruct (_buckets (_load lib w)); simpl; [done |].
    by rewrite lookup_empty. }
  set (m := default ∅ (_buckets (_load lib w))) in *. clearbody m.
  pose proof (merge_sort_Permutation le (elements (dom m))) as Hperm.
  split; [|split; [|split]].
  - intros i. rewrite Hat, Hperm, elem_of_elements. apply elem_of_dom.
  - rewrite Hperm. apply NoDup_elements.
  - apply StronglySorted_merge_sort; apply _.
  - assert ((forall i b, m !! i = Some b ->
               getSize b <= map_fold (fun _ b n => n + getSize b) 0 m) /\
            (map_fold (fun _ b n => n + getSize b) 0 m = 0 <->
               forall i b, m !! i = Some b -> contacts b = [])) as Hsum.
    { apply (map_fold_weak_ind
               (fun n m =>
                  (forall i b, m !! i = Some b -> getSize b <= n) /\
                  (n = 0 <-> forall i b, m !! i = Some b -> contacts b = []))).
      - split; [by intros i b ?%lookup_empty_Some |].
        split; [by intros _ i b ?%lookup_empty_Some | done].
      - intros i b m' n Hnone [Hle Hzero]. split.
        + intros j b' [[-> ->]|[Hne Hj]]%lookup_insert_Some; [lia |].
          specialize (Hle j b' Hj). lia.
        + split.
          * intros Hsum j b' [[-> ->]|[Hne Hj]]%lookup_insert_Some.
            -- apply length_zero_iff_nil. unfold getSize in Hsum. lia.
            -- apply (proj1 Hzero) with j; [lia | done].
          * intros Hall.
            assert (contacts b = []) as Hb.
            { apply (Hall i). apply lookup_insert_eq. }
            assert (n = 0) as ->.
            { apply Hzero. intros j b' Hj. apply (Hall j).
              rewrite lookup_insert_ne; [done |]. intros ->. congruence. }
            unfold getSize. by rewrite Hb. }
    destruct Hsum as [Hle Hzero]. split.
    + intros i b. rewrite Hat. apply Hle.
    + rewrite Hzero. split; intros Hall i b; [rewrite Hat | rewrite <- Hat];
        apply Hall.
Qed.
